(** * Layered layout and viewport engine of the solar single-line-diagram viewer

    A shallow embedding of [src/components/CadViewer.tsx] (the layout function
    [calculateSmartLayout], the zoom handler [handleZoom] and the guard that
    decides whether a connection is drawn) together with the data types of the
    repository's [types] module.

    Conventions of the embedding:
    - in the layout and the pointer handlers a JavaScript [number] is an exact
      rational ([Q]).  The heights, cursors and band centres the layout
      derives are multiples of one half far below 2^53, on which the
      arithmetic of the source is exact; the rank constants are compared
      through their decimal values, and the rank columns [100 + rank * 180]
      land on the same grid points as their binary64 values.  The division by
      the scale in the pointer handlers is exact here and rounded in the
      source, so nothing is stated about the value it gives;
    - in the zoom handler, whose sums of the literal [0.1] depend on the
      rounding, the scale is a binary64 number ([float64]);
    - a [Map<string, _>] is a [gmap string _]; an array is a [list];
    - an optional field ([x?: number]) is an [option];
    - the two recursive closures [calcHeight] and [assignPosition] take a
      recursion budget ([fuel]); running out of it ([OutOfFuel]) stands for a
      recursion deeper than the budget, and a call that is [OutOfFuel] for
      every budget for a recursion the source never leaves;
    - a non-null assertion ([m.get(k)!]) on an absent key is kept apart as the
      outcome [Undefined]; [layout_never_undefined] shows that the layout
      function never meets one. *)

From Stdlib Require Import QArith Qround Qminmax Qabs ZArith String Ascii List Lia Lqa Sorted.
From Stdlib Require Import SpecFloat.
From stdpp Require Import gmap strings list fin_maps.

Local Open Scope string_scope.
Local Open Scope Q_scope.
Local Open Scope list_scope.

(** ** Data model ([types]) *)

Inductive ComponentType : Type :=
| PV_ARRAY | DC_COMBINER | DC_BREAKER | DC_SPD | INVERTER | AC_BREAKER
| AC_SPD | AC_DISTRIBUTION | METER | GRID | LOAD.

#[global] Instance ComponentType_eq_dec : EqDecision ComponentType.
Proof. solve_decision. Defined.

Record SolarComponent : Type := mkComponent {
  c_id : string;
  c_type : ComponentType;
  c_label : string;
  c_specs : list string;
  c_x : option Q;
  c_y : option Q
}.

Inductive ConnectionType : Type := DC | AC | GROUND.

Record Connection : Type := mkConnection {
  conn_from : string;
  conn_to : string;
  conn_label : string;
  conn_type : ConnectionType
}.

(** ** Layout constants *)

Definition CANVAS_WIDTH : Q := 2000.
Definition MIN_CANVAS_HEIGHT : Q := 1000.
Definition BASE_NODE_HEIGHT : Q := 100.
Definition LEVEL_WIDTH : Q := 180.
Definition GRID_SNAP : Q := 20.
Definition ICON_OFFSET : Q := 35.

(** The table covers the whole closed enumeration, so the fallbacks of the
    source ([?? 2] in [getLevelX], [|| 0] on a typed component) are only ever
    taken for an id that is not in the component list (see [levelOfId]). *)
Definition LEVEL_MAP (t : ComponentType) : Q :=
  match t with
  | PV_ARRAY => 0
  | DC_COMBINER => 1
  | DC_SPD => 1.2
  | DC_BREAKER => 1.5
  | INVERTER => 2
  | AC_BREAKER => 2.5
  | AC_SPD => 2.8
  | AC_DISTRIBUTION => 3
  | LOAD => 3.5
  | METER => 4
  | GRID => 5
  end.

Definition getLevelX (t : ComponentType) : Q :=
  let lvl := LEVEL_MAP t in
  let startX := 100 in
  startX + (lvl * LEVEL_WIDTH).

Definition getNodeHeight (component : SolarComponent) : Q :=
  let base := BASE_NODE_HEIGHT in
  let specsHeight := inject_Z (Z.of_nat (length (c_specs component))) * 15 in
  base + specsHeight.

(** ** Numeric helpers *)

(** [a < b] on numbers. *)
Definition Qltb (a b : Q) : bool := negb (Qle_bool b a).

(** [Math.round]: the nearest integer, halves rounded up. *)
Definition Math_round (q : Q) : Z := Qfloor (q + (1 # 2)).

(** [Math.round(v / GRID_SNAP) * GRID_SNAP]. *)
Definition snap (v : Q) : Q := inject_Z (Math_round (v / GRID_SNAP)) * GRID_SNAP.

(** ** Outcomes of the recursive closures *)

Inductive outcome (A : Type) : Type :=
| Returns (a : A)
| OutOfFuel
| Undefined.
Arguments Returns {A} a.
Arguments OutOfFuel {A}.
Arguments Undefined {A}.

#[global] Instance outcome_ret : MRet outcome := fun A a => Returns a.
#[global] Instance outcome_bind : MBind outcome := fun A B f m =>
  match m with
  | Returns a => f a
  | OutOfFuel => OutOfFuel
  | Undefined => Undefined
  end.

(** [array.forEach] whose body may not return, threading the captured state. *)
Fixpoint forEachM {A S : Type} (body : S -> A -> outcome S) (l : list A) (s : S)
  : outcome S :=
  match l with
  | [] => Returns s
  | a :: rest => s' ← body s a; forEachM body rest s'
  end.

(** [m.get(k)!] *)
Definition getAsserted {V : Type} (m : gmap string V) (k : string) : outcome V :=
  match m !! k with
  | Some v => Returns v
  | None => Undefined
  end.

(** [m.has(k)] *)
Definition has {V : Type} (m : gmap string V) (k : string) : bool :=
  match m !! k with
  | Some _ => true
  | None => false
  end.

(** ** Topology normaliser (source lines 60-84) *)

Record Forest : Type := mkForest {
  childrenMap : gmap string (list string);
  parentMap : gmap string string
}.

Section Normaliser.
Variable components : list SolarComponent.

(** [components.find(c => c.id === id)] *)
Definition findComponent (id : string) : option SolarComponent :=
  List.find (fun c => String.eqb (c_id c) id) components.

(** [LEVEL_MAP[components.find(c => c.id === id)?.type || ''] || 0] *)
Definition levelOfId (id : string) : Q :=
  match findComponent id with
  | Some c => LEVEL_MAP (c_type c)
  | None => 0
  end.

(** [components.find(c => c.id === id)?.type === ComponentType.LOAD] *)
Definition isLoad (id : string) : bool :=
  match findComponent id with
  | Some c => bool_decide (c_type c = LOAD)
  | None => false
  end.

(** The [(parent, child)] pair a connection is read as (lines 66-75). *)
Definition orient (conn : Connection) : string * string :=
  let parent := conn_to conn in
  let child := conn_from conn in
  let pLevel := levelOfId parent in
  let cLevel := levelOfId child in
  if Qltb pLevel cLevel && negb (isLoad child)
  then (child, parent)
  else (parent, child).

(** The body of [connections.forEach] (lines 65-81). *)
Definition addConnection (f : Forest) (conn : Connection) : Forest :=
  let '(parent, child) := orient conn in
  match childrenMap f !! parent with
  | Some siblings =>
      {| childrenMap := <[parent := siblings ++ [child]]> (childrenMap f);
         parentMap := <[child := parent]> (parentMap f) |}
  | None => f
  end.

(** [components.forEach(c => childrenMap.set(c.id, []))] *)
Definition emptyForest : Forest :=
  {| childrenMap :=
       fold_left (fun m c => <[c_id c := []]> m) components ∅;
     parentMap := ∅ |}.

Definition buildForest (connections : list Connection) : Forest :=
  fold_left addConnection connections emptyForest.

(** [Array.prototype.sort] is stable: insertion into the sorted tail. *)
Fixpoint insertRoot (a : SolarComponent) (l : list SolarComponent)
  : list SolarComponent :=
  match l with
  | [] => [a]
  | b :: rest =>
      if Qltb (LEVEL_MAP (c_type a)) (LEVEL_MAP (c_type b))
      then b :: insertRoot a rest
      else a :: b :: rest
  end.

(** [roots.sort((a, b) => (LEVEL_MAP[b.type] || 0) - (LEVEL_MAP[a.type] || 0))] *)
Definition sortRoots (l : list SolarComponent) : list SolarComponent :=
  fold_right insertRoot [] l.

(** Lines 83-84. *)
Definition rootsOf (f : Forest) : list SolarComponent :=
  sortRoots (List.filter (fun c => negb (has (parentMap f) (c_id c))) components).
End Normaliser.

(** ** Subtree metrics (source lines 86-106) *)

(** [children.reduce((sum, childId) => sum + calcHeight(childId), 0)], the
    memo table [subtreeHeights] threaded through the calls. *)
Fixpoint sumHeights
    (calc : string -> gmap string Q -> outcome (Q * gmap string Q))
    (children : list string) (sum : Q) (subtreeHeights : gmap string Q)
  : outcome (Q * gmap string Q) :=
  match children with
  | [] => Returns (sum, subtreeHeights)
  | childId :: rest =>
      '(h, subtreeHeights') ← calc childId subtreeHeights;
      sumHeights calc rest (sum + h) subtreeHeights'
  end.

Fixpoint calcHeight (components : list SolarComponent)
    (children_of : gmap string (list string)) (fuel : nat) (nodeId : string)
    (subtreeHeights : gmap string Q) : outcome (Q * gmap string Q) :=
  match fuel with
  | O => OutOfFuel
  | S fuel' =>
      match subtreeHeights !! nodeId with
      | Some h => Returns (h, subtreeHeights)
      | None =>
          let myHeight :=
            match findComponent components nodeId with
            | Some node => getNodeHeight node
            | None => BASE_NODE_HEIGHT
            end in
          let children := default [] (children_of !! nodeId) in
          match children with
          | [] => Returns (myHeight, <[nodeId := myHeight]> subtreeHeights)
          | _ :: _ =>
              '(childrenTotalHeight, subtreeHeights') ←
                sumHeights (calcHeight components children_of fuel')
                           children 0 subtreeHeights;
              let val := Qmax myHeight childrenTotalHeight in
              Returns (val, <[nodeId := val]> subtreeHeights')
          end
      end
  end.

(** [roots.forEach(r => calcHeight(r.id))] *)
Definition calcRootHeights (components : list SolarComponent)
    (children_of : gmap string (list string)) (fuel : nat)
    (roots : list SolarComponent) : outcome (gmap string Q) :=
  forEachM (fun subtreeHeights r =>
              '(_, subtreeHeights') ←
                calcHeight components children_of fuel (c_id r) subtreeHeights;
              Returns subtreeHeights')
           roots ∅.

(** ** Position assignor (source lines 108-141) *)

Record Position : Type := mkPosition { pos_x : Q; pos_y : Q }.

(** What [assignPosition] writes to: the arrays held by [childrenMap], which
    [children.sort()] reorders in place, and the [positions] map. *)
Record Placement : Type := mkPlacement {
  pl_children : gmap string (list string);
  positions : gmap string Position
}.

(** [children.sort()] on an array of strings: ascending, compared code unit
    by code unit.  An id is a string of code units below 256, one character
    of the model for each, so that the order on the characters of the model
    is the order on the code units. *)
Fixpoint insertId (a : string) (l : list string) : list string :=
  match l with
  | [] => [a]
  | b :: rest => if String.leb a b then a :: b :: rest else b :: insertId a rest
  end.

Definition sortIds (l : list string) : list string := fold_right insertId [] l.

(** The body of [children.forEach] in [assignPosition] (lines 127-132). *)
Fixpoint placeChildren
    (assign : string -> Q -> Placement -> outcome Placement)
    (subtreeHeights : gmap string Q)
    (children : list string) (startY : Q) (pl : Placement) : outcome Placement :=
  match children with
  | [] => Returns pl
  | childId :: rest =>
      childHeight ← getAsserted subtreeHeights childId;
      let childCenter := startY + (childHeight / 2) in
      pl' ← assign childId childCenter pl;
      placeChildren assign subtreeHeights rest (startY + childHeight) pl'
  end.

Fixpoint assignPosition (components : list SolarComponent)
    (subtreeHeights : gmap string Q) (fuel : nat)
    (nodeId : string) (centerY : Q) (pl : Placement) : outcome Placement :=
  match fuel with
  | O => OutOfFuel
  | S fuel' =>
      match findComponent components nodeId with
      | None => Returns pl
      | Some node =>
          let x := default (getLevelX (c_type node)) (c_x node) in
          let y := default centerY (c_y node) in
          let pl1 := {| pl_children := pl_children pl;
                        positions := <[nodeId := mkPosition x y]> (positions pl) |} in
          let children := default [] (pl_children pl !! nodeId) in
          match children with
          | [] => Returns pl1
          | _ :: _ =>
              let sorted := sortIds children in
              let pl2 := {| pl_children := <[nodeId := sorted]> (pl_children pl1);
                            positions := positions pl1 |} in
              h ← getAsserted subtreeHeights nodeId;
              let startY := centerY - (h / 2) in
              placeChildren (assignPosition components subtreeHeights fuel')
                            subtreeHeights sorted startY pl2
          end
      end
  end.

(** The body of [roots.forEach] (lines 136-141); the running cursor
    [currentRootY] travels with the placement. *)
Definition placeRoot (components : list SolarComponent)
    (subtreeHeights : gmap string Q) (fuel : nat)
    (acc : Placement * Q) (root : SolarComponent) : outcome (Placement * Q) :=
  let '(pl, currentRootY) := acc in
  h ← getAsserted subtreeHeights (c_id root);
  let centerY := currentRootY + (h / 2) in
  pl' ← assignPosition components subtreeHeights fuel (c_id root) centerY pl;
  Returns (pl', currentRootY + (h + 40)).

(** ** The layout function (source lines 49-154) *)

Record LayoutResult : Type := mkLayoutResult {
  layoutedComponents : list SolarComponent;
  totalHeight : Q
}.

(** [v !== undefined] *)
Definition defined {A : Type} (v : option A) : bool :=
  match v with
  | Some _ => true
  | None => false
  end.

(** [components.every(c => c.x !== undefined && c.y !== undefined)] *)
Definition allHavePos (components : list SolarComponent) : bool :=
  forallb (fun c => defined (c_x c) && defined (c_y c)) components.

(** [components.forEach(c => { if (c.y! > maxY) maxY = c.y!; })] from
    [maxY = 0]; a comparison with [undefined] is false. *)
Definition maxYOf (components : list SolarComponent) : Q :=
  fold_left (fun maxY c =>
               match c_y c with
               | Some cy => if Qltb maxY cy then cy else maxY
               | None => maxY
               end)
            components 0.

(** Lines 60-141: the forest, the subtree heights, and the positions with the
    cursor left after the last root. *)
Definition computePositions (fuel : nat) (components : list SolarComponent)
    (connections : list Connection) : outcome (Placement * Q) :=
  let forest := buildForest components connections in
  let roots := rootsOf components forest in
  subtreeHeights ← calcRootHeights components (childrenMap forest) fuel roots;
  forEachM (placeRoot components subtreeHeights fuel) roots
           ({| pl_children := childrenMap forest; positions := ∅ |}, 100).

(** [{ ...c, x: vx, y: vy }] *)
Definition withPosition (c : SolarComponent) (vx vy : Q) : SolarComponent :=
  {| c_id := c_id c; c_type := c_type c; c_label := c_label c;
     c_specs := c_specs c; c_x := Some vx; c_y := Some vy |}.

(** The body of the final [components.map] (lines 146-151). *)
Definition snapComponent (positions : gmap string Position) (c : SolarComponent)
  : SolarComponent :=
  let pos := default (mkPosition 0 0) (positions !! c_id c) in
  let snappedX := snap (pos_x pos) in
  let snappedY := snap (pos_y pos) in
  withPosition c snappedX snappedY.

Definition calculateSmartLayout (fuel : nat) (components : list SolarComponent)
    (connections : list Connection) : outcome LayoutResult :=
  if allHavePos components then
    let maxY := maxYOf components in
    Returns {| layoutedComponents := components;
               totalHeight := Qmax MIN_CANVAS_HEIGHT (maxY + 200) |}
  else
    '(pl, currentRootY) ← computePositions fuel components connections;
    let totalContentHeight := currentRootY in
    Returns {| layoutedComponents := map (snapComponent (positions pl)) components;
               totalHeight := Qmax MIN_CANVAS_HEIGHT (totalContentHeight + 100) |}.

(** ** Viewport: zoom (source lines 189-190, 209-211) *)

(** The zoom steps add the literal [0.1], which is no binary fraction, so
    what their sums are depends on the rounding of every addition.  For the
    zoom the scale is therefore kept as the binary64 number it is, with the
    arithmetic of IEEE 754 (precision 53, exponent bound 1024, rounding to
    nearest, ties to even) as the standard library specifies it. *)
Definition float64 : Type := spec_float.

(** [a + b], [a / b], [-a] and the comparisons on numbers. *)
Definition f64_add : float64 -> float64 -> float64 := SFadd 53 1024.
Definition f64_div : float64 -> float64 -> float64 := SFdiv 53 1024.
Definition f64_neg : float64 -> float64 := SFopp.
Definition f64_leb : float64 -> float64 -> bool := SFleb.
Definition f64_ltb : float64 -> float64 -> bool := SFltb.
Definition f64_eqb : float64 -> float64 -> bool := SFeqb.

(** An integer literal. *)
Definition f64_of_Z (z : Z) : float64 := binary_normalize 53 1024 z 0 false.

(** The literals [0.1] and [0.5]: the binary64 numbers nearest to one tenth
    and to one half (one half is exact). *)
Definition f64_tenth : float64 := f64_div (f64_of_Z 1) (f64_of_Z 10).
Definition f64_half : float64 := f64_div (f64_of_Z 1) (f64_of_Z 2).

Definition isNaN (x : float64) : bool :=
  match x with
  | S754_nan => true
  | _ => false
  end.

(** [Math.max(a, b)]: [NaN] when an argument is [NaN]; [+0] is larger than
    [-0]. *)
Definition Math_max (a b : float64) : float64 :=
  match SFcompare a b with
  | None => S754_nan
  | Some Lt => b
  | Some Gt => a
  | Some Eq =>
      match a, b with
      | S754_zero sa, S754_zero sb => S754_zero (sa && sb)
      | _, _ => a
      end
  end.

(** [Math.min(a, b)]: [NaN] when an argument is [NaN]; [-0] is smaller than
    [+0]. *)
Definition Math_min (a b : float64) : float64 :=
  match SFcompare a b with
  | None => S754_nan
  | Some Lt => a
  | Some Gt => b
  | Some Eq =>
      match a, b with
      | S754_zero sa, S754_zero sb => S754_zero (sa || sb)
      | _, _ => a
      end
  end.

(** The two pieces of view state [scale] and [translate] (lines 189-190). *)
Record ZoomState : Type := mkZoomState {
  zoom_scale : float64;
  zoom_translate : float64 * float64
}.

(** [setScale(prev => Math.min(Math.max(0.1, prev + delta), 4))]; no other
    piece of state is written. *)
Definition handleZoom (delta : float64) (v : ZoomState) : ZoomState :=
  {| zoom_scale := Math_min (Math_max f64_tenth (f64_add (zoom_scale v) delta))
                            (f64_of_Z 4);
     zoom_translate := zoom_translate v |}.

(** [useState(1)], [useState({ x: 0, y: 0 })] *)
Definition initialZoom : ZoomState :=
  {| zoom_scale := f64_of_Z 1; zoom_translate := (f64_of_Z 0, f64_of_Z 0) |}.

(** ** Viewport as the pointer handlers read it *)

(** For the pointer handlers, which subtract, divide by the scale and compare,
    the numbers are exact rationals as in the layout. *)
Record ViewState : Type := mkViewState {
  scale : Q;
  translate : Q * Q
}.

(** ** Connection rendering guard (source lines 700-704, and 584-587) *)

(** The two placed components a connection is drawn between; [None] is the
    [return null] of the source, for which no edge element is produced. *)
Definition connectionEndpoints (placed : list SolarComponent) (conn : Connection)
  : option (SolarComponent * SolarComponent) :=
  match findComponent placed (conn_from conn), findComponent placed (conn_to conn) with
  | Some fromNode, Some toNode => Some (fromNode, toNode)
  | _, _ => None
  end.

(** ** Scenarios *)

Definition comp (id : string) (t : ComponentType) (specs : list string)
    (x y : option Q) : SolarComponent :=
  {| c_id := id; c_type := t; c_label := id; c_specs := specs; c_x := x; c_y := y |}.

Definition wire (from to : string) : Connection :=
  {| conn_from := from; conn_to := to; conn_label := "cable"; conn_type := AC |}.

(** Two pinned components (both coordinates present). *)
Definition pinnedPlant : list SolarComponent :=
  [comp "pv" PV_ARRAY ["550W"] (Some 105) (Some 33);
   comp "grid" GRID [] (Some 1000) (Some 900)].

(** A pinned inverter off the grid lines next to an unplaced grid node. *)
Definition halfPinnedPlant : list SolarComponent :=
  [comp "a" INVERTER [] (Some 105) (Some 33); comp "b" GRID [] None None].

(** One array feeding two inverters. *)
Definition sharedArrayPlant : list SolarComponent :=
  [comp "pv" PV_ARRAY [] None None;
   comp "inv1" INVERTER [] None None;
   comp "inv2" INVERTER [] None None].
Definition sharedArrayWires : list Connection :=
  [wire "pv" "inv1"; wire "pv" "inv2"].

(** An inverter feeding a load. *)
Definition loadPlant : list SolarComponent :=
  [comp "inv" INVERTER [] None None; comp "load" LOAD [] None None].
Definition loadWire : Connection := wire "inv" "load".

(** Two inverters wired to each other, one of them also to the grid. *)
Definition loopPlant : list SolarComponent :=
  [comp "grid" GRID [] None None;
   comp "a" INVERTER [] None None;
   comp "b" INVERTER [] None None].
Definition loopWires : list Connection :=
  [wire "a" "grid"; wire "a" "b"; wire "b" "a"].

(** The same loop without the grid node, one inverter pinned on a grid point:
    no component is a root. *)
Definition islandPlant : list SolarComponent :=
  [comp "a" INVERTER [] (Some 120) (Some 40); comp "b" INVERTER [] None None].
Definition islandWires : list Connection :=
  [wire "a" "b"; wire "b" "a"].

(** Scenario 4 of the specification: a wire from an id that does not exist. *)
Definition ghostPlant : list SolarComponent :=
  [comp "grid" GRID [] None None; comp "inv" INVERTER [] None None].
Definition ghostWire : Connection := wire "ghost" "grid".
Definition ghostWires : list Connection := [wire "inv" "grid"; ghostWire].

(** A wire between two ids that do not exist. *)
Definition strayWire : Connection := wire "ghost" "nowhere".

(** A pinned inverter off the grid lines wired to an unplaced grid node, which
    is its parent and the only root. *)
Definition pinnedChildPlant : list SolarComponent :=
  [comp "grid" GRID [] None None; comp "inv" INVERTER [] (Some 105) (Some 33)].
Definition pinnedChildWires : list Connection := [wire "inv" "grid"].

(** Scenario 1 of the specification: the initial document. *)
Definition initialPlant : list SolarComponent :=
  [comp "grid" GRID ["380V / 50Hz"] None None].

(** Scenario 2 of the specification: a single chain from array to grid. *)
Definition chainPlant : list SolarComponent :=
  [comp "pv" PV_ARRAY [] None None;
   comp "dcb" DC_BREAKER [] None None;
   comp "inv" INVERTER [] None None;
   comp "acb" AC_BREAKER [] None None;
   comp "grid" GRID [] None None].
Definition chainWires : list Connection :=
  [wire "pv" "dcb"; wire "dcb" "inv"; wire "inv" "acb"; wire "acb" "grid"].

Definition unitView : ViewState := {| scale := 1; translate := (0, 0) |}.

(** [0.1 <= s <= 4.0] *)
Definition inZoomRange (s : float64) : Prop :=
  f64_leb f64_tenth s = true /\ f64_leb s (f64_of_Z 4) = true.

(** ** Predicates used in the statements *)

(** The same fields apart from the coordinates, which are both present. *)
Definition reannotates (c c' : SolarComponent) : Prop :=
  c_id c' = c_id c /\ c_type c' = c_type c /\ c_label c' = c_label c /\
  c_specs c' = c_specs c /\ is_Some (c_x c') /\ is_Some (c_y c').

(** A recorded position comes from the first component with that id: its own
    coordinate where it has one, the rank column for a missing [x]. *)
Definition placedFrom (components : list SolarComponent) (id : string)
    (p : Position) : Prop :=
  exists node, findComponent components id = Some node /\
    pos_x p = default (getLevelX (c_type node)) (c_x node) /\
    (forall vy, c_y node = Some vy -> pos_y p = vy).

Definition positionsSound (components : list SolarComponent) (pl : Placement) : Prop :=
  forall id p, positions pl !! id = Some p -> placedFrom components id p.

(** An outcome makes progress: it is never [Undefined], and it is a result as
    soon as [enough] budget was given. *)
Definition progress (enough : Prop) {A : Type} (o : outcome A) : Prop :=
  o <> Undefined /\ (enough -> exists a, o = Returns a).

(** Children sit strictly below their parent. *)
Definition ranked (children_of : gmap string (list string))
    (rank : string -> nat) : Prop :=
  forall n l c, children_of !! n = Some l -> In c l -> (rank c < rank n)%nat.

(** The memo table holds the children of every node it holds. *)
Definition closed (children_of : gmap string (list string))
    (subtreeHeights : gmap string Q) : Prop :=
  forall n l c, is_Some (subtreeHeights !! n) -> children_of !! n = Some l ->
                In c l -> is_Some (subtreeHeights !! c).

Definition grows (m m' : gmap string Q) : Prop :=
  forall k, is_Some (m !! k) -> is_Some (m' !! k).

(** The arrays of the placement hold children of the forest only. *)
Definition refines (children_of : gmap string (list string))
    (pl : Placement) : Prop :=
  forall n l, pl_children pl !! n = Some l ->
    exists l0, children_of !! n = Some l0 /\ forall c, In c l -> In c l0.

(** Ranks for the ids of the forest from ranks for the connections whose two
    endpoints exist: an id that is no component sits below everything. *)
Definition liftRank (components : list SolarComponent) (rank : string -> nat)
    (id : string) : nat :=
  match findComponent components id with
  | Some _ => S (rank id)
  | None => 0
  end.

(** ** Documents and their history ([types], [App.tsx] lines 18-40) *)

Record ProjectMeta : Type := mkMeta {
  projectName : string;
  location : string;
  totalCapacity : string;
  systemVoltage : string
}.

Record SolarSystemData : Type := mkSystem {
  sys_meta : ProjectMeta;
  sys_components : list SolarComponent;
  sys_connections : list Connection
}.

Definition INITIAL_SYSTEM : SolarSystemData :=
  {| sys_meta := {| projectName := "New Project"; location := "Unknown";
                    totalCapacity := "0 kWp"; systemVoltage := "0 V" |};
     sys_components :=
       [{| c_id := "grid"; c_type := GRID; c_label := "Utility Grid";
           c_specs := ["380V / 50Hz"]; c_x := None; c_y := None |}];
     sys_connections := [] |}.

(** The two pieces of state [history] and [historyIndex] of [App]. *)
Record AppHistory : Type := mkHistory {
  history : list SolarSystemData;
  historyIndex : nat
}.

Definition initialHistory : AppHistory :=
  {| history := [INITIAL_SYSTEM]; historyIndex := 0 |}.

(** [history[historyIndex]] *)
Definition currentSystem (h : AppHistory) : option SolarSystemData :=
  history h !! historyIndex h.

(** [updateSystem] (lines 27-32): [slice(0, historyIndex + 1)], [push]. *)
Definition updateSystem (newData : SolarSystemData) (h : AppHistory) : AppHistory :=
  let newHistory := firstn (historyIndex h + 1) (history h) ++ [newData] in
  {| history := newHistory; historyIndex := (length newHistory - 1)%nat |}.

(** [handleUndo] (lines 34-36). *)
Definition handleUndo (h : AppHistory) : AppHistory :=
  {| history := history h;
     historyIndex := if (0 <? historyIndex h)%nat
                     then (historyIndex h - 1)%nat else historyIndex h |}.

(** [handleRedo] (lines 38-40). *)
Definition handleRedo (h : AppHistory) : AppHistory :=
  {| history := history h;
     historyIndex := if (historyIndex h <? length (history h) - 1)%nat
                     then (historyIndex h + 1)%nat else historyIndex h |}.

(** The props [canUndo] and [canRedo] handed to the viewer (lines 151-152). *)
Definition canUndo (h : AppHistory) : bool := (0 <? historyIndex h)%nat.
Definition canRedo (h : AppHistory) : bool :=
  (historyIndex h <? length (history h) - 1)%nat.

Inductive HistoryAction : Type :=
| DoUpdate (newData : SolarSystemData)
| DoUndo
| DoRedo.

Definition applyAction (h : AppHistory) (a : HistoryAction) : AppHistory :=
  match a with
  | DoUpdate newData => updateSystem newData h
  | DoUndo => handleUndo h
  | DoRedo => handleRedo h
  end.

(** The index points into the history. *)
Definition historyValid (h : AppHistory) : Prop :=
  (historyIndex h < length (history h))%nat.

(** ** Pointer interaction of the viewer ([CadViewer.tsx] lines 184-275, 499) *)

(** What the handlers read of a mouse event. *)
Record MouseEvent : Type := mkMouseEvent {
  ev_button : Z;
  ev_altKey : bool;
  ev_targetTag : string;
  ev_targetId : string;
  ev_clientX : Q;
  ev_clientY : Q
}.

(** The state of the viewer the pointer handlers read and write. *)
Record ViewerState : Type := mkViewerState {
  vs_view : ViewState;
  vs_placed : list SolarComponent;
  vs_height : Q;
  vs_isPanning : bool;
  vs_panStart : Q * Q;
  vs_draggingId : option string;
  vs_dragOffset : Q * Q;
  vs_selectedId : option string
}.

(** The truth value of an id that may be [null]: the empty string is falsy. *)
Definition truthy (id : option string) : bool :=
  match id with
  | Some s => negb (String.eqb s "")
  | None => false
  end.

(** [v || 0] on an optional number. *)
Definition orZero (v : option Q) : Q := default 0 v.

(** [containerRef.current?.getBoundingClientRect().left || 0] and [.top || 0];
    [rect] is the corner of the container, absent when the ref is not set. *)
Definition rectLeft (rect : option (Q * Q)) : Q := orZero (fst <$> rect).
Definition rectTop (rect : option (Q * Q)) : Q := orZero (snd <$> rect).

(** [mouseSvgX], [mouseSvgY]: the pointer in diagram coordinates (the
    division is exact here, rounded to binary64 in the source). *)
Definition mouseSvg (rect : option (Q * Q)) (v : ViewState) (e : MouseEvent) : Q * Q :=
  ((ev_clientX e - rectLeft rect - fst (translate v)) / scale v,
   (ev_clientY e - rectTop rect - snd (translate v)) / scale v).

(** [handleMouseDown] (lines 213-219). *)
Definition handleMouseDown (e : MouseEvent) (st : ViewerState) : ViewerState :=
  if (ev_button e =? 1)%Z || ev_altKey e || String.eqb (ev_targetTag e) "svg"
     || String.eqb (ev_targetId e) "cad-bg"
  then {| vs_view := vs_view st; vs_placed := vs_placed st; vs_height := vs_height st;
          vs_isPanning := true;
          vs_panStart := (ev_clientX e - fst (translate (vs_view st)),
                          ev_clientY e - snd (translate (vs_view st)));
          vs_draggingId := vs_draggingId st; vs_dragOffset := vs_dragOffset st;
          vs_selectedId := vs_selectedId st |}
  else st.

(** [handleComponentMouseDown] (lines 221-235). *)
Definition handleComponentMouseDown (rect : option (Q * Q)) (e : MouseEvent)
    (comp : SolarComponent) (st : ViewerState) : ViewerState :=
  if negb (ev_button e =? 0)%Z then st
  else
    let '(mouseSvgX, mouseSvgY) := mouseSvg rect (vs_view st) e in
    {| vs_view := vs_view st; vs_placed := vs_placed st; vs_height := vs_height st;
       vs_isPanning := vs_isPanning st; vs_panStart := vs_panStart st;
       vs_draggingId := Some (c_id comp);
       vs_dragOffset := (mouseSvgX - orZero (c_x comp), mouseSvgY - orZero (c_y comp));
       vs_selectedId := Some (c_id comp) |}.

(** [prev.placed.map(c => c.id === draggingId ? { ...c, x, y } : c)] *)
Definition moveComponent (draggingId : string) (vx vy : Q)
    (placed : list SolarComponent) : list SolarComponent :=
  map (fun c => if String.eqb (c_id c) draggingId then withPosition c vx vy else c)
      placed.

(** [handleGlobalMouseMove] (lines 237-258), on the state of the render the
    handler was created in; [listenerMouseMove] below is the handler as the
    window listener, whose closure may be older than the current state. *)
Definition handleGlobalMouseMove (rect : option (Q * Q)) (e : MouseEvent)
    (st : ViewerState) : ViewerState :=
  if vs_isPanning st then
    {| vs_view := {| scale := scale (vs_view st);
                     translate := (ev_clientX e - fst (vs_panStart st),
                                   ev_clientY e - snd (vs_panStart st)) |};
       vs_placed := vs_placed st; vs_height := vs_height st;
       vs_isPanning := vs_isPanning st; vs_panStart := vs_panStart st;
       vs_draggingId := vs_draggingId st; vs_dragOffset := vs_dragOffset st;
       vs_selectedId := vs_selectedId st |}
  else if truthy (vs_draggingId st) then
    let '(mouseSvgX, mouseSvgY) := mouseSvg rect (vs_view st) e in
    let rawX := mouseSvgX - fst (vs_dragOffset st) in
    let rawY := mouseSvgY - snd (vs_dragOffset st) in
    let snappedX := snap rawX in
    let snappedY := snap rawY in
    {| vs_view := vs_view st;
       vs_placed := moveComponent (default "" (vs_draggingId st)) snappedX snappedY
                                  (vs_placed st);
       vs_height := vs_height st;
       vs_isPanning := vs_isPanning st; vs_panStart := vs_panStart st;
       vs_draggingId := vs_draggingId st; vs_dragOffset := vs_dragOffset st;
       vs_selectedId := vs_selectedId st |}
  else st.

(** [{ ...c, x: layoutC.x, y: layoutC.y }] for the placed component with the
    id of [c], [c] itself when there is none (lines 266-270). *)
Definition commitPosition (placed : list SolarComponent) (c : SolarComponent)
  : SolarComponent :=
  match findComponent placed (c_id c) with
  | Some layoutC =>
      {| c_id := c_id c; c_type := c_type c; c_label := c_label c;
         c_specs := c_specs c; c_x := c_x layoutC; c_y := c_y layoutC |}
  | None => c
  end.

(** [handleGlobalMouseUp] (lines 260-275): the new state and the document
    handed to [onSystemUpdate], if any; [hasOnSystemUpdate] tells whether the
    optional callback was passed. *)
Definition handleGlobalMouseUp (data : SolarSystemData) (hasOnSystemUpdate : bool)
    (st : ViewerState) : ViewerState * option SolarSystemData :=
  let isPanning' := if vs_isPanning st then false else vs_isPanning st in
  if truthy (vs_draggingId st) then
    ({| vs_view := vs_view st; vs_placed := vs_placed st; vs_height := vs_height st;
        vs_isPanning := isPanning'; vs_panStart := vs_panStart st;
        vs_draggingId := None; vs_dragOffset := vs_dragOffset st;
        vs_selectedId := vs_selectedId st |},
     if hasOnSystemUpdate then
       Some {| sys_meta := sys_meta data;
               sys_components := map (commitPosition (vs_placed st)) (sys_components data);
               sys_connections := sys_connections data |}
     else None)
  else
    ({| vs_view := vs_view st; vs_placed := vs_placed st; vs_height := vs_height st;
        vs_isPanning := isPanning'; vs_panStart := vs_panStart st;
        vs_draggingId := vs_draggingId st; vs_dragOffset := vs_dragOffset st;
        vs_selectedId := vs_selectedId st |}, None).

(** *** The registered listeners (lines 277-284) *)

(** The effect registers [handleGlobalMouseMove] on the window, and registers
    it anew only after a render in which one of its dependencies [isPanning],
    [draggingId], [translate], [scale], [layoutData] changed.  The registered
    listener reads [isPanning], [draggingId], [panStart], [dragOffset],
    [translate] and [scale] from the render it was created in ([listener]);
    what it writes goes to the current state ([current]). *)
Record Viewer : Type := mkViewer {
  current : ViewerState;
  listener : ViewerState
}.

(** A pointer move reaching the registered listener: [handleGlobalMouseMove]
    with the values of its closure.  [setTranslate] replaces [translate];
    [setLayoutData(prev => ...)] maps over the current placed list. *)
Definition listenerMouseMove (rect : option (Q * Q)) (e : MouseEvent)
    (closure now : ViewerState) : ViewerState :=
  if vs_isPanning closure then
    {| vs_view := {| scale := scale (vs_view now);
                     translate := (ev_clientX e - fst (vs_panStart closure),
                                   ev_clientY e - snd (vs_panStart closure)) |};
       vs_placed := vs_placed now; vs_height := vs_height now;
       vs_isPanning := vs_isPanning now; vs_panStart := vs_panStart now;
       vs_draggingId := vs_draggingId now; vs_dragOffset := vs_dragOffset now;
       vs_selectedId := vs_selectedId now |}
  else if truthy (vs_draggingId closure) then
    let '(mouseSvgX, mouseSvgY) := mouseSvg rect (vs_view closure) e in
    let rawX := mouseSvgX - fst (vs_dragOffset closure) in
    let rawY := mouseSvgY - snd (vs_dragOffset closure) in
    let snappedX := snap rawX in
    let snappedY := snap rawY in
    {| vs_view := vs_view now;
       vs_placed := moveComponent (default "" (vs_draggingId closure)) snappedX snappedY
                                  (vs_placed now);
       vs_height := vs_height now;
       vs_isPanning := vs_isPanning now; vs_panStart := vs_panStart now;
       vs_draggingId := vs_draggingId now; vs_dragOffset := vs_dragOffset now;
       vs_selectedId := vs_selectedId now |}
  else now.

(** A press on the canvas: [handleMouseDown], then the effect.  Of the state
    this handler writes ([isPanning], [panStart]) only [isPanning] is a
    dependency, so the listener is registered anew exactly when [isPanning]
    changed. *)
Definition mouseDownEvent (e : MouseEvent) (v : Viewer) : Viewer :=
  let st' := handleMouseDown e (current v) in
  {| current := st';
     listener := if Bool.eqb (vs_isPanning st') (vs_isPanning (current v))
                 then listener v else st' |}.

(** The "100%" button (line 499). *)
Definition resetView (st : ViewerState) : ViewerState :=
  {| vs_view := {| scale := 1; translate := (0, 0) |};
     vs_placed := vs_placed st; vs_height := vs_height st;
     vs_isPanning := vs_isPanning st; vs_panStart := vs_panStart st;
     vs_draggingId := vs_draggingId st; vs_dragOffset := vs_dragOffset st;
     vs_selectedId := vs_selectedId st |}.

(** ** Property panel ([CadViewer.tsx] lines 310-320, 529-533) *)

Definition newline : ascii := "010"%char.

(** [value.split('\n')] *)
Fixpoint splitLines (value : string) : list string :=
  match value with
  | EmptyString => [EmptyString]
  | String ch rest =>
      if Ascii.eqb ch newline then EmptyString :: splitLines rest
      else match splitLines rest with
           | line :: lines => String ch line :: lines
           | [] => [String ch EmptyString]
           end
  end.

(** [specs.join('\n')] *)
Fixpoint joinLines (specs : list string) : string :=
  match specs with
  | [] => EmptyString
  | [line] => line
  | line :: rest => String.append line (String newline (joinLines rest))
  end.

Inductive PropertyField : Type := FieldLabel | FieldSpecs.

(** [handlePropertyChange] (lines 310-320): the component list handed to
    [onSystemUpdate], [None] when the handler returns at its guard. *)
Definition handlePropertyChange (selectedId : option string) (hasOnSystemUpdate : bool)
    (field : PropertyField) (value : string) (components : list SolarComponent)
  : option (list SolarComponent) :=
  if negb (truthy selectedId) || negb hasOnSystemUpdate then None
  else
    Some (map (fun c =>
                 if String.eqb (c_id c) (default "" selectedId) then
                   match field with
                   | FieldSpecs =>
                       {| c_id := c_id c; c_type := c_type c; c_label := c_label c;
                          c_specs := splitLines value; c_x := c_x c; c_y := c_y c |}
                   | FieldLabel =>
                       {| c_id := c_id c; c_type := c_type c; c_label := value;
                          c_specs := c_specs c; c_x := c_x c; c_y := c_y c |}
                   end
                 else c)
              components).

(** ** Export frame ([CadViewer.tsx] lines 445-463) *)

Record Bounds : Type := mkBounds { b_x : Q; b_y : Q; b_w : Q; b_h : Q }.

(** One round of the [forEach]: the four running extrema. *)
Definition widen (acc : Q * Q * Q * Q) (c : SolarComponent) : Q * Q * Q * Q :=
  let '(minX, minY, maxX, maxY) := acc in
  let cx := default 0 (c_x c) in
  let cy := default 0 (c_y c) in
  (if Qltb cx minX then cx else minX,
   if Qltb cy minY then cy else minY,
   if Qltb maxX cx then cx else maxX,
   if Qltb maxY cy then cy else maxY).

(** [exportBounds].  The extrema start at plus and minus [Infinity], so the
    first component always replaces all four; the loop is therefore written
    from the values of the first component on. *)
Definition exportBounds (placed : list SolarComponent) : Bounds :=
  match placed with
  | [] => {| b_x := 0; b_y := 0; b_w := 800; b_h := 600 |}
  | first :: rest =>
      let cx := default 0 (c_x first) in
      let cy := default 0 (c_y first) in
      let '(minX, minY, maxX, maxY) := fold_left widen rest (cx, cy, cx, cy) in
      let padding := 150 in
      {| b_x := minX - padding;
         b_y := minY - padding;
         b_w := (maxX - minX) + (padding * 2);
         b_h := (maxY - minY) + (padding * 2) |}
  end.

(** ** Connection curve ([CadViewer.tsx] lines 700-716, and 584-599) *)

(** The numbers of the path and of the label anchor. *)
Record EdgeGeometry : Type := mkEdge {
  e_x1 : Q; e_y1 : Q; e_x2 : Q; e_y2 : Q;
  e_cp1x : Q; e_cp1y : Q; e_cp2x : Q; e_cp2y : Q;
  e_midX : Q; e_midY : Q
}.

(** [v!] on an optional number. *)
Definition asserted (v : option Q) : outcome Q :=
  match v with
  | Some q => Returns q
  | None => Undefined
  end.

(** Lines 706-715 for the two placed endpoints. *)
Definition edgeGeometry (fromNode toNode : SolarComponent) : outcome EdgeGeometry :=
  fx ← asserted (c_x fromNode);
  fy ← asserted (c_y fromNode);
  tx ← asserted (c_x toNode);
  ty ← asserted (c_y toNode);
  let x1 := fx + ICON_OFFSET in
  let y1 := fy in
  let x2 := tx - ICON_OFFSET in
  let y2 := ty in
  let dist := Qabs (x2 - x1) in
  let cpOffset := Qmax (dist * 0.5) 60 in
  let cp1x := x1 + cpOffset in
  let cp1y := y1 in
  let cp2x := x2 - cpOffset in
  let cp2y := y2 in
  let t := 0.5 in
  let midX := (1 - t) ^ 3 * x1 + 3 * (1 - t) ^ 2 * t * cp1x
              + 3 * (1 - t) * t ^ 2 * cp2x + t ^ 3 * x2 in
  let midY := (1 - t) ^ 3 * y1 + 3 * (1 - t) ^ 2 * t * cp1y
              + 3 * (1 - t) * t ^ 2 * cp2y + t ^ 3 * y2 in
  Returns {| e_x1 := x1; e_y1 := y1; e_x2 := x2; e_y2 := y2;
             e_cp1x := cp1x; e_cp1y := cp1y; e_cp2x := cp2x; e_cp2y := cp2y;
             e_midX := midX; e_midY := midY |}.

(** The element produced for a connection: none for a connection with an
    endpoint that is not placed, else the curve between the two endpoints. *)
Definition renderConnection (placed : list SolarComponent) (conn : Connection)
  : option (outcome EdgeGeometry) :=
  match connectionEndpoints placed conn with
  | Some (fromNode, toNode) => Some (edgeGeometry fromNode toNode)
  | None => None
  end.

(** Whether a spec line holds a line break. *)
Fixpoint hasNewline (line : string) : bool :=
  match line with
  | EmptyString => false
  | String ch rest => Ascii.eqb ch newline || hasNewline rest
  end.

(** The coordinates the export frame reads: [c.x ?? 0], [c.y ?? 0]. *)
Definition frameX (c : SolarComponent) : Q := default 0 (c_x c).
Definition frameY (c : SolarComponent) : Q := default 0 (c_y c).

(** [node ? getNodeHeight(node) : BASE_NODE_HEIGHT] for the node of an id. *)
Definition ownHeight (components : list SolarComponent) (nodeId : string) : Q :=
  match findComponent components nodeId with
  | Some node => getNodeHeight node
  | None => BASE_NODE_HEIGHT
  end.

(** The memo table obeys the recurrence of the subtree height: every entry is
    the own height of its node when the node has no children, and else the
    larger of the own height and the sum of the entries of its children. *)
Definition measured (components : list SolarComponent)
    (children_of : gmap string (list string)) (m : gmap string Q) : Prop :=
  forall n h, m !! n = Some h ->
    exists hs,
      Forall2 (fun c hc => m !! c = Some hc) (default [] (children_of !! n)) hs /\
      h = match default [] (children_of !! n) with
          | [] => ownHeight components n
          | _ :: _ => Qmax (ownHeight components n) (fold_left Qplus hs 0)
          end.

(** What a measuring call guarantees: the table stays measured and only
    grows, the node is in it with the height returned, and every new key
    ranks at most as high as the node. *)
Definition measures (components : list SolarComponent)
    (children_of : gmap string (list string)) (rank : string -> nat)
    (calc : string -> gmap string Q -> outcome (Q * gmap string Q))
    (nodeId : string) : Prop :=
  forall m h m', calc nodeId m = Returns (h, m') ->
    measured components children_of m ->
    measured components children_of m' /\ m ⊆ m' /\ m' !! nodeId = Some h /\
    (forall k, m !! k = None -> is_Some (m' !! k) -> (rank k <= rank nodeId)%nat).

(** ** Root bands (source lines 136-143) *)

(** The value of [currentRootY] after the roots of a list, from [start]: each
    root moves it down by the height recorded for it and the gap of 40. *)
Definition cursorAfter (subtreeHeights : gmap string Q)
    (roots : list SolarComponent) (start : Q) : Q :=
  fold_left (fun y r => y + (default 0 (subtreeHeights !! c_id r) + 40)) roots start.

(** An id that is in no children array. *)
Definition unlisted (id : string) (children_of : gmap string (list string)) : Prop :=
  forall p l, children_of !! p = Some l -> ~ In id l.

(** The order of the comparator of line 84: the higher rank first. *)
Definition byRankDescending (a b : SolarComponent) : Prop :=
  LEVEL_MAP (c_type b) <= LEVEL_MAP (c_type a).

(** The components of one rank. *)
Definition sameRank (q : Q) (c : SolarComponent) : bool :=
  Qeq_bool (LEVEL_MAP (c_type c)) q.

(** Every recorded height is at least the height of a bare node. *)
Definition floored (subtreeHeights : gmap string Q) : Prop :=
  forall k h, subtreeHeights !! k = Some h -> BASE_NODE_HEIGHT <= h.

(** ** What the traversals can get to *)

(** [c] is in the children array of [p]. *)
Definition childOf (children_of : gmap string (list string)) (p c : string) : Prop :=
  exists l, children_of !! p = Some l /\ In c l.

(** The ids below the roots of a list: the roots and, step by step, the
    entries of the children arrays.  Both recursive closures start at the
    roots and recurse into the children arrays only. *)
Definition belowRoots (children_of : gmap string (list string))
    (roots : list SolarComponent) (id : string) : Prop :=
  exists root, In root roots /\ rtc (childOf children_of) (c_id root) id.

(** The ids at or below a root of the forest of an input. *)
Definition reachable (components : list SolarComponent)
    (connections : list Connection) (id : string) : Prop :=
  let forest := buildForest components connections in
  belowRoots (childrenMap forest) (rootsOf components forest) id.

(** On a set of ids closed under the children arrays, children sit strictly
    below their parent. *)
Definition rankedOn (S : string -> Prop) (children_of : gmap string (list string))
    (rank : string -> nat) : Prop :=
  forall n l c, S n -> children_of !! n = Some l -> In c l ->
    S c /\ (rank c < rank n)%nat.

(** No cycle can be reached from a root: on the ids at or below a root the
    rank drops from parent to child. *)
Definition rankedBelowRoots (components : list SolarComponent)
    (connections : list Connection) (rank : string -> nat) : Prop :=
  forall p c, reachable components connections p ->
    childOf (childrenMap (buildForest components connections)) p c ->
    (rank c < rank p)%nat.

(** The id lies on a cycle of the children arrays. *)
Definition onCycle (children_of : gmap string (list string)) (id : string) : Prop :=
  tc (childOf children_of) id id.

(** The arrays of the placement hold all children of the forest. *)
Definition covers (children_of : gmap string (list string)) (pl : Placement) : Prop :=
  forall n l0, children_of !! n = Some l0 ->
    exists l, pl_children pl !! n = Some l /\ forall c, In c l0 -> In c l.

(** [v] is [k * 20] for the integer [k] nearest to [raw / 20], halves rounded
    up: what [Math.round(raw / GRID_SNAP) * GRID_SNAP] has to be. *)
Definition nearestGridPoint (raw v : Q) : Prop :=
  exists k : Z, v = inject_Z (k * 20) /\
    inject_Z (k * 20) - 10 <= raw /\ raw < inject_Z (k * 20) + 10.

(** An output component sits on the grid point nearest to a raw position. *)
Definition snappedFrom (raw : Position) (c' : SolarComponent) : Prop :=
  exists vx vy, c_x c' = Some vx /\ c_y c' = Some vy /\
    nearestGridPoint (pos_x raw) vx /\ nearestGridPoint (pos_y raw) vy.

(** * Properties *)

(** ** Basic facts about the embedding *)

Lemma Qltb_lt (a b : Q) : Qltb a b = true <-> a < b.
Proof.
  unfold Qltb. rewrite negb_true_iff, <- not_true_iff_false, Qle_bool_iff.
  split; [apply Qnot_le_lt | apply Qlt_not_le].
Qed.

Lemma Qltb_ge (a b : Q) : Qltb a b = false <-> b <= a.
Proof.
  unfold Qltb. rewrite negb_false_iff. apply Qle_bool_iff.
Qed.

Lemma findComponent_Some components id c :
  findComponent components id = Some c -> In c components /\ c_id c = id.
Proof.
  unfold findComponent. intros H. apply find_some in H as [Hin Heq].
  split; [done | by apply String.eqb_eq].
Qed.

Lemma findComponent_None components id :
  findComponent components id = None <-> ~ In id (map c_id components).
Proof.
  unfold findComponent. induction components as [|c cs IH]; simpl.
  - tauto.
  - destruct (String.eqb_spec (c_id c) id) as [->|Hne].
    + split; [discriminate | tauto].
    + rewrite IH. tauto.
Qed.

Lemma findComponent_is_Some components id :
  is_Some (findComponent components id) <-> In id (map c_id components).
Proof.
  destruct (findComponent components id) eqn:E.
  - split; [intros _ | by eauto].
    apply findComponent_Some in E as [Hin <-]. by apply in_map.
  - apply findComponent_None in E. split; [by intros [? ?] | tauto].
Qed.

Lemma allHavePos_spec components :
  allHavePos components = true ->
  Forall (fun c => is_Some (c_x c) /\ is_Some (c_y c)) components.
Proof.
  unfold allHavePos. rewrite forallb_forall, Forall_forall.
  intros H c Hc. apply list_elem_of_In, H, andb_true_iff in Hc as [Hx Hy].
  destruct (c_x c), (c_y c); try discriminate. split; eauto.
Qed.

Lemma snap_multiple (v : Q) :
  snap v = inject_Z (Math_round (v / GRID_SNAP) * 20).
Proof. reflexivity. Qed.

Lemma snap_fixes_multiples (k : Z) : snap (inject_Z (k * 20)) = inject_Z (k * 20).
Proof.
  rewrite snap_multiple. f_equal. f_equal.
  unfold Math_round, Qfloor, GRID_SNAP. simpl.
  symmetry. apply Z.div_unique with 20%Z; lia.
Qed.

Lemma snapComponent_reannotates positions c :
  reannotates c (snapComponent positions c).
Proof. unfold reannotates, snapComponent. simpl. repeat split; eauto. Qed.

(** ** The scenarios of the specification, run on the embedding *)

(** A single grid node is placed in its rank column, at the centre of its band
    [100 + 115 / 2] snapped to the grid. *)
Example initial_document_layout :
  calculateSmartLayout 1 initialPlant [] =
    Returns {| layoutedComponents := [comp "grid" GRID ["380V / 50Hz"] (Some 1000) (Some 160)];
               totalHeight := 1000 |}.
Proof. vm_compute. reflexivity. Qed.

(** A chain is laid out left to right on one line. *)
Example chain_layout :
  calculateSmartLayout 5 chainPlant chainWires =
    Returns {| layoutedComponents :=
                 [comp "pv" PV_ARRAY [] (Some 100) (Some 160);
                  comp "dcb" DC_BREAKER [] (Some 380) (Some 160);
                  comp "inv" INVERTER [] (Some 460) (Some 160);
                  comp "acb" AC_BREAKER [] (Some 560) (Some 160);
                  comp "grid" GRID [] (Some 1000) (Some 160)];
               totalHeight := 1000 |}.
Proof. vm_compute. reflexivity. Qed.

(** ** The layout as a whole *)

(** C1 (idempotence).  When every component carries both coordinates the
    layout function returns, whatever the connections and the recursion
    budget, the component list itself (same components, same order, same
    coordinates); only the height is computed, as
    [max(MIN_CANVAS_HEIGHT, maxY + 200)]. *)
Theorem layout_idempotent (fuel : nat) (components : list SolarComponent)
    (connections : list Connection) :
  allHavePos components = true ->
  calculateSmartLayout fuel components connections =
    Returns {| layoutedComponents := components;
               totalHeight := Qmax MIN_CANVAS_HEIGHT (maxYOf components + 200) |}.
Proof.
  intros Hall. unfold calculateSmartLayout. by rewrite Hall.
Qed.

Lemma layout_idempotent_witness :
  allHavePos pinnedPlant = true /\
  calculateSmartLayout 0 pinnedPlant sharedArrayWires =
    Returns {| layoutedComponents := pinnedPlant;
               totalHeight := Qmax MIN_CANVAS_HEIGHT (maxYOf pinnedPlant + 200) |}.
Proof.
  split; [reflexivity | apply (layout_idempotent 0 pinnedPlant sharedArrayWires); reflexivity].
Defined.

(** ** Viewport *)

(** *** Binary64 additions give numbers *)

Lemma iter_pos_invariant {A : Type} (P : A -> Prop) (f : A -> A) :
  (forall x, P x -> P (f x)) -> forall n x, P x -> P (SpecFloat.iter_pos f n x).
Proof.
  intros Hf n. induction n as [n IH|n IH|]; intros x Hx; simpl; auto.
Qed.

Lemma shr_1_nonneg mrs : (0 <= shr_m mrs)%Z -> (0 <= shr_m (shr_1 mrs))%Z.
Proof.
  destruct mrs as [m r s]. simpl. destruct m as [|[p|p|]|p]; simpl; lia.
Qed.

Lemma shr_nonneg mrs e n : (0 <= shr_m mrs)%Z -> (0 <= shr_m (fst (shr mrs e n)))%Z.
Proof.
  intros H. unfold shr. destruct n as [|p|p]; simpl; try done.
  apply (iter_pos_invariant (fun x => (0 <= shr_m x)%Z)); [apply shr_1_nonneg | done].
Qed.

Lemma shr_fexp_nonneg prec emax m e l :
  (0 <= m)%Z -> (0 <= shr_m (fst (shr_fexp prec emax m e l)))%Z.
Proof.
  intros H. unfold shr_fexp. apply shr_nonneg.
  destruct l as [|[| |]]; simpl; done.
Qed.

Lemma round_nearest_even_nonneg m l : (0 <= m)%Z -> (0 <= round_nearest_even m l)%Z.
Proof.
  intros H. unfold round_nearest_even. destruct l as [|[| |]]; try done.
  - destruct (Z.even m); lia.
  - lia.
Qed.

Lemma binary_round_aux_number prec emax sx mx ex lx :
  (0 <= mx)%Z -> binary_round_aux prec emax sx mx ex lx <> S754_nan.
Proof.
  intros H. unfold binary_round_aux.
  pose proof (shr_fexp_nonneg prec emax mx ex lx H) as H1.
  destruct (shr_fexp prec emax mx ex lx) as [mrs' e']. simpl in H1.
  pose proof (shr_fexp_nonneg prec emax _ e' loc_Exact
                (round_nearest_even_nonneg _ (loc_of_shr_record mrs') H1)) as H2.
  destruct (shr_fexp prec emax _ e' loc_Exact) as [mrs'' e'']. simpl in H2.
  destruct (shr_m mrs'') as [|m|m]; [done | | lia].
  by destruct (Z.leb e'' (emax - prec)).
Qed.

Lemma binary_normalize_number prec emax m e szero :
  binary_normalize prec emax m e szero <> S754_nan.
Proof.
  unfold binary_normalize, binary_round. destruct m as [|m|m]; [done | |];
    destruct (shl_align _ _ _) as [mz ez]; by apply binary_round_aux_number.
Qed.

(** The sum of a finite number and a number is a number. *)
Lemma f64_add_number s m e (y : float64) :
  isNaN y = false -> isNaN (f64_add (S754_finite s m e) y) = false.
Proof.
  intros Hy. destruct y as [sy|sy| |sy my ey]; simpl; try done.
  pose proof (binary_normalize_number 53 1024
                (cond_Zopp s (Zpos (fst (shl_align m e (Z.min e ey)))) +
                 cond_Zopp sy (Zpos (fst (shl_align my ey (Z.min e ey)))))
                (Z.min e ey) false) as Hnum.
  unfold f64_add, SFadd. by destruct (binary_normalize _ _ _ _ _).
Qed.

Lemma inZoomRange_finite (x : float64) :
  inZoomRange x -> exists m e, x = S754_finite false m e.
Proof.
  intros [Hlow Hhigh]. destruct x as [s|[|]| |[|] m e]; try done. eauto.
Qed.

(** The clamp: whatever number it is given, it gives a number of the range. *)
Lemma clamp_in_range (x : float64) :
  isNaN x = false -> inZoomRange (Math_min (Math_max f64_tenth x) (f64_of_Z 4)).
Proof.
  intros Hx.
  assert (Hmax : isNaN (Math_max f64_tenth x) = false /\
                 f64_leb f64_tenth (Math_max f64_tenth x) = true).
  { unfold Math_max, f64_leb, SFleb.
    change f64_tenth with (S754_finite false 7205759403792794 (-56)).
    destruct (SFcompare (S754_finite false 7205759403792794 (-56)) x)
      as [[| |]|] eqn:E.
    - done.
    - split; [by destruct x |]. by rewrite E.
    - done.
    - by destruct x. }
  destruct Hmax as [Hnum Hlow]. revert Hnum Hlow.
  generalize (Math_max f64_tenth x). intros y Hy Hlow.
  unfold inZoomRange, Math_min, f64_leb, SFleb in *.
  change (f64_of_Z 4) with (S754_finite false 4503599627370496 (-50)).
  change f64_tenth with (S754_finite false 7205759403792794 (-56)) in *.
  destruct (SFcompare y (S754_finite false 4503599627370496 (-50)))
    as [[| |]|] eqn:E.
  - destruct y as [s|s| |s m e]; (split; [exact Hlow | by rewrite E]).
  - split; [exact Hlow | by rewrite E].
  - done.
  - by destruct y.
Qed.

(** C9, as the source has it.  From a scale in [[0.1, 4.0]] a zoom step with
    any delta that is a number gives a scale in [[0.1, 4.0]] and leaves
    [translate] as it was.  From scale 1, five steps of -0.1 give
    0.5000000000000001 (the number next above one half), no step on the way
    giving less than one half, and forty steps of +0.1 give exactly 4. *)
Theorem zoom_clamped (delta : float64) (v : ZoomState) :
  inZoomRange (zoom_scale v) -> isNaN delta = false ->
  (inZoomRange (zoom_scale (handleZoom delta v)) /\
   zoom_translate (handleZoom delta v) = zoom_translate v) /\
  (zoom_scale (Nat.iter 5 (handleZoom (f64_neg f64_tenth)) initialZoom) =
     S754_finite false 4503599627370497 (-53) /\
   (forall k : nat, (k <= 5)%nat ->
      f64_leb f64_half
              (zoom_scale (Nat.iter k (handleZoom (f64_neg f64_tenth)) initialZoom)) =
        true)) /\
  zoom_scale (Nat.iter 40 (handleZoom f64_tenth) initialZoom) = f64_of_Z 4.
Proof.
  intros Hrange Hdelta. split; [split; [| reflexivity] |].
  - destruct (inZoomRange_finite _ Hrange) as (m & e & Hscale).
    unfold handleZoom. cbn [zoom_scale]. apply clamp_in_range.
    rewrite Hscale. by apply f64_add_number.
  - split; [split |].
    + vm_compute. reflexivity.
    + intros k Hk.
      assert (Hcases : k = 0%nat \/ k = 1%nat \/ k = 2%nat \/ k = 3%nat \/
                       k = 4%nat \/ k = 5%nat) by lia.
      destruct Hcases as [->|[->|[->|[->|[->| ->]]]]]; vm_compute; reflexivity.
    + vm_compute. reflexivity.
Qed.

Lemma zoom_clamped_witness :
  inZoomRange (zoom_scale initialZoom) /\
  inZoomRange (zoom_scale (handleZoom (f64_of_Z 7) initialZoom)) /\
  zoom_translate (handleZoom (f64_of_Z 7) initialZoom) = zoom_translate initialZoom.
Proof.
  assert (Hin : inZoomRange (zoom_scale initialZoom)) by (split; vm_compute; reflexivity).
  split; [exact Hin |].
  exact (proj1 (zoom_clamped (f64_of_Z 7) initialZoom Hin eq_refl)).
Defined.

(** C9 as stated fails: the five steps of -0.1 from scale 1 do not end at one
    half but at the binary64 number next above it, and a delta that is no
    number leaves a scale that is no number. *)
Lemma five_zoom_outs_miss_half :
  (zoom_scale (Nat.iter 5 (handleZoom (f64_neg f64_tenth)) initialZoom) <> f64_half /\
   f64_eqb (zoom_scale (Nat.iter 5 (handleZoom (f64_neg f64_tenth)) initialZoom))
           f64_half = false /\
   f64_ltb f64_half
           (zoom_scale (Nat.iter 5 (handleZoom (f64_neg f64_tenth)) initialZoom)) = true) /\
  (inZoomRange (zoom_scale initialZoom) /\
   zoom_scale (handleZoom S754_nan initialZoom) = S754_nan /\
   ~ inZoomRange (zoom_scale (handleZoom S754_nan initialZoom))).
Proof.
  split; [split; [| split] | split; [| split]].
  - vm_compute. discriminate.
  - vm_compute. reflexivity.
  - vm_compute. reflexivity.
  - split; vm_compute; reflexivity.
  - vm_compute. reflexivity.
  - intros [H _]. vm_compute in H. discriminate.
Qed.

(** ** Topology normaliser *)

Lemma initial_children_lookup components (m : gmap string (list string)) id :
  fold_left (fun m c => <[c_id c := []]> m) components m !! id =
    match findComponent components id with
    | Some _ => Some []
    | None => m !! id
    end.
Proof.
  revert m. unfold findComponent.
  induction components as [|c cs IH]; intros m; simpl; [done |].
  rewrite IH. destruct (String.eqb_spec (c_id c) id) as [->|Hne].
  - rewrite lookup_insert_eq. by destruct (find _ cs).
  - by rewrite lookup_insert_ne.
Qed.

Lemma emptyForest_keys components id :
  is_Some (childrenMap (emptyForest components) !! id) <->
  is_Some (findComponent components id).
Proof.
  unfold emptyForest. simpl. rewrite initial_children_lookup, lookup_empty.
  destruct (findComponent components id); split; intros [? ?]; eauto; discriminate.
Qed.

Lemma addConnection_keys components f conn id :
  is_Some (childrenMap (addConnection components f conn) !! id) <->
  is_Some (childrenMap f !! id).
Proof.
  unfold addConnection. destruct (orient components conn) as [parent child].
  destruct (childrenMap f !! parent) as [siblings|] eqn:E; [| done].
  simpl. destruct (decide (parent = id)) as [<-|Hne].
  - rewrite lookup_insert_eq, E. split; eauto.
  - by rewrite lookup_insert_ne.
Qed.

Lemma fold_addConnection_keys components connections f id :
  is_Some (childrenMap (fold_left (addConnection components) connections f) !! id) <->
  is_Some (childrenMap f !! id).
Proof.
  revert f. induction connections as [|conn rest IH]; intros f; simpl; [done |].
  rewrite IH. apply addConnection_keys.
Qed.

(** The keys of [childrenMap] are the ids of the components, whatever the
    connections. *)
Lemma buildForest_keys components connections id :
  is_Some (childrenMap (buildForest components connections) !! id) <->
  is_Some (findComponent components id).
Proof.
  unfold buildForest. rewrite fold_addConnection_keys. apply emptyForest_keys.
Qed.

Lemma buildForest_snoc components connections conn :
  buildForest components (connections ++ [conn]) =
  addConnection components (buildForest components connections) conn.
Proof. unfold buildForest. by rewrite fold_left_app. Qed.

(** C4, as the source has it (last writer wins).  The parent map holds at most
    one parent per id.  A connection read as [(parent, child)] whose parent is
    a component is never ignored, also when the child already has a parent:
    the child is appended to that parent's children list, every other list
    (the earlier parent's too) stays as it was, and the recorded parent of the
    child is overwritten with the later one. *)
Theorem parent_last_writer_wins (components : list SolarComponent)
    (connections : list Connection) (conn : Connection)
    (parent child : string) (siblings : list string) :
  orient components conn = (parent, child) ->
  childrenMap (buildForest components connections) !! parent = Some siblings ->
  let before := buildForest components connections in
  let after := buildForest components (connections ++ [conn]) in
  (forall c p1 p2, parentMap after !! c = Some p1 ->
                   parentMap after !! c = Some p2 -> p1 = p2) /\
  parentMap after !! child = Some parent /\
  childrenMap after !! parent = Some (siblings ++ [child]) /\
  (forall q, q <> parent -> childrenMap after !! q = childrenMap before !! q) /\
  (forall c, c <> child -> parentMap after !! c = parentMap before !! c).
Proof.
  intros Horient Hparent before after. subst before after.
  rewrite buildForest_snoc.
  set (before := buildForest components connections) in *.
  assert (Hstep : addConnection components before conn =
            {| childrenMap := <[parent := siblings ++ [child]]> (childrenMap before);
               parentMap := <[child := parent]> (parentMap before) |})
    by (unfold addConnection; by rewrite Horient, Hparent).
  rewrite Hstep. simpl. repeat split.
  - congruence.
  - apply lookup_insert_eq.
  - apply lookup_insert_eq.
  - intros q Hq. by apply lookup_insert_ne.
  - intros c Hc. by apply lookup_insert_ne.
Qed.

Lemma parent_last_writer_wins_witness :
  parentMap (buildForest sharedArrayPlant [wire "pv" "inv1"]) !! "pv" = Some "inv1" /\
  parentMap (buildForest sharedArrayPlant sharedArrayWires) !! "pv" = Some "inv2" /\
  childrenMap (buildForest sharedArrayPlant sharedArrayWires) !! "inv2" = Some ["pv"].
Proof.
  split; [vm_compute; reflexivity |].
  destruct (parent_last_writer_wins sharedArrayPlant [wire "pv" "inv1"]
              (wire "pv" "inv2") "inv2" "pv" [])
    as (_ & Hparent & Hchildren & _); [vm_compute; reflexivity .. |].
  split; [exact Hparent | exact Hchildren].
Defined.

(** C4 as stated fails: the second wire of [sharedArrayWires] reaches a child
    that already has a parent, yet the child enters the second parent's list
    (and stays in the first one's) and its recorded parent is replaced. *)
Lemma first_writer_does_not_win :
  let first := buildForest sharedArrayPlant [wire "pv" "inv1"] in
  let both := buildForest sharedArrayPlant sharedArrayWires in
  parentMap first !! "pv" = Some "inv1" /\
  orient sharedArrayPlant (wire "pv" "inv2") = ("inv2", "pv") /\
  childrenMap both !! "inv2" = Some ["pv"] /\
  childrenMap both !! "inv1" = Some ["pv"] /\
  parentMap both !! "pv" = Some "inv2" /\
  parentMap both !! "pv" <> parentMap first !! "pv".
Proof. vm_compute. repeat split; discriminate. Qed.

Lemma addConnection_links components f conn parent child :
  orient components conn = (parent, child) ->
  is_Some (childrenMap f !! parent) ->
  parentMap (addConnection components f conn) !! child = Some parent /\
  exists siblings,
    childrenMap (addConnection components f conn) !! parent = Some siblings /\
    In child siblings.
Proof.
  intros Horient [siblings Hs]. unfold addConnection. rewrite Horient, Hs. simpl.
  split; [apply lookup_insert_eq |].
  exists (siblings ++ [child]). split; [apply lookup_insert_eq |].
  apply in_or_app. right. by left.
Qed.

(** How a connection is read.  For a connection whose two endpoints are both
    components, the [to] endpoint is the parent and the [from] endpoint the
    child, unless [from] has the strictly higher rank and is not a LOAD: then
    the roles are swapped.  So with a [from] endpoint that is not a LOAD the
    endpoint of strictly higher rank is the parent (on equal ranks: [to]);
    a LOAD [from] endpoint is always the child; a LOAD [to] endpoint gets no
    special treatment.  The pair so chosen is what the forest records. *)
Lemma orient_by_rank (components : list SolarComponent) (conn : Connection)
    (fromNode toNode : SolarComponent) :
  findComponent components (conn_from conn) = Some fromNode ->
  findComponent components (conn_to conn) = Some toNode ->
  (c_type fromNode <> LOAD ->
   LEVEL_MAP (c_type toNode) < LEVEL_MAP (c_type fromNode) ->
   orient components conn = (conn_from conn, conn_to conn)) /\
  (LEVEL_MAP (c_type fromNode) <= LEVEL_MAP (c_type toNode) ->
   orient components conn = (conn_to conn, conn_from conn)) /\
  (c_type fromNode = LOAD ->
   orient components conn = (conn_to conn, conn_from conn)) /\
  (forall connections parent child,
     orient components conn = (parent, child) ->
     let after := buildForest components (connections ++ [conn]) in
     parentMap after !! child = Some parent /\
     exists siblings, childrenMap after !! parent = Some siblings /\ In child siblings).
Proof.
  intros Hfrom Hto.
  assert (Hcases : orient components conn = (conn_from conn, conn_to conn) \/
                   orient components conn = (conn_to conn, conn_from conn))
    by (unfold orient; destruct (_ && _); auto).
  split; [| split; [| split]].
  - intros Hload Hlt. unfold orient, levelOfId, isLoad. rewrite Hfrom, Hto.
    apply Qltb_lt in Hlt. rewrite Hlt. by rewrite bool_decide_eq_false_2.
  - intros Hle. unfold orient, levelOfId, isLoad. rewrite Hfrom, Hto.
    apply Qltb_ge in Hle. by rewrite Hle.
  - intros Hload. unfold orient, levelOfId, isLoad. rewrite Hfrom, Hto.
    rewrite bool_decide_eq_true_2 by done. by rewrite andb_false_r.
  - intros connections parent child Horient after. subst after.
    rewrite buildForest_snoc. apply addConnection_links; [done |].
    apply buildForest_keys.
    destruct Hcases as [H|H]; rewrite H in Horient; injection Horient as <- <-; eauto.
Qed.

(** C5.  The guard [!isLoad(child)] of line 73 keeps a LOAD the child only
    when the LOAD is the [from] end of the wire.  The wire between the
    inverter and the load of [loadPlant], recorded from the load to the
    inverter, is read with the load as the child; the same wire recorded from
    the inverter to the load is read with the load as the parent: the load
    has no parent, is the only root, and the inverter is its child. *)
Theorem load_becomes_parent :
  (isLoad loadPlant "load" = true /\
   orient loadPlant (wire "load" "inv") = ("inv", "load") /\
   parentMap (buildForest loadPlant [wire "load" "inv"]) !! "load" = Some "inv" /\
   childrenMap (buildForest loadPlant [wire "load" "inv"]) !! "load" = Some []) /\
  (isLoad loadPlant (conn_to loadWire) = true /\
   orient loadPlant loadWire = ("load", "inv") /\
   parentMap (buildForest loadPlant [loadWire]) !! "inv" = Some "load" /\
   childrenMap (buildForest loadPlant [loadWire]) !! "load" = Some ["inv"] /\
   parentMap (buildForest loadPlant [loadWire]) !! "load" = None /\
   map c_id (rootsOf loadPlant (buildForest loadPlant [loadWire])) = ["load"]).
Proof. vm_compute. repeat split. Qed.

(** ** Subtree metrics *)

Lemma calcHeight_unfold components children_of fuel nodeId subtreeHeights :
  calcHeight components children_of (S fuel) nodeId subtreeHeights =
    match subtreeHeights !! nodeId with
    | Some h => Returns (h, subtreeHeights)
    | None =>
        let myHeight :=
          match findComponent components nodeId with
          | Some node => getNodeHeight node
          | None => BASE_NODE_HEIGHT
          end in
        match default [] (children_of !! nodeId) with
        | [] => Returns (myHeight, <[nodeId := myHeight]> subtreeHeights)
        | child :: rest =>
            '(childrenTotalHeight, subtreeHeights') ←
              sumHeights (calcHeight components children_of fuel)
                         (child :: rest) 0 subtreeHeights;
            let val := Qmax myHeight childrenTotalHeight in
            Returns (val, <[nodeId := val]> subtreeHeights')
        end
    end.
Proof.
  simpl. destruct (subtreeHeights !! nodeId); [done |].
  by destruct (default [] (children_of !! nodeId)).
Qed.

(** In the forest of [loopWires] the inverters are each other's child, and the
    grid reaches them. *)
Lemma loop_children :
  let children_of := childrenMap (buildForest loopPlant loopWires) in
  children_of !! "grid" = Some ["a"] /\
  children_of !! "a" = Some ["b"] /\
  children_of !! "b" = Some ["a"] /\
  rootsOf loopPlant (buildForest loopPlant loopWires) = [comp "grid" GRID [] None None].
Proof. vm_compute. repeat split. Qed.

Lemma loop_never_measured (fuel : nat) (subtreeHeights : gmap string Q) :
  subtreeHeights !! "a" = None -> subtreeHeights !! "b" = None ->
  let children_of := childrenMap (buildForest loopPlant loopWires) in
  calcHeight loopPlant children_of fuel "a" subtreeHeights = OutOfFuel /\
  calcHeight loopPlant children_of fuel "b" subtreeHeights = OutOfFuel.
Proof.
  intros Ha Hb children_of.
  destruct loop_children as (_ & Hca & Hcb & _). fold children_of in Hca, Hcb.
  clearbody children_of.
  induction fuel as [|fuel [IHa IHb]]; [done |].
  rewrite !calcHeight_unfold, Ha, Hb, Hca, Hcb. simpl.
  by rewrite IHa, IHb.
Qed.

(** C6 fails on the source: [calcHeight] records a node in [subtreeHeights]
    only after its children have been measured, so nothing stops the descent
    on a cycle below a root.  On [loopPlant] with [loopWires] no recursion
    budget lets the measurement of the root, or the layout function, return. *)
Theorem loop_layout_never_returns (fuel : nat) :
  calcHeight loopPlant (childrenMap (buildForest loopPlant loopWires))
             fuel "grid" ∅ = OutOfFuel /\
  calculateSmartLayout fuel loopPlant loopWires = OutOfFuel.
Proof.
  destruct loop_children as (Hgrid & _ & _ & Hroots).
  set (children_of := childrenMap (buildForest loopPlant loopWires)) in *.
  assert (Hcalc : calcHeight loopPlant children_of fuel "grid" ∅ = OutOfFuel).
  { destruct fuel as [|fuel]; [done |].
    rewrite calcHeight_unfold, lookup_empty, Hgrid. simpl.
    by rewrite (proj1 (loop_never_measured fuel ∅ (lookup_empty _) (lookup_empty _))). }
  split; [exact Hcalc |].
  unfold calculateSmartLayout.
  change (allHavePos loopPlant) with false. cbv iota.
  unfold computePositions. rewrite Hroots. unfold calcRootHeights.
  fold children_of. simpl. by rewrite Hcalc.
Qed.

(** ** Position assignor *)

Lemma assignPosition_unfold components subtreeHeights fuel nodeId centerY pl :
  assignPosition components subtreeHeights (S fuel) nodeId centerY pl =
    match findComponent components nodeId with
    | None => Returns pl
    | Some node =>
        let pl1 :=
          {| pl_children := pl_children pl;
             positions :=
               <[nodeId := mkPosition (default (getLevelX (c_type node)) (c_x node))
                                      (default centerY (c_y node))]> (positions pl) |} in
        match pl_children pl !! nodeId with
        | None | Some [] => Returns pl1
        | Some (child :: rest) =>
            h ← getAsserted subtreeHeights nodeId;
            placeChildren (assignPosition components subtreeHeights fuel)
              subtreeHeights (sortIds (child :: rest)) (centerY - (h / 2))
              {| pl_children := <[nodeId := sortIds (child :: rest)]> (pl_children pl);
                 positions := positions pl1 |}
        end
    end.
Proof.
  cbn [assignPosition].
  destruct (findComponent components nodeId) as [node|]; [| done].
  cbn [pl_children positions].
  by destruct (pl_children pl !! nodeId) as [[|child rest]|].
Qed.

Lemma lookup_map {A B : Type} (f : A -> B) (l : list A) (i : nat) :
  map f l !! i = f <$> (l !! i).
Proof.
  revert i. induction l as [|a l IH]; intros [|i]; simpl; try done.
Qed.

(** Invariants of the placement: a property kept by the two writes of
    [assignPosition] (recording a position, sorting a children array in place)
    is kept by the whole traversal. *)
Section PlacementInvariant.
Variable components : list SolarComponent.
Variable subtreeHeights : gmap string Q.
Variable P : Placement -> Prop.

Hypothesis P_record : forall pl nodeId node centerY,
  P pl -> findComponent components nodeId = Some node ->
  P {| pl_children := pl_children pl;
       positions :=
         <[nodeId := mkPosition (default (getLevelX (c_type node)) (c_x node))
                                (default centerY (c_y node))]> (positions pl) |}.

Hypothesis P_sort : forall pl nodeId children,
  P pl -> pl_children pl !! nodeId = Some children ->
  P {| pl_children := <[nodeId := sortIds children]> (pl_children pl);
       positions := positions pl |}.

Lemma placeChildren_preserves assign children startY pl pl' :
  (forall id cy pl0 pl1, assign id cy pl0 = Returns pl1 -> P pl0 -> P pl1) ->
  placeChildren assign subtreeHeights children startY pl = Returns pl' ->
  P pl -> P pl'.
Proof.
  intros Hassign. revert startY pl.
  induction children as [|childId rest IH]; intros startY pl; simpl.
  - by intros [= <-].
  - unfold getAsserted. destruct (subtreeHeights !! childId) as [h|]; simpl; [| done].
    destruct (assign childId _ pl) as [pl1| |] eqn:E; simpl; try done.
    intros Hrest HP. eapply IH; [exact Hrest |]. eapply Hassign; eauto.
Qed.

Lemma assignPosition_preserves fuel nodeId centerY pl pl' :
  assignPosition components subtreeHeights fuel nodeId centerY pl = Returns pl' ->
  P pl -> P pl'.
Proof.
  revert nodeId centerY pl pl'.
  induction fuel as [|fuel IH]; intros nodeId centerY pl pl'; [done |].
  rewrite assignPosition_unfold.
  destruct (findComponent components nodeId) as [node|] eqn:Hnode;
    [| by intros [= <-]].
  destruct (pl_children pl !! nodeId) as [[|child rest]|] eqn:Hch; simpl.
  - intros [= <-] HP. by apply P_record.
  - unfold getAsserted. destruct (subtreeHeights !! nodeId) as [h|]; simpl; [| done].
    intros Hplace HP. eapply placeChildren_preserves; [apply IH | exact Hplace |].
    apply (P_sort {| pl_children := pl_children pl; positions := _ |}
                  nodeId (child :: rest)); [by apply P_record | done].
  - intros [= <-] HP. by apply P_record.
Qed.

Lemma placeRoots_preserves fuel roots pl cursor pl' cursor' :
  forEachM (placeRoot components subtreeHeights fuel) roots (pl, cursor) =
    Returns (pl', cursor') ->
  P pl -> P pl'.
Proof.
  revert pl cursor. induction roots as [|root rest IH]; intros pl cursor; simpl.
  - by intros [= <- <-].
  - unfold getAsserted. destruct (subtreeHeights !! c_id root) as [h|]; simpl; [| done].
    destruct (assignPosition _ _ _ _ _ pl) as [pl1| |] eqn:E; simpl; try done.
    intros Hrest HP. eapply IH; [exact Hrest |].
    eapply assignPosition_preserves; eauto.
Qed.
End PlacementInvariant.

Lemma placeRoots_sound components subtreeHeights fuel roots pl cursor pl' cursor' :
  forEachM (placeRoot components subtreeHeights fuel) roots (pl, cursor) =
    Returns (pl', cursor') ->
  positionsSound components pl -> positionsSound components pl'.
Proof.
  apply (placeRoots_preserves components subtreeHeights (positionsSound components)).
  - intros pl0 nodeId node centerY Hsound Hnode id p. simpl.
    destruct (decide (nodeId = id)) as [<-|Hne].
    + rewrite lookup_insert_eq. intros [= <-]. exists node. simpl.
      repeat split; [done |]. by intros vy ->.
    + rewrite lookup_insert_ne by done. apply Hsound.
  - intros pl0 nodeId children Hsound _. exact Hsound.
Qed.

Lemma computePositions_sound fuel components connections pl cursor :
  computePositions fuel components connections = Returns (pl, cursor) ->
  positionsSound components pl.
Proof.
  unfold computePositions.
  destruct (calcRootHeights _ _ _ _) as [subtreeHeights| |]; simpl; try done.
  intros Hplace. eapply placeRoots_sound; [exact Hplace |].
  intros id p. simpl. by rewrite lookup_empty.
Qed.

(** Positions are only ever added. *)
Lemma placeRoots_keeps components subtreeHeights fuel roots pl cursor pl' cursor' id :
  forEachM (placeRoot components subtreeHeights fuel) roots (pl, cursor) =
    Returns (pl', cursor') ->
  is_Some (positions pl !! id) -> is_Some (positions pl' !! id).
Proof.
  apply (placeRoots_preserves components subtreeHeights
           (fun pl => is_Some (positions pl !! id))).
  - intros pl0 nodeId node centerY Hid _. simpl.
    destruct (decide (nodeId = id)) as [<-|Hne].
    + rewrite lookup_insert_eq. eauto.
    + by rewrite lookup_insert_ne.
  - intros pl0 nodeId children Hid _. exact Hid.
Qed.

Lemma assignPosition_records components subtreeHeights fuel nodeId centerY pl pl' :
  assignPosition components subtreeHeights fuel nodeId centerY pl = Returns pl' ->
  is_Some (findComponent components nodeId) ->
  is_Some (positions pl' !! nodeId).
Proof.
  destruct fuel as [|fuel]; [done |]. rewrite assignPosition_unfold.
  intros Hassign [node Hnode]. rewrite Hnode in Hassign.
  assert (Hrec : forall ch, is_Some (positions
            {| pl_children := ch;
               positions :=
                 <[nodeId := mkPosition (default (getLevelX (c_type node)) (c_x node))
                                        (default centerY (c_y node))]> (positions pl) |}
            !! nodeId))
    by (intros ch; simpl; rewrite lookup_insert_eq; eauto).
  destruct (pl_children pl !! nodeId) as [[|child rest]|]; simpl in Hassign.
  - injection Hassign as <-. apply Hrec.
  - unfold getAsserted in Hassign.
    destruct (subtreeHeights !! nodeId) as [h|]; simpl in Hassign; [| done].
    revert Hassign. generalize (centerY - h / 2).
    intros startY Hassign.
    eapply (placeChildren_preserves subtreeHeights
              (fun pl => is_Some (positions pl !! nodeId)));
      [| exact Hassign | apply Hrec].
    apply (assignPosition_preserves components subtreeHeights
             (fun pl => is_Some (positions pl !! nodeId))).
    + intros pl0 id0 node0 cy0 Hid _. simpl.
      destruct (decide (id0 = nodeId)) as [<-|Hne].
      * rewrite lookup_insert_eq. eauto.
      * by rewrite lookup_insert_ne.
    + intros pl0 id0 children Hid _. exact Hid.
  - injection Hassign as <-. apply Hrec.
Qed.

(** Every root is reached by the assignment. *)
Lemma placeRoots_reaches components subtreeHeights fuel roots pl cursor pl' cursor' root :
  forEachM (placeRoot components subtreeHeights fuel) roots (pl, cursor) =
    Returns (pl', cursor') ->
  In root roots -> is_Some (findComponent components (c_id root)) ->
  is_Some (positions pl' !! c_id root).
Proof.
  revert pl cursor. induction roots as [|r rest IH]; intros pl cursor; simpl; [done |].
  unfold getAsserted. destruct (subtreeHeights !! c_id r) as [h|]; simpl; [| done].
  destruct (assignPosition _ _ _ _ _ pl) as [pl1| |] eqn:E; simpl; try done.
  intros Hrest [->|Hin] Hfound.
  - eapply placeRoots_keeps; [exact Hrest |].
    eapply assignPosition_records; eauto.
  - eapply IH; eauto.
Qed.

Lemma sortRoots_In l c : In c (sortRoots l) <-> In c l.
Proof.
  assert (Hins : forall a l0, In c (insertRoot a l0) <-> a = c \/ In c l0).
  { intros a l0. induction l0 as [|b rest IH]; simpl; [tauto |].
    destruct (Qltb _ _); simpl; rewrite ?IH; tauto. }
  induction l as [|a rest IH]; simpl; [tauto |]. rewrite Hins, IH. tauto.
Qed.

Lemma roots_are_placed fuel components connections pl cursor root :
  computePositions fuel components connections = Returns (pl, cursor) ->
  In root components ->
  parentMap (buildForest components connections) !! c_id root = None ->
  is_Some (positions pl !! c_id root).
Proof.
  unfold computePositions.
  destruct (calcRootHeights _ _ _ _) as [subtreeHeights| |]; simpl; try done.
  intros Hplace Hin Hroot. eapply placeRoots_reaches; [exact Hplace | |].
  - unfold rootsOf. apply sortRoots_In, filter_In. split; [done |].
    unfold has. by rewrite Hroot.
  - apply findComponent_is_Some. by apply in_map.
Qed.

Lemma layout_recompute fuel components connections pl cursor :
  allHavePos components = false ->
  computePositions fuel components connections = Returns (pl, cursor) ->
  calculateSmartLayout fuel components connections =
    Returns {| layoutedComponents := map (snapComponent (positions pl)) components;
               totalHeight := Qmax MIN_CANVAS_HEIGHT (cursor + 100) |}.
Proof.
  intros Hall Hpos. unfold calculateSmartLayout. by rewrite Hall, Hpos.
Qed.




(** C3 as stated fails twice over.  The pinned inverter of [halfPinnedPlant],
    a root, is moved from (105, 33) to the grid point (100, 40); the pinned
    inverter of [islandPlant], which sits on a grid point but is not reached
    by the assignment, is moved from (120, 40) to the fallback (0, 0). *)
Lemma pinned_position_moved :
  (allHavePos halfPinnedPlant = false /\
   halfPinnedPlant !! 0%nat = Some (comp "a" INVERTER [] (Some 105) (Some 33)) /\
   calculateSmartLayout 2 halfPinnedPlant [] =
     Returns {| layoutedComponents :=
                  [comp "a" INVERTER [] (Some 100) (Some 40);
                   comp "b" GRID [] (Some 1000) (Some 160)];
                totalHeight := 1000 |} /\
   ~ 100 == 105 /\ ~ 40 == 33) /\
  (allHavePos islandPlant = false /\
   islandPlant !! 0%nat = Some (comp "a" INVERTER [] (Some 120) (Some 40)) /\
   calculateSmartLayout 2 islandPlant islandWires =
     Returns {| layoutedComponents :=
                  [comp "a" INVERTER [] (Some 0) (Some 0);
                   comp "b" INVERTER [] (Some 0) (Some 0)];
                totalHeight := 1000 |} /\
   ~ 0 == 120 /\ ~ 0 == 40).
Proof. vm_compute. repeat split; discriminate. Qed.

(** ** When the recursion returns *)

Lemma progress_ret (enough : Prop) {A : Type} (a : A) : progress enough (Returns a).
Proof. split; [done | eauto]. Qed.

Lemma progress_bind (enough : Prop) {A B : Type} (m : outcome A) (k : A -> outcome B) :
  progress enough m ->
  (forall a, m = Returns a -> progress enough (k a)) ->
  progress enough (m ≫= k).
Proof.
  intros [Hdef Hret] Hk. destruct m as [a| |]; simpl; [by apply Hk | | done].
  split; [done |]. intros He. by destruct (Hret He).
Qed.

Lemma progress_weaken (enough enough' : Prop) {A : Type} (o : outcome A) :
  (enough' -> enough) -> progress enough o -> progress enough' o.
Proof. intros Himp [Hdef Hret]. split; [done | auto]. Qed.

Lemma sortIds_In (l : list string) (c : string) : In c (sortIds l) <-> In c l.
Proof.
  assert (Hins : forall a l0, In c (insertId a l0) <-> a = c \/ In c l0).
  { intros a l0. induction l0 as [|b rest IH]; simpl; [tauto |].
    destruct (String.leb a b); simpl; rewrite ?IH; tauto. }
  induction l as [|a rest IH]; simpl; [tauto |]. rewrite Hins, IH. tauto.
Qed.

Section Recursion.
Variable components : list SolarComponent.
Variable children_of : gmap string (list string).
Variable rank : string -> nat.
Variable S : string -> Prop.

Lemma sumHeights_closed calc children sum m total m' :
  (forall c m0 h m1, In c children -> calc c m0 = Returns (h, m1) -> closed children_of m0 ->
     closed children_of m1 /\ is_Some (m1 !! c) /\ grows m0 m1) ->
  sumHeights calc children sum m = Returns (total, m') ->
  closed children_of m ->
  closed children_of m' /\ (forall c, In c children -> is_Some (m' !! c)) /\ grows m m'.
Proof.
  revert sum m. induction children as [|c rest IH]; intros sum m Hcalc; simpl.
  - intros [= <- <-] Hcl. repeat split; [done | done | by intros k].
  - destruct (calc c m) as [[h m1]| |] eqn:E; simpl; try done.
    intros Hrest Hcl.
    destruct (Hcalc c m h m1 (or_introl eq_refl) E Hcl) as (Hcl1 & Hc & Hg1).
    destruct (IH (sum + h) m1) as (Hcl' & Hall & Hg'); [| done | done |].
    { intros c0 m0 h0 m2 Hin. apply Hcalc. by right. }
    repeat split; [done | | intros k Hk; by apply Hg', Hg1].
    intros c0 [<-|Hin]; [by apply Hg' | by apply Hall].
Qed.

Lemma calcHeight_closed fuel nodeId m h m' :
  calcHeight components children_of fuel nodeId m = Returns (h, m') ->
  closed children_of m ->
  closed children_of m' /\ is_Some (m' !! nodeId) /\ grows m m'.
Proof.
  revert nodeId m h m'. induction fuel as [|fuel IH]; intros nodeId m h m'; [done |].
  rewrite calcHeight_unfold.
  destruct (m !! nodeId) as [h0|] eqn:Hmemo.
  { intros [= <- <-] Hcl. rewrite Hmemo. repeat split; [done | eauto | by intros k]. }
  destruct (children_of !! nodeId) as [[|child rest]|] eqn:Hch;
    cbn [from_option id].
  - intros [= <- <-] Hcl. repeat split.
    + intros n l c Hn Hl Hc. destruct (decide (nodeId = n)) as [<-|Hne].
      * rewrite Hch in Hl. injection Hl as <-. destruct Hc.
      * rewrite lookup_insert_ne in Hn by done.
        destruct (decide (nodeId = c)) as [<-|Hne'];
          [rewrite lookup_insert_eq; eauto |].
        rewrite lookup_insert_ne by done. eapply Hcl; eauto.
    + rewrite lookup_insert_eq. eauto.
    + intros k Hk. destruct (decide (nodeId = k)) as [<-|Hne];
        [rewrite lookup_insert_eq; eauto | by rewrite lookup_insert_ne].
  - destruct (sumHeights (calcHeight components children_of fuel)
                         (child :: rest) 0 m) as [[total m1]| |] eqn:E;
      cbn [mbind outcome_bind]; try done.
    cbv zeta. intros [= <- <-] Hcl.
    destruct (sumHeights_closed (calcHeight components children_of fuel)
                _ _ _ _ _ (fun c m0 h m1 _ => IH c m0 h m1) E Hcl)
      as (Hcl1 & Hall & Hg).
    assert (Hkeep : forall (v : Q) k, is_Some (m1 !! k) ->
              is_Some (<[nodeId := v]> m1 !! k)).
    { intros v k Hk. destruct (decide (nodeId = k)) as [<-|Hne];
        [rewrite lookup_insert_eq; eauto | by rewrite lookup_insert_ne]. }
    repeat split.
    + intros n l c Hn Hl Hc. apply Hkeep.
      destruct (decide (nodeId = n)) as [<-|Hne].
      * rewrite Hch in Hl. injection Hl as <-. by apply Hall.
      * rewrite lookup_insert_ne in Hn by done. eapply Hcl1; eauto.
    + rewrite lookup_insert_eq. eauto.
    + intros k Hk. by apply Hkeep, Hg.
  - intros [= <- <-] Hcl. repeat split.
    + intros n l c Hn Hl Hc. destruct (decide (nodeId = n)) as [<-|Hne].
      * by rewrite Hch in Hl.
      * rewrite lookup_insert_ne in Hn by done.
        destruct (decide (nodeId = c)) as [<-|Hne'];
          [rewrite lookup_insert_eq; eauto |].
        rewrite lookup_insert_ne by done. eapply Hcl; eauto.
    + rewrite lookup_insert_eq. eauto.
    + intros k Hk. destruct (decide (nodeId = k)) as [<-|Hne];
        [rewrite lookup_insert_eq; eauto | by rewrite lookup_insert_ne].
Qed.

Lemma calcRootHeights_closed fuel roots m m' :
  forEachM (fun subtreeHeights r =>
              '(_, subtreeHeights') ←
                calcHeight components children_of fuel (c_id r) subtreeHeights;
              Returns subtreeHeights') roots m = Returns m' ->
  closed children_of m ->
  closed children_of m' /\ grows m m' /\ (forall r, In r roots -> is_Some (m' !! c_id r)).
Proof.
  revert m. induction roots as [|root rest IH]; intros m; simpl.
  - intros [= <-] Hcl. repeat split; [done | by intros k | done].
  - destruct (calcHeight components children_of fuel (c_id root) m)
      as [[h m1]| |] eqn:E; simpl; try done.
    intros Hrest Hcl.
    destruct (calcHeight_closed _ _ _ _ _ E Hcl) as (Hcl1 & Hroot & Hg1).
    destruct (IH m1 Hrest Hcl1) as (Hcl' & Hg' & Hall).
    repeat split; [done | intros k Hk; by apply Hg', Hg1 |].
    intros r [<-|Hin]; [by apply Hg' | by apply Hall].
Qed.

(** *** Progress of the measurement *)

Lemma sumHeights_progress enough calc children sum m :
  (forall c m0, In c children -> progress enough (calc c m0)) ->
  progress enough (sumHeights calc children sum m).
Proof.
  revert sum m. induction children as [|c rest IH]; intros sum m Hcalc; simpl.
  - apply progress_ret.
  - apply progress_bind; [apply Hcalc; by left |].
    intros [h m1] _. apply IH. intros c0 m0 Hin. apply Hcalc. by right.
Qed.

Lemma calcHeight_progress fuel nodeId m :
  progress (rankedOn S children_of rank /\ S nodeId /\ (rank nodeId < fuel)%nat)
           (calcHeight components children_of fuel nodeId m).
Proof.
  revert nodeId m. induction fuel as [|fuel IH]; intros nodeId m.
  { split; [done |]. intros (_ & _ & Hlt). lia. }
  rewrite calcHeight_unfold.
  destruct (m !! nodeId) as [h0|]; [apply progress_ret |].
  destruct (children_of !! nodeId) as [[|child rest]|] eqn:Hch;
    cbn [from_option id]; try apply progress_ret.
  apply progress_bind.
  - apply sumHeights_progress. intros c m0 Hin.
    eapply progress_weaken; [| apply IH].
    intros (Hranked & Hnode & Hlt). split; [done |].
    destruct (Hranked nodeId _ c Hnode Hch Hin) as [Hc Hdrop]. split; [done | lia].
  - intros [total m1] _. apply progress_ret.
Qed.

Lemma calcRootHeights_progress fuel roots m :
  progress (rankedOn S children_of rank /\
            forall r, In r roots -> S (c_id r) /\ (rank (c_id r) < fuel)%nat)
    (forEachM (fun subtreeHeights r =>
                 '(_, subtreeHeights') ←
                   calcHeight components children_of fuel (c_id r) subtreeHeights;
                 Returns subtreeHeights') roots m).
Proof.
  revert m. induction roots as [|root rest IH]; intros m; simpl.
  - apply progress_ret.
  - apply progress_bind.
    + apply progress_bind.
      * eapply progress_weaken; [| apply calcHeight_progress].
        intros [Hranked Hlt]. split; [done |]. apply Hlt. by left.
      * intros [h m1] _. apply progress_ret.
    + intros m1 _. eapply progress_weaken; [| apply IH].
      intros [Hranked Hlt]. split; [done |]. intros r Hin. apply Hlt. by right.
Qed.

(** *** Progress of the assignment *)

Variable subtreeHeights : gmap string Q.
Hypothesis heights_closed : closed children_of subtreeHeights.

Lemma refines_record pl nodeId (p : Position) :
  refines children_of pl ->
  refines children_of {| pl_children := pl_children pl;
             positions := <[nodeId := p]> (positions pl) |}.
Proof. intros Href. exact Href. Qed.

Lemma refines_sort pl nodeId children :
  refines children_of pl -> pl_children pl !! nodeId = Some children ->
  refines children_of {| pl_children := <[nodeId := sortIds children]> (pl_children pl);
             positions := positions pl |}.
Proof.
  intros Href Hch n l. simpl. destruct (decide (nodeId = n)) as [<-|Hne].
  - rewrite lookup_insert_eq. intros [= <-].
    destruct (Href _ _ Hch) as (l0 & Hl0 & Hsub). exists l0. split; [done |].
    intros c Hc. by apply Hsub, sortIds_In.
  - rewrite lookup_insert_ne by done. apply Href.
Qed.

Lemma assignPosition_refines fuel nodeId centerY pl pl' :
  assignPosition components subtreeHeights fuel nodeId centerY pl = Returns pl' ->
  refines children_of pl -> refines children_of pl'.
Proof.
  apply (assignPosition_preserves components subtreeHeights (refines children_of)).
  - intros pl0 id0 node cy Href _. by apply refines_record.
  - intros pl0 id0 children. apply refines_sort.
Qed.

Lemma placeChildren_progress enough assign children startY pl :
  (forall c, In c children -> is_Some (subtreeHeights !! c)) ->
  (forall c cy pl0, In c children -> refines children_of pl0 -> progress enough (assign c cy pl0)) ->
  (forall c cy pl0 pl1, assign c cy pl0 = Returns pl1 -> refines children_of pl0 -> refines children_of pl1) ->
  refines children_of pl ->
  progress enough (placeChildren assign subtreeHeights children startY pl).
Proof.
  intros Hmeasured Hassign Hkeep. revert startY pl.
  induction children as [|c rest IH]; intros startY pl Href; simpl.
  - apply progress_ret.
  - unfold getAsserted. destruct (Hmeasured c (or_introl eq_refl)) as [h ->].
    cbn [mbind outcome_bind]. apply progress_bind.
    + apply Hassign; [by left | done].
    + intros pl1 Hpl1. apply IH; [| | by eapply Hkeep].
      * intros c0 Hin. apply Hmeasured. by right.
      * intros c0 cy pl0 Hin. apply Hassign. by right.
Qed.

Lemma assignPosition_progress fuel nodeId centerY pl :
  refines children_of pl -> is_Some (subtreeHeights !! nodeId) ->
  progress (rankedOn S children_of rank /\ S nodeId /\ (rank nodeId < fuel)%nat)
           (assignPosition components subtreeHeights fuel nodeId centerY pl).
Proof.
  revert nodeId centerY pl.
  induction fuel as [|fuel IH]; intros nodeId centerY pl Href [h Hh].
  { split; [done |]. intros (_ & _ & Hlt). lia. }
  rewrite assignPosition_unfold.
  destruct (findComponent components nodeId) as [node|]; [| apply progress_ret].
  cbv zeta.
  destruct (pl_children pl !! nodeId) as [[|child rest]|] eqn:Hch;
    try apply progress_ret.
  unfold getAsserted. rewrite Hh. cbn [mbind outcome_bind].
  destruct (Href _ _ Hch) as (l0 & Hl0 & Hsub).
  assert (Hbelow : forall c, In c (sortIds (child :: rest)) -> In c l0)
    by (intros c Hc; by apply Hsub, sortIds_In).
  apply placeChildren_progress.
  - intros c Hc. eapply heights_closed; eauto.
  - intros c cy pl0 Hc Href0.
    eapply progress_weaken; [| apply IH; [done | eapply heights_closed; eauto]].
    intros (Hranked & Hnode & Hlt). split; [done |].
    destruct (Hranked nodeId l0 c Hnode Hl0 (Hbelow c Hc)) as [HSc Hdrop].
    split; [done | lia].
  - intros c cy pl0 pl1. apply assignPosition_refines.
  - apply (refines_sort {| pl_children := pl_children pl; positions := _ |}
                        nodeId (child :: rest)); [| done].
    by apply refines_record.
Qed.

Lemma placeRoots_progress fuel roots pl cursor :
  refines children_of pl ->
  (forall r, In r roots -> is_Some (subtreeHeights !! c_id r)) ->
  progress (rankedOn S children_of rank /\
            forall r, In r roots -> S (c_id r) /\ (rank (c_id r) < fuel)%nat)
    (forEachM (placeRoot components subtreeHeights fuel) roots (pl, cursor)).
Proof.
  revert pl cursor.
  induction roots as [|root rest IH]; intros pl cursor Href Hmeasured; simpl.
  - apply progress_ret.
  - unfold getAsserted. destruct (Hmeasured root (or_introl eq_refl)) as [h Hh].
    rewrite Hh. cbn [mbind outcome_bind]. apply progress_bind.
    + apply progress_bind.
      * eapply progress_weaken; [| apply assignPosition_progress; eauto].
        intros [Hranked Hlt]. split; [done |]. apply Hlt. by left.
      * intros pl1 _. apply progress_ret.
    + intros [pl1 cursor1] Hstep.
      eapply progress_weaken; [| apply IH].
      * intros [Hranked Hlt]. split; [done |]. intros r Hin. apply Hlt. by right.
      * destruct (assignPosition _ _ _ _ _ pl) as [pl2| |] eqn:E;
          simpl in Hstep; try done.
        injection Hstep as <- <-. by eapply assignPosition_refines.
      * intros r Hin. apply Hmeasured. by right.
Qed.
End Recursion.

(** The two traversals make progress when the ranks drop on a set of ids that
    holds the roots and is closed under the children arrays. *)
Lemma computePositions_progress_on fuel components connections rank S :
  progress (rankedOn S (childrenMap (buildForest components connections)) rank /\
            forall r, In r (rootsOf components (buildForest components connections)) ->
                      S (c_id r) /\ (rank (c_id r) < fuel)%nat)
           (computePositions fuel components connections).
Proof.
  unfold computePositions.
  set (forest := buildForest components connections).
  apply progress_bind.
  - apply calcRootHeights_progress.
  - intros subtreeHeights Hheights.
    apply (calcRootHeights_closed components (childrenMap forest)) in Hheights
      as (Hclosed & _ & Hmeasured).
    2: { intros n l c [? Hn]. by rewrite lookup_empty in Hn. }
    apply (placeRoots_progress components (childrenMap forest) rank S
             subtreeHeights Hclosed).
    + intros n l Hl. exists l. split; [exact Hl | auto].
    + exact Hmeasured.
Qed.

Lemma computePositions_progress fuel components connections rank :
  progress (ranked (childrenMap (buildForest components connections)) rank /\
            forall c, In c components -> (rank (c_id c) < fuel)%nat)
           (computePositions fuel components connections).
Proof.
  eapply progress_weaken;
    [| apply (computePositions_progress_on fuel components connections rank
                (fun _ => True))].
  intros [Hranked Hlt]. split.
  - intros n l c _ Hl Hc. split; [done | by eapply Hranked].
  - intros r Hr. split; [done |]. apply Hlt.
    unfold rootsOf in Hr. by apply sortRoots_In, filter_In in Hr as [? _].
Qed.

Lemma layout_progress fuel components connections rank :
  progress (ranked (childrenMap (buildForest components connections)) rank /\
            forall c, In c components -> (rank (c_id c) < fuel)%nat)
           (calculateSmartLayout fuel components connections).
Proof.
  unfold calculateSmartLayout. destruct (allHavePos components); [apply progress_ret |].
  apply progress_bind; [apply computePositions_progress |].
  intros [pl cursor] _. apply progress_ret.
Qed.

(** No non-null assertion of the layout function ever meets a missing key:
    every node the assignment visits was measured before. *)
Lemma layout_never_undefined fuel components connections :
  calculateSmartLayout fuel components connections <> Undefined.
Proof. apply (layout_progress fuel components connections (fun _ => 0%nat)). Qed.

(** The layout function returns as soon as the children lists of the forest
    are free of cycles (children ranked strictly below their parent) and the
    budget exceeds the ranks. *)
Lemma layout_returns_when_ranked fuel components connections rank :
  ranked (childrenMap (buildForest components connections)) rank ->
  (forall c, In c components -> (rank (c_id c) < fuel)%nat) ->
  exists r, calculateSmartLayout fuel components connections = Returns r.
Proof.
  intros Hranked Hfuel. by apply (layout_progress fuel components connections rank).
Qed.

(** ** Dangling references *)

(** Every entry of a children list was put there by a connection. *)
Lemma buildForest_edges components connections parent siblings child :
  childrenMap (buildForest components connections) !! parent = Some siblings ->
  In child siblings ->
  exists conn, In conn connections /\ orient components conn = (parent, child).
Proof.
  revert siblings. induction connections as [|conn rest IH] using rev_ind;
    intros siblings Hl Hin.
  - unfold buildForest, emptyForest in Hl. simpl in Hl.
    rewrite initial_children_lookup, lookup_empty in Hl.
    destruct (findComponent components parent); [| done].
    injection Hl as <-. destruct Hin.
  - rewrite buildForest_snoc in Hl. unfold addConnection in Hl.
    destruct (orient components conn) as [p c] eqn:Horient.
    assert (Hold : forall l, childrenMap (buildForest components rest) !! parent = Some l ->
              In child l ->
              exists conn0, In conn0 (rest ++ [conn]) /\
                            orient components conn0 = (parent, child)).
    { intros l Hl' Hin'. destruct (IH l Hl' Hin') as (conn0 & Hc0 & Ho0).
      exists conn0. split; [apply in_or_app; by left | done]. }
    destruct (childrenMap (buildForest components rest) !! p) as [sib|] eqn:Hp;
      [| by eapply Hold]. simpl in Hl.
    destruct (decide (p = parent)) as [->|Hne].
    + rewrite lookup_insert_eq in Hl. injection Hl as <-.
      apply in_app_or in Hin as [Hin|[<-|[]]]; [by eapply Hold |].
      exists conn. split; [apply in_or_app; right; by left | done].
    + rewrite lookup_insert_ne in Hl by done. by eapply Hold.
Qed.

Lemma orient_endpoints components conn :
  orient components conn = (conn_to conn, conn_from conn) \/
  orient components conn = (conn_from conn, conn_to conn).
Proof. unfold orient. destruct (_ && _); auto. Qed.

Lemma forest_ranked components connections rank :
  (forall conn, In conn connections ->
     is_Some (findComponent components (conn_from conn)) ->
     is_Some (findComponent components (conn_to conn)) ->
     (rank (snd (orient components conn)) < rank (fst (orient components conn)))%nat) ->
  ranked (childrenMap (buildForest components connections)) (liftRank components rank).
Proof.
  intros Hreal parent siblings child Hl Hin.
  assert (Hparent : is_Some (findComponent components parent))
    by (apply (buildForest_keys components connections); eauto).
  destruct (buildForest_edges _ _ _ _ _ Hl Hin) as (conn & Hconn & Horient).
  unfold liftRank. destruct Hparent as [pn Hpn]. rewrite Hpn.
  destruct (findComponent components child) as [cn|] eqn:Hchild; [| lia].
  specialize (Hreal conn Hconn). rewrite Horient in Hreal. simpl in Hreal.
  apply ->Nat.succ_lt_mono.
  apply Hreal;
    destruct (orient_endpoints components conn) as [H|H]; rewrite H in Horient;
    injection Horient as <- <-; rewrite ?Hchild, ?Hpn; eauto.
Qed.

(** A connection read with a parent that is no component leaves the forest as
    it is. *)
Lemma buildForest_skips components before conn after :
  findComponent components (fst (orient components conn)) = None ->
  buildForest components (before ++ conn :: after) =
  buildForest components (before ++ after).
Proof.
  intros Hmissing. unfold buildForest. rewrite !fold_left_app. simpl. f_equal.
  fold (buildForest components before). unfold addConnection.
  destruct (orient components conn) as [parent child]. simpl in Hmissing.
  destruct (childrenMap (buildForest components before) !! parent) eqn:E; [| done].
  assert (Hsome : is_Some (findComponent components parent))
    by (apply (buildForest_keys components before); eauto).
  rewrite Hmissing in Hsome. by destruct Hsome.
Qed.

Lemma layout_skips fuel components before conn after :
  findComponent components (fst (orient components conn)) = None ->
  calculateSmartLayout fuel components (before ++ conn :: after) =
  calculateSmartLayout fuel components (before ++ after).
Proof.
  intros Hmissing. unfold calculateSmartLayout, computePositions.
  by rewrite (buildForest_skips components before conn after Hmissing).
Qed.

(** No edge is produced for a connection with an endpoint outside a list of
    components. *)
Lemma dangling_not_drawn components placed conn :
  map c_id placed = map c_id components ->
  findComponent components (conn_from conn) = None \/
  findComponent components (conn_to conn) = None ->
  connectionEndpoints placed conn = None.
Proof.
  intros Hids Hdangling. unfold connectionEndpoints.
  assert (Hsame : forall id, findComponent components id = None ->
                             findComponent placed id = None).
  { intros id. rewrite !findComponent_None. by rewrite Hids. }
  destruct Hdangling as [H|H]; rewrite (Hsame _ H); [done |].
  by destruct (findComponent placed (conn_from conn)).
Qed.

(** What does hold of dangling references.  Whenever the connections between
    existing components are free of cycles, the layout function returns,
    whatever connections with a missing endpoint the input holds besides; its
    result places every component of the input; no edge is produced for a
    connection with a missing endpoint; and a connection read with the
    missing id as its parent is skipped: the forest and the result are those
    obtained without that connection. *)
Lemma dangling_references_tolerated (fuel : nat)
    (components : list SolarComponent) (connections : list Connection)
    (rank : string -> nat) :
  (forall conn, In conn connections ->
     is_Some (findComponent components (conn_from conn)) ->
     is_Some (findComponent components (conn_to conn)) ->
     (rank (snd (orient components conn)) < rank (fst (orient components conn)))%nat) ->
  (forall c, In c components -> (S (rank (c_id c)) < fuel)%nat) ->
  exists r, calculateSmartLayout fuel components connections = Returns r /\
    map c_id (layoutedComponents r) = map c_id components /\
    Forall (fun c' => is_Some (c_x c') /\ is_Some (c_y c')) (layoutedComponents r) /\
    forall conn, In conn connections ->
      findComponent components (conn_from conn) = None \/
      findComponent components (conn_to conn) = None ->
      connectionEndpoints (layoutedComponents r) conn = None /\
      (findComponent components (fst (orient components conn)) = None ->
       forall before after, connections = before ++ conn :: after ->
         buildForest components (before ++ after) =
           buildForest components connections /\
         calculateSmartLayout fuel components (before ++ after) = Returns r).
Proof.
  intros Hreal Hfuel.
  destruct (layout_returns_when_ranked fuel components connections
              (liftRank components rank)) as [r Hr].
  { by apply forest_ranked. }
  { intros c Hc. unfold liftRank. specialize (Hfuel c Hc).
    destruct (findComponent components (c_id c)); lia. }
  assert (Hids : map c_id (layoutedComponents r) = map c_id components).
  { revert Hr. unfold calculateSmartLayout. destruct (allHavePos components).
    - by intros [= <-].
    - destruct (computePositions fuel components connections) as [[pl cursor]| |];
        simpl; try done.
      intros [= <-]. simpl. rewrite map_map. by apply map_ext. }
  exists r. split; [done |]. split; [done |]. split.
  - revert Hr. unfold calculateSmartLayout.
    destruct (allHavePos components) eqn:Hall.
    + intros [= <-]. by apply allHavePos_spec.
    + destruct (computePositions fuel components connections) as [[pl cursor]| |];
        simpl; try done.
      intros [= <-]. simpl. apply Forall_forall. intros c' Hc'.
      apply list_elem_of_In, in_map_iff in Hc' as (c & <- & _). simpl. eauto.
  - intros conn Hconn Hdangling. split; [by eapply dangling_not_drawn |].
    intros Hmissing before after ->. split.
    + symmetry. by apply buildForest_skips.
    + by rewrite <- (layout_skips fuel components before conn after).
Qed.

(** C7.  The guard of line 77 asks only whether the parent is a component.
    The wire from the missing id "ghost" to the grid node is read with the
    grid node as parent, so the missing id enters its children list and takes
    a band of [BASE_NODE_HEIGHT] below it, which moves both real components:
    the grid node from y = 160 to 200, the inverter from 160 to 260.  The
    renderer, which asks for both endpoints, draws nothing for that wire, and
    the normaliser itself skips a dangling wire that it reads with the
    missing id as parent ([strayWire]). *)
Theorem ghost_wire_shifts_layout :
  findComponent ghostPlant (conn_from ghostWire) = None /\
  childrenMap (buildForest ghostPlant ghostWires) !! "grid" = Some ["inv"; "ghost"] /\
  parentMap (buildForest ghostPlant ghostWires) !! "ghost" = Some "grid" /\
  calculateSmartLayout 3 ghostPlant [wire "inv" "grid"] =
    Returns {| layoutedComponents :=
                 [comp "grid" GRID [] (Some 1000) (Some 160);
                  comp "inv" INVERTER [] (Some 460) (Some 160)];
               totalHeight := 1000 |} /\
  calculateSmartLayout 3 ghostPlant ghostWires =
    Returns {| layoutedComponents :=
                 [comp "grid" GRID [] (Some 1000) (Some 200);
                  comp "inv" INVERTER [] (Some 460) (Some 260)];
               totalHeight := 1000 |} /\
  connectionEndpoints [comp "grid" GRID [] (Some 1000) (Some 200);
                       comp "inv" INVERTER [] (Some 460) (Some 260)] ghostWire = None /\
  buildForest ghostPlant [wire "inv" "grid"; strayWire] =
    buildForest ghostPlant [wire "inv" "grid"].
Proof. vm_compute. repeat split. Qed.

(** ** The budget is only a bound *)

Lemma bind_returns {A B : Type} (m : outcome A) (k : A -> outcome B) (b : B) :
  m ≫= k = Returns b -> exists a, m = Returns a /\ k a = Returns b.
Proof. destruct m as [a| |]; simpl; [eauto | done | done]. Qed.

Lemma forEachM_mono {A S : Type} (body body' : S -> A -> outcome S) l s s' :
  (forall s0 a s1, body s0 a = Returns s1 -> body' s0 a = Returns s1) ->
  forEachM body l s = Returns s' -> forEachM body' l s = Returns s'.
Proof.
  intros Hbody. revert s. induction l as [|a rest IH]; intros s; simpl; [done |].
  intros H. apply bind_returns in H as (s1 & Hs1 & Hrest).
  rewrite (Hbody _ _ _ Hs1). simpl. by apply IH.
Qed.

Lemma sumHeights_mono calc calc' children sum m res :
  (forall c m0 r, calc c m0 = Returns r -> calc' c m0 = Returns r) ->
  sumHeights calc children sum m = Returns res ->
  sumHeights calc' children sum m = Returns res.
Proof.
  intros Hcalc. revert sum m. induction children as [|c rest IH]; intros sum m; simpl;
    [done |].
  intros H. apply bind_returns in H as ([h m1] & Hc & Hrest).
  rewrite (Hcalc _ _ _ Hc). simpl. by apply IH.
Qed.

Lemma calcHeight_mono components children_of fuel fuel' nodeId m res :
  calcHeight components children_of fuel nodeId m = Returns res ->
  (fuel <= fuel')%nat ->
  calcHeight components children_of fuel' nodeId m = Returns res.
Proof.
  revert fuel' nodeId m res. induction fuel as [|fuel IH];
    intros fuel' nodeId m res; [done |].
  intros H Hle. destruct fuel' as [|fuel']; [lia |].
  rewrite calcHeight_unfold in *.
  destruct (m !! nodeId); [done |].
  destruct (default [] (children_of !! nodeId)) as [|child rest]; [done |].
  apply bind_returns in H as ([total m1] & Hsum & Hret).
  rewrite (sumHeights_mono _ (calcHeight components children_of fuel') _ _ _ _
             (fun c m0 r Hr => IH fuel' c m0 r Hr ltac:(lia)) Hsum).
  exact Hret.
Qed.

Lemma placeChildren_mono assign assign' subtreeHeights children startY pl pl' :
  (forall c cy pl0 pl1, assign c cy pl0 = Returns pl1 -> assign' c cy pl0 = Returns pl1) ->
  placeChildren assign subtreeHeights children startY pl = Returns pl' ->
  placeChildren assign' subtreeHeights children startY pl = Returns pl'.
Proof.
  intros Hassign. revert startY pl.
  induction children as [|c rest IH]; intros startY pl; simpl; [done |].
  intros H. apply bind_returns in H as (h & Hh & H). rewrite Hh. simpl.
  apply bind_returns in H as (pl1 & Hpl1 & Hrest).
  rewrite (Hassign _ _ _ _ Hpl1). simpl. by apply IH.
Qed.

Lemma assignPosition_mono components subtreeHeights fuel fuel' nodeId centerY pl pl' :
  assignPosition components subtreeHeights fuel nodeId centerY pl = Returns pl' ->
  (fuel <= fuel')%nat ->
  assignPosition components subtreeHeights fuel' nodeId centerY pl = Returns pl'.
Proof.
  revert fuel' nodeId centerY pl pl'. induction fuel as [|fuel IH];
    intros fuel' nodeId centerY pl pl'; [done |].
  intros H Hle. destruct fuel' as [|fuel']; [lia |].
  rewrite assignPosition_unfold in *.
  destruct (findComponent components nodeId) as [node|]; [| done].
  destruct (pl_children pl !! nodeId) as [[|child rest]|]; try done.
  apply bind_returns in H as (h & Hh & H). rewrite Hh.
  cbn [mbind outcome_bind].
  eapply placeChildren_mono; [| exact H].
  intros c cy pl0 pl1 Hc. apply (IH fuel' c cy pl0 pl1 Hc). lia.
Qed.

(** A result obtained within some budget is the result for every larger
    budget: the budget bounds the depth of the recursion and decides nothing
    else. *)
Lemma layout_budget_irrelevant fuel fuel' components connections r :
  calculateSmartLayout fuel components connections = Returns r ->
  (fuel <= fuel')%nat ->
  calculateSmartLayout fuel' components connections = Returns r.
Proof.
  unfold calculateSmartLayout. destruct (allHavePos components); [done |].
  intros H Hle. apply bind_returns in H as ([pl cursor] & Hpos & Hret).
  assert (Hpos' : computePositions fuel' components connections = Returns (pl, cursor)).
  { revert Hpos. unfold computePositions, calcRootHeights. intros Hpos.
    apply bind_returns in Hpos as (heights & Hheights & Hplace).
    eapply forEachM_mono in Hheights as ->.
    2: { intros s0 a s1 Hs. apply bind_returns in Hs as ([h m1] & Hc & Hr).
         rewrite (calcHeight_mono _ _ _ fuel' _ _ _ Hc Hle). exact Hr. }
    cbn [mbind outcome_bind].
    eapply forEachM_mono; [| exact Hplace].
    intros [pl0 cur0] root [pl1 cur1] Hstep. unfold placeRoot in *.
    apply bind_returns in Hstep as (h & Hh & Hstep). rewrite Hh.
    cbn [mbind outcome_bind].
    apply bind_returns in Hstep as (pl2 & Hassign & Hr).
    by rewrite (assignPosition_mono _ _ _ fuel' _ _ _ _ Hassign Hle). }
  by rewrite Hpos'.
Qed.

(** ** Termination below the roots *)

Lemma belowRoots_root children_of roots root :
  In root roots -> belowRoots children_of roots (c_id root).
Proof. intros Hin. exists root. split; [done | apply rtc_refl]. Qed.

Lemma belowRoots_child children_of roots p c :
  belowRoots children_of roots p -> childOf children_of p c ->
  belowRoots children_of roots c.
Proof.
  intros (root & Hroot & Hpath) Hstep. exists root. split; [done |].
  eapply rtc_r; eauto.
Qed.

Lemma rankedBelowRoots_on components connections rank :
  rankedBelowRoots components connections rank ->
  rankedOn (reachable components connections)
           (childrenMap (buildForest components connections)) rank.
Proof.
  intros Hranked n l c Hn Hl Hc.
  assert (Hstep : childOf (childrenMap (buildForest components connections)) n c)
    by (exists l; done).
  split; [by eapply belowRoots_child | by apply Hranked].
Qed.

Lemma rank_bound (rank : string -> nat) (l : list SolarComponent) :
  exists bound, forall c, In c l -> (rank (c_id c) < bound)%nat.
Proof.
  induction l as [|a rest [bound Hbound]].
  - exists 0%nat. intros c [].
  - exists (S (Nat.max (rank (c_id a)) bound)). intros c [<-|Hin]; [lia |].
    specialize (Hbound c Hin). lia.
Qed.

Lemma computePositions_returns components connections rank :
  rankedBelowRoots components connections rank ->
  exists fuel0 res, forall fuel, (fuel0 <= fuel)%nat ->
    computePositions fuel components connections = Returns res.
Proof.
  intros Hranked.
  destruct (rank_bound rank (rootsOf components (buildForest components connections)))
    as [fuel0 Hbound].
  destruct (computePositions_progress_on fuel0 components connections rank
              (reachable components connections)) as [_ Hret].
  destruct Hret as [res Hres].
  { split; [by apply rankedBelowRoots_on |].
    intros r Hr. split; [by apply belowRoots_root | by apply Hbound]. }
  exists fuel0, res. intros fuel Hle.
  revert Hres. unfold computePositions, calcRootHeights. intros Hpos.
  apply bind_returns in Hpos as (heights & Hheights & Hplace).
  eapply forEachM_mono in Hheights as ->.
  2: { intros s0 a s1 Hs. apply bind_returns in Hs as ([h m1] & Hc & Hr).
       rewrite (calcHeight_mono _ _ _ fuel _ _ _ Hc Hle). exact Hr. }
  cbn [mbind outcome_bind].
  eapply forEachM_mono; [| exact Hplace].
  intros [pl0 cur0] root [pl1 cur1] Hstep. unfold placeRoot in *.
  apply bind_returns in Hstep as (h & Hh & Hstep). rewrite Hh.
  cbn [mbind outcome_bind].
  apply bind_returns in Hstep as (pl2 & Hassign & Hr).
  by rewrite (assignPosition_mono _ _ _ fuel _ _ _ _ Hassign Hle).
Qed.

(** The layout function returns, with one result for every budget that is
    large enough, when every component is placed already or no cycle can be
    reached from a root. *)
Lemma layout_returns components connections :
  allHavePos components = true \/
  (exists rank, rankedBelowRoots components connections rank) ->
  exists fuel0 r, forall fuel, (fuel0 <= fuel)%nat ->
    calculateSmartLayout fuel components connections = Returns r.
Proof.
  unfold calculateSmartLayout. destruct (allHavePos components).
  - intros _. exists 0%nat. eexists. intros fuel _. reflexivity.
  - intros [Hall|[rank Hranked]]; [done |].
    destruct (computePositions_returns components connections rank Hranked)
      as (fuel0 & [pl cursor] & Hres).
    exists fuel0. eexists. intros fuel Hle. rewrite (Hres fuel Hle). reflexivity.
Qed.

(** ** What the assignment reaches *)

Lemma assignPosition_keeps components subtreeHeights fuel nodeId centerY pl pl' id :
  assignPosition components subtreeHeights fuel nodeId centerY pl = Returns pl' ->
  is_Some (positions pl !! id) -> is_Some (positions pl' !! id).
Proof.
  apply (assignPosition_preserves components subtreeHeights
           (fun pl => is_Some (positions pl !! id))).
  - intros pl0 id0 node cy Hid _. simpl.
    destruct (decide (id0 = id)) as [<-|Hne].
    + rewrite lookup_insert_eq. eauto.
    + by rewrite lookup_insert_ne.
  - intros pl0 id0 children Hid _. exact Hid.
Qed.

Lemma covers_sort children_of pl nodeId children :
  covers children_of pl -> pl_children pl !! nodeId = Some children ->
  covers children_of {| pl_children := <[nodeId := sortIds children]> (pl_children pl);
                        positions := positions pl |}.
Proof.
  intros Hcov Hch n l0 Hl0. cbn [pl_children].
  destruct (Hcov n l0 Hl0) as (l & Hl & Hsub).
  destruct (decide (nodeId = n)) as [<-|Hne].
  - rewrite lookup_insert_eq. rewrite Hch in Hl. injection Hl as <-.
    exists (sortIds children). split; [done |]. intros c Hc. by apply sortIds_In, Hsub.
  - rewrite lookup_insert_ne by done. eauto.
Qed.

Lemma assignPosition_covers children_of components subtreeHeights
    fuel nodeId centerY pl pl' :
  assignPosition components subtreeHeights fuel nodeId centerY pl = Returns pl' ->
  covers children_of pl -> covers children_of pl'.
Proof.
  apply (assignPosition_preserves components subtreeHeights (covers children_of)).
  - intros pl0 id0 node cy Hcov _. exact Hcov.
  - intros pl0 id0 children. apply covers_sort.
Qed.

Section Reach.
Variable components : list SolarComponent.
Variable children_of : gmap string (list string).
Variable subtreeHeights : gmap string Q.
Hypothesis keys_are_components :
  forall n, is_Some (children_of !! n) -> is_Some (findComponent components n).

Lemma placeChildren_reaches assign children startY pl pl' :
  (forall k cy pl0 pl1, assign k cy pl0 = Returns pl1 ->
     (covers children_of pl0 -> covers children_of pl1) /\
     (forall id, is_Some (positions pl0 !! id) -> is_Some (positions pl1 !! id)) /\
     (covers children_of pl0 -> forall c, rtc (childOf children_of) k c ->
        is_Some (findComponent components c) -> is_Some (positions pl1 !! c))) ->
  placeChildren assign subtreeHeights children startY pl = Returns pl' ->
  covers children_of pl ->
  covers children_of pl' /\
  (forall id, is_Some (positions pl !! id) -> is_Some (positions pl' !! id)) /\
  (forall k c, In k children -> rtc (childOf children_of) k c ->
     is_Some (findComponent components c) -> is_Some (positions pl' !! c)).
Proof.
  intros Hassign. revert startY pl.
  induction children as [|k rest IH]; intros startY pl; simpl.
  - intros [= <-] Hcov. split; [done |]. split; [done |]. intros k c [].
  - unfold getAsserted. destruct (subtreeHeights !! k) as [h|]; simpl; [| done].
    destruct (assign k _ pl) as [pl1| |] eqn:E; simpl; try done.
    intros Hrest Hcov.
    destruct (Hassign _ _ _ _ E) as (Hcov1 & Hkeep1 & Hbelow1).
    destruct (IH _ _ Hrest (Hcov1 Hcov)) as (Hcov' & Hkeep' & Hbelow').
    split; [done |]. split; [by auto |].
    intros k0 c [<-|Hin] Hpath Hc; [| by eapply Hbelow'].
    by apply Hkeep', Hbelow1.
Qed.

Lemma assignPosition_reaches fuel nodeId centerY pl pl' :
  assignPosition components subtreeHeights fuel nodeId centerY pl = Returns pl' ->
  covers children_of pl ->
  forall c, rtc (childOf children_of) nodeId c ->
    is_Some (findComponent components c) -> is_Some (positions pl' !! c).
Proof.
  revert nodeId centerY pl pl'.
  induction fuel as [|fuel IH]; intros nodeId centerY pl pl'; [done |].
  rewrite assignPosition_unfold.
  destruct (findComponent components nodeId) as [node|] eqn:Hnode.
  2: { intros [= <-] Hcov c Hpath Hc. exfalso.
       inversion Hpath as [|? k ? [l [Hl _]] _]; subst.
       - rewrite Hnode in Hc. by destruct Hc.
       - assert (Hkey : is_Some (findComponent components nodeId))
           by (apply keys_are_components; eauto).
         rewrite Hnode in Hkey. by destruct Hkey. }
  cbv zeta.
  set (p := mkPosition (default (getLevelX (c_type node)) (c_x node))
                       (default centerY (c_y node))).
  assert (Hleaf : forall l, pl_children pl !! nodeId = l ->
            (l = None \/ l = Some []) -> covers children_of pl ->
            forall c, rtc (childOf children_of) nodeId c ->
              is_Some (positions {| pl_children := pl_children pl;
                                    positions := <[nodeId := p]> (positions pl) |} !! c)).
  { intros l Hl Hempty Hcov c Hpath. cbn [positions].
    inversion Hpath as [|? k ? [l0 [Hl0 Hk]] _]; subst.
    - rewrite lookup_insert_eq. eauto.
    - exfalso. destruct (Hcov _ _ Hl0) as (l1 & Hl1 & Hsub).
      specialize (Hsub k Hk). rewrite Hl1 in Hempty.
      destruct Hempty as [?|[= ->]]; [done | destruct Hsub]. }
  destruct (pl_children pl !! nodeId) as [[|child rest]|] eqn:Hch.
  - intros [= <-] Hcov c Hpath _. eapply Hleaf; eauto.
  - unfold getAsserted. destruct (subtreeHeights !! nodeId) as [h|];
      cbn [mbind outcome_bind]; [| done].
    intros Hplace Hcov c Hpath Hc.
    eapply placeChildren_reaches in Hplace as (_ & Hkeep & Hbelow).
    + inversion Hpath as [|? k ? [l0 [Hl0 Hk]] Hrest]; subst.
      * apply Hkeep. cbn [positions]. rewrite lookup_insert_eq. eauto.
      * destruct (Hcov _ _ Hl0) as (l1 & Hl1 & Hsub). rewrite Hch in Hl1.
        injection Hl1 as <-. apply (Hbelow k c); [| done | done].
        by apply sortIds_In, Hsub.
    + intros k cy pl0 pl1 Hk. split; [by eapply assignPosition_covers |].
      split; [intros id; by eapply assignPosition_keeps |].
      intros Hcov0. by eapply IH.
    + apply (covers_sort children_of
               {| pl_children := pl_children pl; positions := _ |}); done.
  - intros [= <-] Hcov c Hpath _. eapply Hleaf; eauto.
Qed.

Lemma placeRoots_reaches_below fuel roots pl cursor pl' cursor' :
  forEachM (placeRoot components subtreeHeights fuel) roots (pl, cursor) =
    Returns (pl', cursor') ->
  covers children_of pl ->
  forall c, belowRoots children_of roots c ->
    is_Some (findComponent components c) -> is_Some (positions pl' !! c).
Proof.
  revert pl cursor. induction roots as [|root rest IH]; intros pl cursor; simpl.
  - intros _ _ c (r & [] & _).
  - unfold getAsserted. destruct (subtreeHeights !! c_id root) as [h|]; simpl; [| done].
    destruct (assignPosition _ _ _ _ _ pl) as [pl1| |] eqn:E; simpl; try done.
    intros Hrest Hcov c (r & [<-|Hin] & Hpath) Hc.
    + eapply placeRoots_keeps; [exact Hrest |].
      by eapply assignPosition_reaches.
    + eapply IH; [exact Hrest | by eapply assignPosition_covers | | done].
      by exists r.
Qed.
End Reach.

(** Every component at or below a root is given a position. *)
Lemma reachable_placed fuel components connections pl cursor c :
  computePositions fuel components connections = Returns (pl, cursor) ->
  reachable components connections c ->
  is_Some (findComponent components c) ->
  is_Some (positions pl !! c).
Proof.
  unfold computePositions.
  destruct (calcRootHeights _ _ _ _) as [subtreeHeights| |]; simpl; try done.
  intros Hplace Hreach Hc.
  eapply (placeRoots_reaches_below components
            (childrenMap (buildForest components connections)));
    [| exact Hplace | | exact Hreach | exact Hc].
  - intros n. apply buildForest_keys.
  - intros n l0 Hl0. exists l0. split; [exact Hl0 | auto].
Qed.

(** ** Only a forest without a cycle below its roots is measured *)

Lemma closed_rtc children_of (m : gmap string Q) n k :
  closed children_of m -> is_Some (m !! n) -> rtc (childOf children_of) n k ->
  is_Some (m !! k).
Proof.
  intros Hcl Hn Hpath. induction Hpath as [|x y z (l & Hl & Hy) _ IH]; [done |].
  apply IH. eapply Hcl; eauto.
Qed.

Lemma sumHeights_acyclic children_of calc children sum m total m' :
  (forall c m0 h m1, calc c m0 = Returns (h, m1) -> closed children_of m0 ->
     (forall k, is_Some (m0 !! k) -> ~ onCycle children_of k) ->
     closed children_of m1 /\ (forall k, is_Some (m1 !! k) -> ~ onCycle children_of k)) ->
  sumHeights calc children sum m = Returns (total, m') ->
  closed children_of m ->
  (forall k, is_Some (m !! k) -> ~ onCycle children_of k) ->
  forall k, is_Some (m' !! k) -> ~ onCycle children_of k.
Proof.
  intros Hcalc. revert sum m. induction children as [|c rest IH]; intros sum m; simpl.
  - by intros [= <- <-].
  - destruct (calc c m) as [[h m1]| |] eqn:E; simpl; try done.
    intros Hrest Hcl Hm. destruct (Hcalc _ _ _ _ E Hcl Hm) as [Hcl1 Hm1].
    by eapply IH.
Qed.

Lemma calcHeight_acyclic components children_of fuel nodeId m h m' :
  calcHeight components children_of fuel nodeId m = Returns (h, m') ->
  closed children_of m ->
  (forall k, is_Some (m !! k) -> ~ onCycle children_of k) ->
  forall k, is_Some (m' !! k) -> ~ onCycle children_of k.
Proof.
  revert nodeId m h m'. induction fuel as [|fuel IH]; intros nodeId m h m'; [done |].
  rewrite calcHeight_unfold.
  destruct (m !! nodeId) as [h0|] eqn:Hmemo; [by intros [= <- <-] |].
  assert (Hleaf : (children_of !! nodeId = None \/ children_of !! nodeId = Some []) ->
            ~ onCycle children_of nodeId).
  { intros Hempty Hcyc.
    assert (Hstep : exists y, childOf children_of nodeId y)
      by (inversion Hcyc; subst; eauto).
    destruct Hstep as (y & l & Hl & Hy). rewrite Hl in Hempty.
    destruct Hempty as [?|[= ->]]; [done | destruct Hy]. }
  assert (Hins : forall (m0 : gmap string Q) v,
            (forall k, is_Some (m0 !! k) -> ~ onCycle children_of k) ->
            ~ onCycle children_of nodeId ->
            forall k, is_Some (<[nodeId := v]> m0 !! k) -> ~ onCycle children_of k).
  { intros m0 v Hm0 Hnode k. destruct (decide (nodeId = k)) as [<-|Hne]; [done |].
    rewrite lookup_insert_ne by done. apply Hm0. }
  destruct (children_of !! nodeId) as [[|child rest]|] eqn:Hch;
    cbn [from_option id].
  - intros [= <- <-] Hcl Hm. apply Hins; auto.
  - destruct (sumHeights (calcHeight components children_of fuel)
                         (child :: rest) 0 m) as [[total m1]| |] eqn:E;
      cbn [mbind outcome_bind]; try done.
    cbv zeta. intros [= <- <-] Hcl Hm.
    destruct (sumHeights_closed children_of
                (calcHeight components children_of fuel)
                _ _ _ _ _ (fun c m0 h m1 _ => calcHeight_closed components children_of
                                                 fuel c m0 h m1) E Hcl)
      as (Hcl1 & Hall & _).
    assert (Hm1 : forall k, is_Some (m1 !! k) -> ~ onCycle children_of k).
    { eapply sumHeights_acyclic; [| exact E | exact Hcl | exact Hm].
      intros c m0 h0 m2 Hc Hcl0 Hm0. split; [| by eapply IH].
      by destruct (calcHeight_closed _ _ _ _ _ _ _ Hc Hcl0). }
    apply Hins; [exact Hm1 |]. intros Hcyc.
    assert (Hback : exists y, In y (child :: rest) /\
                              rtc (childOf children_of) y nodeId).
    { inversion Hcyc as [? ? (l & Hl & Hy)|? y ? (l & Hl & Hy) Hrest]; subst;
        rewrite Hch in Hl; injection Hl as <-.
      - exists nodeId. split; [done | apply rtc_refl].
      - exists y. split; [done | by apply tc_rtc]. }
    destruct Hback as (y & Hy & Hpath).
    apply (Hm1 nodeId); [| exact Hcyc].
    eapply closed_rtc; [exact Hcl1 | by apply Hall | exact Hpath].
  - intros [= <- <-] Hcl Hm. apply Hins; auto.
Qed.

(** When the positions are computed, no id at or below a root lies on a cycle
    of the children arrays: on such a cycle the measurement never returns. *)
Lemma returns_only_acyclic fuel components connections res n :
  computePositions fuel components connections = Returns res ->
  reachable components connections n ->
  ~ onCycle (childrenMap (buildForest components connections)) n.
Proof.
  unfold computePositions, reachable.
  set (forest := buildForest components connections).
  destruct (calcRootHeights _ _ _ _) as [heights| |] eqn:Hheights; simpl; try done.
  intros _ (root & Hroot & Hpath).
  assert (Hgen : forall roots m m',
            forEachM (fun subtreeHeights r =>
                        '(_, subtreeHeights') ←
                          calcHeight components (childrenMap forest) fuel (c_id r)
                                     subtreeHeights;
                        Returns subtreeHeights') roots m = Returns m' ->
            closed (childrenMap forest) m ->
            (forall k, is_Some (m !! k) -> ~ onCycle (childrenMap forest) k) ->
            forall k, is_Some (m' !! k) -> ~ onCycle (childrenMap forest) k).
  { induction roots as [|r rest IH]; intros m m'; simpl.
    - by intros [= <-].
    - destruct (calcHeight components (childrenMap forest) fuel (c_id r) m)
        as [[h m1]| |] eqn:E; simpl; try done.
      intros Hrest Hcl Hm. eapply IH; [exact Hrest | |].
      + by destruct (calcHeight_closed _ _ _ _ _ _ _ E Hcl).
      + by eapply calcHeight_acyclic. }
  assert (Hempty : closed (childrenMap forest) ∅).
  { intros k l c [? Hk]. by rewrite lookup_empty in Hk. }
  destruct (calcRootHeights_closed components (childrenMap forest) fuel _ _ _
              Hheights Hempty) as (Hclosed & _ & Hroots).
  apply (Hgen _ _ _ Hheights Hempty).
  - intros k [? Hk]. by rewrite lookup_empty in Hk.
  - eapply closed_rtc; [exact Hclosed | by apply Hroots | exact Hpath].
Qed.

(** ** Coverage, snapping and pinned positions *)

Lemma ranked_below_roots components connections rank :
  ranked (childrenMap (buildForest components connections)) rank ->
  rankedBelowRoots components connections rank.
Proof. intros Hranked p c _ (l & Hl & Hc). by eapply Hranked. Qed.

Lemma rootless_ranked components connections rank :
  rootsOf components (buildForest components connections) = [] ->
  rankedBelowRoots components connections rank.
Proof.
  intros Hroots p c (root & Hroot & _). rewrite Hroots in Hroot. destruct Hroot.
Qed.

Lemma layout_reannotates fuel components connections r :
  calculateSmartLayout fuel components connections = Returns r ->
  map c_id (layoutedComponents r) = map c_id components /\
  Forall2 reannotates components (layoutedComponents r).
Proof.
  unfold calculateSmartLayout. destruct (allHavePos components) eqn:Hall.
  - intros [= <-]. simpl. split; [done |].
    apply allHavePos_spec in Hall. induction Hall as [|c cs [Hx Hy] _ IH].
    + constructor.
    + constructor; [by repeat split | exact IH].
  - destruct (computePositions fuel components connections)
      as [[pl cursor]| |]; simpl; try discriminate.
    intros [= <-]. simpl. split.
    + rewrite map_map. by apply map_ext.
    + clear Hall. induction components as [|c cs IH]; simpl.
      * constructor.
      * constructor; [apply snapComponent_reannotates | exact IH].
Qed.

(** C2 (coverage).  The layout function returns, with one result for every
    budget that is large enough, on every input that is fully placed or has
    no cycle at or below a root, and on no other input; whenever it returns,
    the placed sequence lists the ids of the input in the same order (hence
    the same multiset: no drop, no duplicate), and each placed component has
    the type, label and specs of the input component at its index, with both
    coordinates resolved.  It never fails on a missing key. *)
Theorem layout_coverage (components : list SolarComponent)
    (connections : list Connection) :
  (allHavePos components = true \/
   (exists rank, rankedBelowRoots components connections rank) ->
   exists fuel0 r,
     (forall fuel, (fuel0 <= fuel)%nat ->
        calculateSmartLayout fuel components connections = Returns r) /\
     map c_id (layoutedComponents r) = map c_id components /\
     Forall2 reannotates components (layoutedComponents r)) /\
  (forall fuel r, calculateSmartLayout fuel components connections = Returns r ->
     map c_id (layoutedComponents r) = map c_id components /\
     Forall2 reannotates components (layoutedComponents r) /\
     (allHavePos components = true \/
      forall n, reachable components connections n ->
        ~ onCycle (childrenMap (buildForest components connections)) n)) /\
  (forall fuel, calculateSmartLayout fuel components connections <> Undefined).
Proof.
  split; [| split].
  - intros Hcase. destruct (layout_returns components connections Hcase)
      as (fuel0 & r & Hr).
    exists fuel0, r. split; [exact Hr |].
    apply (layout_reannotates fuel0 components connections). by apply Hr.
  - intros fuel r Hr.
    destruct (layout_reannotates _ _ _ _ Hr) as [Hids Hfields].
    split; [exact Hids |]. split; [exact Hfields |].
    revert Hr. unfold calculateSmartLayout.
    destruct (allHavePos components); [by left |].
    destruct (computePositions fuel components connections) as [res| |] eqn:Hpos;
      simpl; try done.
    intros _. right. intros n. by eapply returns_only_acyclic.
  - intros fuel. apply layout_never_undefined.
Qed.

Lemma layout_coverage_witness :
  exists fuel0 r,
    (forall fuel, (fuel0 <= fuel)%nat ->
       calculateSmartLayout fuel islandPlant islandWires = Returns r) /\
    map c_id (layoutedComponents r) = map c_id islandPlant /\
    Forall2 reannotates islandPlant (layoutedComponents r).
Proof.
  apply (proj1 (layout_coverage islandPlant islandWires)).
  right. exists (fun _ => 0%nat). apply rootless_ranked. reflexivity.
Defined.

Lemma snap_nearest (v : Q) : nearestGridPoint v (snap v).
Proof.
  exists (Math_round (v / GRID_SNAP)). split; [apply snap_multiple |].
  unfold Math_round. set (q := v / GRID_SNAP + (1 # 2)).
  pose proof (Qfloor_le q) as Hlow. pose proof (Qlt_floor q) as Hhigh.
  rewrite inject_Z_plus in Hhigh. rewrite inject_Z_mult.
  assert (Hv : v == (q - (1 # 2)) * 20) by (unfold q, GRID_SNAP; field).
  change (inject_Z 20) with 20. change (inject_Z 1) with 1 in Hhigh.
  split; lra.
Qed.

(** C8 (snap invariant).  On the recompute path (some component lacks a
    coordinate) the layout function returns whenever no cycle can be reached
    from a root, and whenever it returns every output coordinate is the grid
    point nearest to the raw coordinate recorded for the component's id (or
    to the fallback 0): [k * 20] for the integer [k] with
    [k * 20 - 10 <= raw < k * 20 + 10], which is what
    [Math.round(raw / GRID_SNAP) * GRID_SNAP] is.  The raw position recorded
    for a component at or below a root (the first with its id) has the rank
    column as its x when the component has none of its own. *)
Theorem snap_invariant (components : list SolarComponent)
    (connections : list Connection) :
  allHavePos components = false ->
  (forall rank, rankedBelowRoots components connections rank ->
     exists fuel0 r, forall fuel, (fuel0 <= fuel)%nat ->
       calculateSmartLayout fuel components connections = Returns r) /\
  (forall fuel r, calculateSmartLayout fuel components connections = Returns r ->
     exists pl cursor,
       computePositions fuel components connections = Returns (pl, cursor) /\
       Forall2 (fun c c' =>
                  snappedFrom (default (mkPosition 0 0) (positions pl !! c_id c)) c')
               components (layoutedComponents r) /\
       forall c, findComponent components (c_id c) = Some c ->
         reachable components connections (c_id c) ->
         exists raw, positions pl !! c_id c = Some raw /\
           pos_x raw = default (getLevelX (c_type c)) (c_x c) /\
           (forall vy, c_y c = Some vy -> pos_y raw = vy)).
Proof.
  intros Hall. split.
  - intros rank Hranked. apply layout_returns. right. by exists rank.
  - intros fuel r. unfold calculateSmartLayout. rewrite Hall.
    destruct (computePositions fuel components connections)
      as [[pl cursor]| |] eqn:Hpos; simpl; try discriminate.
    intros [= <-]. exists pl, cursor. split; [done |]. simpl. split.
    + clear. induction components as [|c cs IH]; simpl; constructor; [| exact IH].
      unfold snappedFrom, snapComponent. simpl.
      eexists _, _. split; [reflexivity |]. split; [reflexivity |].
      split; apply snap_nearest.
    + intros c Hfirst Hreach.
      destruct (reachable_placed _ _ _ _ _ _ Hpos Hreach) as [raw Hraw];
        [by rewrite Hfirst |].
      exists raw. split; [exact Hraw |].
      destruct (computePositions_sound _ _ _ _ _ Hpos _ _ Hraw)
        as (node & Hnode & Hpx & Hpy).
      rewrite Hfirst in Hnode. injection Hnode as <-. done.
Qed.

Lemma snap_invariant_witness :
  exists fuel0 r pl cursor,
    (forall fuel, (fuel0 <= fuel)%nat ->
       calculateSmartLayout fuel pinnedChildPlant pinnedChildWires = Returns r) /\
    computePositions fuel0 pinnedChildPlant pinnedChildWires = Returns (pl, cursor) /\
    Forall2 (fun c c' =>
               snappedFrom (default (mkPosition 0 0) (positions pl !! c_id c)) c')
            pinnedChildPlant (layoutedComponents r).
Proof.
  destruct (snap_invariant pinnedChildPlant pinnedChildWires eq_refl)
    as [Hreturns Hsnapped].
  destruct (Hreturns (liftRank pinnedChildPlant
                        (fun id => if String.eqb id "grid" then 1%nat else 0%nat)))
    as (fuel0 & r & Hr).
  { apply ranked_below_roots, forest_ranked.
    intros conn [<-|[]] _ _. vm_compute. lia. }
  destruct (Hsnapped fuel0 r (Hr fuel0 (le_n fuel0))) as (pl & cursor & Hpos & Hall & _).
  exists fuel0, r, pl, cursor. split; [exact Hr |]. split; [exact Hpos | exact Hall].
Defined.

(** C3, as the source has it.  On the recompute path, a component (the first
    with its id) that has both coordinates and sits at or below a root of the
    forest is output, whenever the layout function returns, at those
    coordinates rounded to the grid, [Math.round(v / 20) * 20]; it keeps them
    exactly when they are multiples of 20 already.  The layout function does
    return whenever no cycle can be reached from a root. *)
Theorem pinned_position_snapped (components : list SolarComponent)
    (connections : list Connection) (i : nat) (c : SolarComponent) (vx vy : Q) :
  allHavePos components = false ->
  components !! i = Some c ->
  findComponent components (c_id c) = Some c ->
  c_x c = Some vx -> c_y c = Some vy ->
  reachable components connections (c_id c) ->
  (forall rank, rankedBelowRoots components connections rank ->
     exists fuel0 r, forall fuel, (fuel0 <= fuel)%nat ->
       calculateSmartLayout fuel components connections = Returns r) /\
  (forall fuel r, calculateSmartLayout fuel components connections = Returns r ->
     layoutedComponents r !! i = Some (withPosition c (snap vx) (snap vy)) /\
     (forall kx ky : Z, vx = inject_Z (kx * 20) -> vy = inject_Z (ky * 20) ->
        layoutedComponents r !! i = Some c)).
Proof.
  intros Hall Hi Hfirst Hx Hy Hreach. split.
  - intros rank Hranked. apply layout_returns. right. by exists rank.
  - intros fuel r. unfold calculateSmartLayout. rewrite Hall.
    destruct (computePositions fuel components connections)
      as [[pl cursor]| |] eqn:Hpos; simpl; try discriminate.
    intros [= <-]. simpl.
    destruct (reachable_placed _ _ _ _ _ _ Hpos Hreach) as [p Hp];
      [by rewrite Hfirst |].
    assert (Hout : snapComponent (positions pl) c = withPosition c (snap vx) (snap vy)).
    { destruct (computePositions_sound _ _ _ _ _ Hpos _ _ Hp)
        as (node & Hnode & Hpx & Hpy).
      rewrite Hfirst in Hnode. injection Hnode as <-.
      unfold snapComponent. rewrite Hp. simpl.
      rewrite Hpx, Hx, (Hpy vy Hy). done. }
    rewrite lookup_map, Hi. simpl. rewrite Hout. split; [done |].
    intros kx ky -> ->. rewrite !snap_fixes_multiples.
    destruct c as [id t lbl specs x y]. simpl in Hx, Hy. by subst x y.
Qed.

Lemma pinned_position_snapped_witness :
  exists fuel0 r,
    (forall fuel, (fuel0 <= fuel)%nat ->
       calculateSmartLayout fuel pinnedChildPlant pinnedChildWires = Returns r) /\
    layoutedComponents r !! 1%nat =
      Some (withPosition (comp "inv" INVERTER [] (Some 105) (Some 33))
                         (snap 105) (snap 33)).
Proof.
  assert (Hreach : reachable pinnedChildPlant pinnedChildWires "inv").
  { exists (comp "grid" GRID [] None None). split; [by left |].
    apply rtc_once. exists ["inv"]. split; [reflexivity | by left]. }
  destruct (pinned_position_snapped pinnedChildPlant pinnedChildWires 1%nat
              (comp "inv" INVERTER [] (Some 105) (Some 33)) 105 33
              eq_refl eq_refl eq_refl eq_refl eq_refl Hreach)
    as [Hreturns Hout].
  destruct (Hreturns (liftRank pinnedChildPlant
                        (fun id => if String.eqb id "grid" then 1%nat else 0%nat)))
    as (fuel0 & r & Hr).
  { apply ranked_below_roots, forest_ranked.
    intros conn [<-|[]] _ _. vm_compute. lia. }
  exists fuel0, r. split; [exact Hr |].
  exact (proj1 (Hout fuel0 r (Hr fuel0 (le_n fuel0)))).
Defined.

(** * Further properties: history, pointer interaction, export, metrics *)

(** ** Undo history *)

Lemma updateSystem_index (newData : SolarSystemData) (h : AppHistory) :
  historyValid h ->
  historyIndex (updateSystem newData h) = S (historyIndex h) /\
  length (history (updateSystem newData h)) = S (S (historyIndex h)).
Proof.
  unfold historyValid, updateSystem. simpl. intros Hvalid.
  rewrite length_app, length_firstn. simpl. lia.
Qed.

Lemma applyAction_valid (h : AppHistory) (a : HistoryAction) :
  historyValid h -> historyValid (applyAction h a).
Proof.
  intros Hvalid. destruct a as [newData| |]; cbn [applyAction].
  - unfold historyValid.
    destruct (updateSystem_index newData h Hvalid) as [-> ->]. lia.
  - unfold historyValid, handleUndo in *. simpl.
    destruct (Nat.ltb_spec 0 (historyIndex h)); lia.
  - unfold historyValid, handleRedo in *. simpl.
    destruct (Nat.ltb_spec (historyIndex h) (length (history h) - 1)); lia.
Qed.

(** X1.  Whatever sequence of edits, undos and redos is applied to the initial
    history, the index stays inside the history, so there is always a current
    document to show. *)
Theorem history_always_has_current (actions : list HistoryAction) :
  let h := fold_left applyAction actions initialHistory in
  historyValid h /\ is_Some (currentSystem h).
Proof.
  assert (Hvalid : historyValid (fold_left applyAction actions initialHistory)).
  { generalize initialHistory, (Nat.lt_0_1 : historyValid initialHistory).
    induction actions as [|a rest IH]; intros h Hh; simpl; [done |].
    apply IH. by apply applyAction_valid. }
  simpl. split; [exact Hvalid |]. unfold currentSystem.
  by apply lookup_lt_is_Some_2.
Qed.

(** X2.  An edit can be undone and redone: after [updateSystem] the new
    document is current, one undo shows the document that was current before
    the edit, and a redo after it shows the new one again. *)
Theorem undo_reverts_update (newData : SolarSystemData) (h : AppHistory) :
  historyValid h ->
  currentSystem (updateSystem newData h) = Some newData /\
  currentSystem (handleUndo (updateSystem newData h)) = currentSystem h /\
  currentSystem (handleRedo (handleUndo (updateSystem newData h))) = Some newData.
Proof.
  intros Hvalid. destruct (updateSystem_index newData h Hvalid) as [Hidx Hlen].
  assert (Htake : length (firstn (historyIndex h + 1) (history h)) = S (historyIndex h))
    by (unfold historyValid in Hvalid; rewrite length_firstn; lia).
  assert (Hnew : history (updateSystem newData h) !! S (historyIndex h) = Some newData).
  { unfold updateSystem. simpl. rewrite lookup_app_r by lia.
    rewrite Htake, Nat.sub_diag. reflexivity. }
  assert (Hundo : historyIndex (handleUndo (updateSystem newData h)) = historyIndex h)
    by (unfold handleUndo; cbn [historyIndex]; rewrite Hidx; simpl; lia).
  split; [| split].
  - unfold currentSystem. by rewrite Hidx.
  - unfold currentSystem. rewrite Hundo. unfold handleUndo, updateSystem. simpl.
    rewrite lookup_app_l by lia. apply lookup_take_lt. lia.
  - set (u := updateSystem newData h) in *. clearbody u.
    unfold currentSystem, handleRedo, handleUndo. cbn [history historyIndex].
    rewrite Hidx, Hlen.
    replace (0 <? S (historyIndex h))%nat with true by done.
    replace (S (historyIndex h) - 1)%nat with (historyIndex h) by lia.
    replace (S (S (historyIndex h)) - 1)%nat with (S (historyIndex h)) by lia.
    rewrite (proj2 (Nat.ltb_lt _ _)) by lia. rewrite Nat.add_1_r. exact Hnew.
Qed.

Lemma undo_reverts_update_witness :
  currentSystem (handleUndo (updateSystem INITIAL_SYSTEM initialHistory)) =
  currentSystem initialHistory.
Proof.
  apply (undo_reverts_update INITIAL_SYSTEM initialHistory). unfold historyValid. simpl. lia.
Defined.

(** X3.  Undo and redo are inverse to each other wherever they are enabled,
    and do nothing where they are disabled (first and last entry). *)
Theorem undo_redo_inverse (h : AppHistory) :
  historyValid h ->
  (canUndo h = true -> handleRedo (handleUndo h) = h) /\
  (canRedo h = true -> handleUndo (handleRedo h) = h) /\
  (canUndo h = false -> handleUndo h = h) /\
  (canRedo h = false -> handleRedo h = h).
Proof.
  destruct h as [hist idx]. unfold historyValid, canUndo, canRedo, handleUndo, handleRedo.
  simpl. intros Hvalid. repeat split; intros Hcan; rewrite ?Hcan; simpl; f_equal.
  - apply Nat.ltb_lt in Hcan.
    replace (idx - 1 <? length hist - 1)%nat with true
      by (symmetry; apply Nat.ltb_lt; lia). lia.
  - apply Nat.ltb_lt in Hcan.
    replace (0 <? idx + 1)%nat with true by (symmetry; apply Nat.ltb_lt; lia). lia.
Qed.

Lemma undo_redo_inverse_witness :
  handleRedo (handleUndo (updateSystem INITIAL_SYSTEM initialHistory)) =
  updateSystem INITIAL_SYSTEM initialHistory.
Proof.
  apply (undo_redo_inverse (updateSystem INITIAL_SYSTEM initialHistory));
    [unfold historyValid; simpl; lia | reflexivity].
Defined.

(** X4.  An edit made after undoing discards what could have been redone: the
    history is cut after the current entry before the new document is added,
    so the entries up to the current one are kept, the new document is last,
    and redo is disabled. *)
Theorem update_drops_redo_tail (newData : SolarSystemData) (h : AppHistory) :
  historyValid h ->
  length (history (updateSystem newData h)) = S (S (historyIndex h)) /\
  (forall i, (i <= historyIndex h)%nat ->
     history (updateSystem newData h) !! i = history h !! i) /\
  last (history (updateSystem newData h)) = Some newData /\
  canRedo (updateSystem newData h) = false.
Proof.
  intros Hvalid. destruct (updateSystem_index newData h Hvalid) as [Hidx Hlen].
  split; [exact Hlen |]. split; [| split].
  - intros i Hi. unfold updateSystem. simpl. unfold historyValid in Hvalid.
    rewrite lookup_app_l by (rewrite length_firstn; lia).
    apply lookup_take_lt. lia.
  - unfold updateSystem. simpl. apply last_snoc.
  - unfold canRedo. rewrite Hidx, Hlen. apply Nat.ltb_ge. lia.
Qed.

Lemma update_drops_redo_tail_witness :
  canRedo (updateSystem INITIAL_SYSTEM
             (handleUndo (updateSystem INITIAL_SYSTEM initialHistory))) = false.
Proof.
  apply (update_drops_redo_tail INITIAL_SYSTEM
           (handleUndo (updateSystem INITIAL_SYSTEM initialHistory))).
  unfold historyValid. simpl. lia.
Defined.

(** ** Pointer interaction *)

Lemma snap_comp (a b : Q) : a == b -> snap a = snap b.
Proof.
  intros Hab. unfold snap, Math_round. f_equal. f_equal.
  apply Qfloor_comp. by rewrite Hab.
Qed.

Lemma moveComponent_ids id vx vy placed :
  map c_id (moveComponent id vx vy placed) = map c_id placed.
Proof.
  unfold moveComponent. rewrite map_map. apply map_ext.
  intros c. by destruct (String.eqb (c_id c) id).
Qed.

(** X5.  While a component is dragged (and no pan is going on), a pointer move
    rewrites the coordinates of the components with the dragged id and of no
    other: the placed list keeps its ids and order, every other component is
    left as it is, the moved one keeps its other fields and lands on integer
    multiples of 20; scale and translate are not touched. *)
Theorem drag_moves_only_dragged (rect : option (Q * Q)) (e : MouseEvent)
    (st : ViewerState) (dragged : string) :
  vs_isPanning st = false -> vs_draggingId st = Some dragged -> dragged <> "" ->
  let st' := handleGlobalMouseMove rect e st in
  vs_view st' = vs_view st /\
  vs_draggingId st' = Some dragged /\
  map c_id (vs_placed st') = map c_id (vs_placed st) /\
  Forall2 (fun c c' =>
             (c_id c <> dragged -> c' = c) /\
             (c_id c = dragged ->
                exists kx ky : Z,
                  c' = withPosition c (inject_Z (kx * 20)) (inject_Z (ky * 20))))
          (vs_placed st) (vs_placed st').
Proof.
  intros Hpan Hdrag Hid. unfold handleGlobalMouseMove.
  rewrite Hpan, Hdrag. simpl truthy.
  replace (String.eqb dragged "") with false by (symmetry; by apply String.eqb_neq).
  simpl negb. cbv iota. destruct (mouseSvg rect (vs_view st) e) as [mx my].
  cbn [vs_view vs_placed vs_draggingId default from_option id]. cbv zeta.
  split; [done |]. split; [done |]. split; [apply moveComponent_ids |].
  unfold moveComponent. induction (vs_placed st) as [|c cs IH]; simpl; constructor;
    [| exact IH].
  destruct (String.eqb_spec (c_id c) dragged) as [Heq|Hne]; split; try done.
  intros _. rewrite !snap_multiple. eauto.
Qed.

Lemma drag_moves_only_dragged_witness :
  let st := {| vs_view := unitView; vs_placed := pinnedPlant; vs_height := 1000;
               vs_isPanning := false; vs_panStart := (0, 0);
               vs_draggingId := Some "pv"; vs_dragOffset := (3, 4);
               vs_selectedId := Some "pv" |} in
  map c_id (vs_placed (handleGlobalMouseMove None
                         (mkMouseEvent 0 false "rect" "" 131 58) st)) =
  map c_id pinnedPlant.
Proof.
  intros st.
  apply (drag_moves_only_dragged None (mkMouseEvent 0 false "rect" "" 131 58) st "pv");
    [reflexivity | reflexivity | discriminate].
Defined.

Lemma listener_in_sync (rect : option (Q * Q)) (e : MouseEvent) (st : ViewerState) :
  listenerMouseMove rect e st st = handleGlobalMouseMove rect e st.
Proof. reflexivity. Qed.

(** X7.  A pan follows the pointer: when no pan is going on, after a
    pan-initiating press (middle button, Alt held, or a press on the svg or on
    the background) a pointer move shifts [translate] by the pointer
    displacement, keeps the scale, and leaves the placed components alone,
    also when a component is marked as being dragged, and whatever the
    listener registered before the press had closed over: the press turns
    [isPanning] from false to true, a dependency of the effect, so the
    listener that receives the move holds the [panStart] of this press. *)
Theorem pan_follows_pointer (rect : option (Q * Q)) (e0 e1 : MouseEvent)
    (v : Viewer) :
  vs_isPanning (current v) = false ->
  ev_button e0 = 1%Z \/ ev_altKey e0 = true \/ ev_targetTag e0 = "svg" \/
  ev_targetId e0 = "cad-bg" ->
  let v1 := mouseDownEvent e0 v in
  let st2 := listenerMouseMove rect e1 (listener v1) (current v1) in
  listener v1 = current v1 /\
  fst (translate (vs_view st2)) ==
    fst (translate (vs_view (current v))) + (ev_clientX e1 - ev_clientX e0) /\
  snd (translate (vs_view st2)) ==
    snd (translate (vs_view (current v))) + (ev_clientY e1 - ev_clientY e0) /\
  scale (vs_view st2) = scale (vs_view (current v)) /\
  vs_placed st2 = vs_placed (current v) /\
  vs_isPanning st2 = true.
Proof.
  intros Hpan Htrigger.
  assert (Hcond : (ev_button e0 =? 1)%Z || ev_altKey e0
                  || String.eqb (ev_targetTag e0) "svg"
                  || String.eqb (ev_targetId e0) "cad-bg" = true).
  { destruct Htrigger as [H|[H|[H|H]]]; rewrite H; simpl;
      rewrite ?orb_true_r; reflexivity. }
  unfold mouseDownEvent, handleMouseDown. rewrite Hcond. cbv zeta.
  cbn [current listener vs_isPanning]. rewrite Hpan. cbn [Bool.eqb].
  unfold listenerMouseMove.
  cbn [vs_isPanning vs_view vs_placed vs_panStart scale translate fst snd].
  repeat split; ring.
Qed.

Lemma pan_follows_pointer_witness :
  let st := {| vs_view := unitView; vs_placed := pinnedPlant; vs_height := 1000;
               vs_isPanning := false; vs_panStart := (0, 0);
               vs_draggingId := Some "pv"; vs_dragOffset := (0, 0);
               vs_selectedId := None |} in
  let v1 := mouseDownEvent (mkMouseEvent 1 false "rect" "" 10 10)
                           {| current := st; listener := st |} in
  vs_placed (listenerMouseMove None (mkMouseEvent 1 false "rect" "" 40 50)
               (listener v1) (current v1)) = pinnedPlant.
Proof.
  intros st v1.
  apply (pan_follows_pointer None (mkMouseEvent 1 false "rect" "" 10 10)
           (mkMouseEvent 1 false "rect" "" 40 50)
           {| current := st; listener := st |}); [reflexivity |].
  left. reflexivity.
Defined.

(** A second press while a pan is going on changes no dependency of the
    effect: the listener keeps the [panStart] of the first press, and the
    next move places [translate] from there. *)
Lemma second_press_keeps_pan_start :
  let st := {| vs_view := unitView; vs_placed := pinnedPlant; vs_height := 1000;
               vs_isPanning := true; vs_panStart := (0, 0);
               vs_draggingId := None; vs_dragOffset := (0, 0);
               vs_selectedId := None |} in
  let v1 := mouseDownEvent (mkMouseEvent 1 false "rect" "" 10 10)
                           {| current := st; listener := st |} in
  vs_panStart (current v1) = (10 - 0, 10 - 0) /\
  vs_panStart (listener v1) = (0, 0) /\
  translate (vs_view (listenerMouseMove None (mkMouseEvent 1 false "rect" "" 40 50)
                        (listener v1) (current v1))) = (40 - 0, 50 - 0).
Proof. repeat split. Qed.

Lemma findComponent_first components c :
  NoDup (map c_id components) -> In c components ->
  findComponent components (c_id c) = Some c.
Proof.
  unfold findComponent. induction components as [|a rest IH]; simpl; [done |].
  intros Hnodup [->|Hin].
  - by rewrite String.eqb_refl.
  - apply NoDup_cons in Hnodup as [Hfresh Hrest].
    destruct (String.eqb_spec (c_id a) (c_id c)) as [Heq|Hne]; [| by apply IH].
    exfalso. apply Hfresh. rewrite Heq. apply list_elem_of_In. by apply in_map.
Qed.

Lemma commitPosition_placed placed c c' :
  NoDup (map c_id placed) -> In c' placed -> reannotates c c' ->
  commitPosition placed c = c'.
Proof.
  intros Hnodup Hin (Hid & Htype & Hlabel & Hspecs & _).
  unfold commitPosition. rewrite <- Hid, (findComponent_first placed c' Hnodup Hin).
  destruct c' as [id' t' l' s' x' y']. simpl in *. by subst.
Qed.

Lemma commitPosition_all placed components tail :
  NoDup (map c_id placed) -> Forall2 reannotates components tail ->
  (forall c', In c' tail -> In c' placed) ->
  map (commitPosition placed) components = tail.
Proof.
  intros Hnodup Hall. induction Hall as [|c c' cs cs' Hc _ IH]; intros Htail; simpl;
    [done |].
  rewrite (commitPosition_placed placed c c' Hnodup) by auto using in_eq.
  f_equal. apply IH. intros c0 Hc0. apply Htail. by right.
Qed.

(** X8.  Releasing a drag commits the placed diagram and the commit is a fixed
    point of the layout.  When the placed list re-annotates the components of
    the document (as a layout result and every drag on it do) and ids are
    unique, the release hands [onSystemUpdate] the document with exactly the
    placed components, ends the drag and any pan, and the layout of the new
    document returns the placed components unchanged. *)
Theorem drag_release_commits_placed (data : SolarSystemData) (st : ViewerState)
    (dragged : string) (fuel : nat) :
  vs_draggingId st = Some dragged -> dragged <> "" ->
  NoDup (map c_id (sys_components data)) ->
  Forall2 reannotates (sys_components data) (vs_placed st) ->
  snd (handleGlobalMouseUp data true st) =
    Some {| sys_meta := sys_meta data; sys_components := vs_placed st;
            sys_connections := sys_connections data |} /\
  vs_draggingId (fst (handleGlobalMouseUp data true st)) = None /\
  vs_isPanning (fst (handleGlobalMouseUp data true st)) = false /\
  vs_placed (fst (handleGlobalMouseUp data true st)) = vs_placed st /\
  calculateSmartLayout fuel (vs_placed st) (sys_connections data) =
    Returns {| layoutedComponents := vs_placed st;
               totalHeight := Qmax MIN_CANVAS_HEIGHT (maxYOf (vs_placed st) + 200) |}.
Proof.
  intros Hdrag Hid Hnodup Hplaced.
  assert (Hids : map c_id (vs_placed st) = map c_id (sys_components data)).
  { induction Hplaced as [|c c' cs cs' (Hc & _) _ IH]; simpl; [done |].
    apply NoDup_cons in Hnodup as [_ Hrest]. by rewrite Hc, IH. }
  assert (Hnodup' : NoDup (map c_id (vs_placed st))) by (by rewrite Hids).
  assert (Hcommit : map (commitPosition (vs_placed st)) (sys_components data) =
                    vs_placed st)
    by (by apply commitPosition_all).
  unfold handleGlobalMouseUp. rewrite Hdrag. simpl truthy.
  replace (String.eqb dragged "") with false by (symmetry; by apply String.eqb_neq).
  simpl negb. cbv iota. cbn [fst snd vs_draggingId vs_isPanning vs_placed].
  rewrite Hcommit. split; [done |]. split; [done |].
  split; [by destruct (vs_isPanning st) |]. split; [done |].
  unfold calculateSmartLayout.
  replace (allHavePos (vs_placed st)) with true; [done |].
  symmetry. unfold allHavePos. apply forallb_forall. intros c' Hc'.
  clear Hcommit Hids Hnodup Hnodup'.
  induction Hplaced as [|c c'' cs cs' (_ & _ & _ & _ & [x Hx] & [y Hy]) _ IH];
    [destruct Hc' |].
  destruct Hc' as [<-|Hc']; [by rewrite Hx, Hy | by apply IH].
Qed.

Lemma drag_release_commits_placed_witness :
  let st := {| vs_view := unitView; vs_placed := pinnedPlant; vs_height := 1000;
               vs_isPanning := false; vs_panStart := (0, 0);
               vs_draggingId := Some "pv"; vs_dragOffset := (0, 0);
               vs_selectedId := Some "pv" |} in
  let data := {| sys_meta := sys_meta INITIAL_SYSTEM;
                 sys_components :=
                   [comp "pv" PV_ARRAY ["550W"] None None; comp "grid" GRID [] None None];
                 sys_connections := [wire "pv" "grid"] |} in
  snd (handleGlobalMouseUp data true st) =
    Some {| sys_meta := sys_meta data; sys_components := pinnedPlant;
            sys_connections := sys_connections data |}.
Proof.
  intros st data.
  apply (drag_release_commits_placed data st "pv" 0); [reflexivity | discriminate | |].
  - apply NoDup_cons_2; [| apply NoDup_cons_2; [| apply NoDup_nil_2]];
      intros Hin; apply list_elem_of_In in Hin; simpl in Hin; intuition discriminate.
  - repeat constructor; simpl; eauto.
Defined.

(** ** Export frame *)

Lemma widen_fold (l : list SolarComponent) (a b c d minX minY maxX maxY : Q) :
  fold_left widen l (a, b, c, d) = (minX, minY, maxX, maxY) ->
  (minX <= a /\ minY <= b /\ c <= maxX /\ d <= maxY) /\
  (forall k, In k l ->
     minX <= frameX k /\ frameX k <= maxX /\ minY <= frameY k /\ frameY k <= maxY) /\
  ((minX = a \/ exists k, In k l /\ frameX k = minX) /\
   (maxX = c \/ exists k, In k l /\ frameX k = maxX) /\
   (minY = b \/ exists k, In k l /\ frameY k = minY) /\
   (maxY = d \/ exists k, In k l /\ frameY k = maxY)).
Proof.
  revert a b c d. induction l as [|k rest IH]; intros a b c d; simpl.
  - intros [= <- <- <- <-]. repeat split; try apply Qle_refl; try tauto.
  - fold (frameX k) (frameY k). intros Hfold.
    apply IH in Hfold as ((Ha & Hb & Hc & Hd) & Hall & Hmin & Hmax & Hminy & Hmaxy).
    assert (Ea : (if Qltb (frameX k) a then frameX k else a) <= a /\
                 (if Qltb (frameX k) a then frameX k else a) <= frameX k).
    { destruct (Qltb (frameX k) a) eqn:E.
      - apply Qltb_lt in E. split; [by apply Qlt_le_weak | apply Qle_refl].
      - apply Qltb_ge in E. split; [apply Qle_refl | done]. }
    assert (Eb : (if Qltb (frameY k) b then frameY k else b) <= b /\
                 (if Qltb (frameY k) b then frameY k else b) <= frameY k).
    { destruct (Qltb (frameY k) b) eqn:E.
      - apply Qltb_lt in E. split; [by apply Qlt_le_weak | apply Qle_refl].
      - apply Qltb_ge in E. split; [apply Qle_refl | done]. }
    assert (Ec : c <= (if Qltb c (frameX k) then frameX k else c) /\
                 frameX k <= (if Qltb c (frameX k) then frameX k else c)).
    { destruct (Qltb c (frameX k)) eqn:E.
      - apply Qltb_lt in E. split; [by apply Qlt_le_weak | apply Qle_refl].
      - apply Qltb_ge in E. split; [apply Qle_refl | done]. }
    assert (Ed : d <= (if Qltb d (frameY k) then frameY k else d) /\
                 frameY k <= (if Qltb d (frameY k) then frameY k else d)).
    { destruct (Qltb d (frameY k)) eqn:E.
      - apply Qltb_lt in E. split; [by apply Qlt_le_weak | apply Qle_refl].
      - apply Qltb_ge in E. split; [apply Qle_refl | done]. }
    split; [| split].
    + repeat split; eapply Qle_trans; eauto; tauto.
    + intros k0 [<-|Hin]; [| by apply Hall].
      repeat split; eapply Qle_trans; eauto; tauto.
    + repeat split.
      * destruct Hmin as [->|(k0 & Hk0 & Hx)]; [| right; exists k0; auto].
        destruct (Qltb (frameX k) a); [right; exists k; auto | by left].
      * destruct Hmax as [->|(k0 & Hk0 & Hx)]; [| right; exists k0; auto].
        destruct (Qltb c (frameX k)); [right; exists k; auto | by left].
      * destruct Hminy as [->|(k0 & Hk0 & Hx)]; [| right; exists k0; auto].
        destruct (Qltb (frameY k) b); [right; exists k; auto | by left].
      * destruct Hmaxy as [->|(k0 & Hk0 & Hx)]; [| right; exists k0; auto].
        destruct (Qltb d (frameY k)); [right; exists k; auto | by left].
Qed.

(** X10.  The export frame holds every placed component with a margin of 150
    on each side, is at least 300 wide and high, and is tight: some component
    sits exactly 150 inside each of its four sides. *)
Theorem export_frame_contains (placed : list SolarComponent) (c : SolarComponent) :
  In c placed ->
  let b := exportBounds placed in
  (b_x b + 150 <= frameX c /\ frameX c <= b_x b + b_w b - 150 /\
   b_y b + 150 <= frameY c /\ frameY c <= b_y b + b_h b - 150) /\
  (300 <= b_w b /\ 300 <= b_h b) /\
  ((exists k, In k placed /\ frameX k == b_x b + 150) /\
   (exists k, In k placed /\ frameX k == b_x b + b_w b - 150) /\
   (exists k, In k placed /\ frameY k == b_y b + 150) /\
   (exists k, In k placed /\ frameY k == b_y b + b_h b - 150)).
Proof.
  destruct placed as [|first rest]; [done |]. intros Hin. unfold exportBounds.
  fold (frameX first) (frameY first).
  destruct (fold_left widen rest (frameX first, frameY first, frameX first, frameY first))
    as [[[minX minY] maxX] maxY] eqn:Hfold.
  apply widen_fold in Hfold as ((Ha & Hb & Hc & Hd) & Hall & Hmin & Hmax & Hminy & Hmaxy).
  cbv zeta. cbn [b_x b_y b_w b_h].
  assert (Hc0 : minX <= frameX c /\ frameX c <= maxX /\
                minY <= frameY c /\ frameY c <= maxY).
  { destruct Hin as [<-|Hin]; [tauto | by apply Hall]. }
  assert (Ex1 : minX - 150 + 150 == minX) by ring.
  assert (Ex2 : minX - 150 + (maxX - minX + 150 * 2) - 150 == maxX) by ring.
  assert (Ey1 : minY - 150 + 150 == minY) by ring.
  assert (Ey2 : minY - 150 + (maxY - minY + 150 * 2) - 150 == maxY) by ring.
  rewrite Ex1, Ex2, Ey1, Ey2.
  split; [tauto |]. split.
  - split.
    + assert (E : 300 == 0 + 150 * 2) by ring. rewrite E.
      apply Qplus_le_l. rewrite <- (Qplus_opp_r minX).
      apply Qplus_le_l. eapply Qle_trans; [apply Ha | apply Hc].
    + assert (E : 300 == 0 + 150 * 2) by ring. rewrite E.
      apply Qplus_le_l. rewrite <- (Qplus_opp_r minY).
      apply Qplus_le_l. eapply Qle_trans; [apply Hb | apply Hd].
  - repeat split.
    + destruct Hmin as [->|(k & Hk & <-)];
        [exists first | exists k]; (split; [auto using in_eq, in_cons |]);
        rewrite ?Ex1, ?Ex2, ?Ey1, ?Ey2; reflexivity.
    + destruct Hmax as [->|(k & Hk & <-)];
        [exists first | exists k]; (split; [auto using in_eq, in_cons |]);
        rewrite ?Ex1, ?Ex2, ?Ey1, ?Ey2; reflexivity.
    + destruct Hminy as [->|(k & Hk & <-)];
        [exists first | exists k]; (split; [auto using in_eq, in_cons |]);
        rewrite ?Ex1, ?Ex2, ?Ey1, ?Ey2; reflexivity.
    + destruct Hmaxy as [->|(k & Hk & <-)];
        [exists first | exists k]; (split; [auto using in_eq, in_cons |]);
        rewrite ?Ex1, ?Ex2, ?Ey1, ?Ey2; reflexivity.
Qed.

Lemma export_frame_contains_witness :
  b_x (exportBounds pinnedPlant) + 150 <= 1000 /\
  1000 <= b_x (exportBounds pinnedPlant) + b_w (exportBounds pinnedPlant) - 150.
Proof.
  destruct (export_frame_contains pinnedPlant (comp "grid" GRID [] (Some 1000) (Some 900)))
    as [(Hleft & Hright & _) _]; [right; by left |].
  split; [exact Hleft | exact Hright].
Defined.

(** ** Connections as drawn *)

(** Whenever the layout function returns, its result lists the ids of the
    input and every placed component has both coordinates. *)
Lemma layout_places_all fuel components connections r :
  calculateSmartLayout fuel components connections = Returns r ->
  map c_id (layoutedComponents r) = map c_id components /\
  Forall (fun c' => is_Some (c_x c') /\ is_Some (c_y c')) (layoutedComponents r).
Proof.
  unfold calculateSmartLayout. destruct (allHavePos components) eqn:Hall.
  - intros [= <-]. simpl. split; [done | by apply allHavePos_spec].
  - destruct (computePositions fuel components connections) as [[pl cursor]| |];
      simpl; try done.
    intros [= <-]. simpl. split; [rewrite map_map; by apply map_ext |].
    apply Forall_forall. intros c' Hc'.
    apply list_elem_of_In, in_map_iff in Hc' as (c & <- & _). simpl. eauto.
Qed.

Lemma edgeGeometry_midpoint fromNode toNode fx fy tx ty :
  c_x fromNode = Some fx -> c_y fromNode = Some fy ->
  c_x toNode = Some tx -> c_y toNode = Some ty ->
  exists g, edgeGeometry fromNode toNode = Returns g /\
    e_x1 g = fx + ICON_OFFSET /\ e_y1 g = fy /\
    e_x2 g = tx - ICON_OFFSET /\ e_y2 g = ty /\
    e_cp1y g = e_y1 g /\ e_cp2y g = e_y2 g /\
    e_cp1x g - e_x1 g == Qmax (Qabs (e_x2 g - e_x1 g) * 0.5) 60 /\
    60 <= e_cp1x g - e_x1 g /\ e_cp1x g - e_x1 g == e_x2 g - e_cp2x g /\
    e_midX g == (e_x1 g + e_x2 g) / 2 /\ e_midY g == (e_y1 g + e_y2 g) / 2.
Proof.
  intros Hfx Hfy Htx Hty. unfold edgeGeometry. rewrite Hfx, Hfy, Htx, Hty.
  cbn [asserted mbind outcome_bind]. cbv zeta. eexists. split; [reflexivity |].
  cbn [e_x1 e_y1 e_x2 e_y2 e_cp1x e_cp1y e_cp2x e_cp2y e_midX e_midY].
  set (offset := Qmax (Qabs (tx - ICON_OFFSET - (fx + ICON_OFFSET)) * 0.5) 60).
  assert (E : fx + ICON_OFFSET + offset - (fx + ICON_OFFSET) == offset) by ring.
  repeat split.
  - exact E.
  - rewrite E. apply Q.le_max_r.
  - ring.
  - field.
  - field.
Qed.

(** X11.  On a layout result every connection between two components of the
    input is drawn (no coordinate is missing), as a curve that leaves the
    source 35 to its right and enters the target 35 to its left with
    horizontal tangents, its two control points at the same distance
    max(|x2 - x1| / 2, 60), hence at least 60, from the end points; the label
    anchor is the midpoint of the two end points. *)
Theorem connection_drawn_at_midpoint (fuel : nat) (components : list SolarComponent)
    (connections : list Connection) (r : LayoutResult) (conn : Connection) :
  calculateSmartLayout fuel components connections = Returns r ->
  is_Some (findComponent components (conn_from conn)) ->
  is_Some (findComponent components (conn_to conn)) ->
  exists fromNode toNode fx fy tx ty g,
    findComponent (layoutedComponents r) (conn_from conn) = Some fromNode /\
    findComponent (layoutedComponents r) (conn_to conn) = Some toNode /\
    c_x fromNode = Some fx /\ c_y fromNode = Some fy /\
    c_x toNode = Some tx /\ c_y toNode = Some ty /\
    renderConnection (layoutedComponents r) conn = Some (Returns g) /\
    e_x1 g = fx + ICON_OFFSET /\ e_y1 g = fy /\
    e_x2 g = tx - ICON_OFFSET /\ e_y2 g = ty /\
    e_cp1y g = e_y1 g /\ e_cp2y g = e_y2 g /\
    e_cp1x g - e_x1 g == Qmax (Qabs (e_x2 g - e_x1 g) * 0.5) 60 /\
    60 <= e_cp1x g - e_x1 g /\ e_cp1x g - e_x1 g == e_x2 g - e_cp2x g /\
    e_midX g == (e_x1 g + e_x2 g) / 2 /\ e_midY g == (e_y1 g + e_y2 g) / 2.
Proof.
  intros Hr Hfrom Hto. destruct (layout_places_all _ _ _ _ Hr) as [Hids Hall].
  assert (Hfind : forall id, is_Some (findComponent components id) ->
            exists node vx vy, findComponent (layoutedComponents r) id = Some node /\
                               c_x node = Some vx /\ c_y node = Some vy).
  { intros id Hid. apply findComponent_is_Some in Hid. rewrite <- Hids in Hid.
    apply findComponent_is_Some in Hid as [node Hnode]. exists node.
    destruct (findComponent_Some _ _ _ Hnode) as [Hin _].
    rewrite Forall_forall in Hall.
    destruct (Hall node (proj2 (list_elem_of_In _ _) Hin)) as [[vx Hx] [vy Hy]]. eauto. }
  destruct (Hfind _ Hfrom) as (fromNode & fx & fy & Hf & Hfx & Hfy).
  destruct (Hfind _ Hto) as (toNode & tx & ty & Ht & Htx & Hty).
  destruct (edgeGeometry_midpoint fromNode toNode fx fy tx ty Hfx Hfy Htx Hty)
    as (g & Hg & Hrest).
  exists fromNode, toNode, fx, fy, tx, ty, g.
  repeat (split; [done |]). split; [| exact Hrest].
  unfold renderConnection, connectionEndpoints. by rewrite Hf, Ht, Hg.
Qed.

Lemma connection_drawn_at_midpoint_witness :
  exists g, renderConnection
              [comp "grid" GRID [] (Some 1000) (Some 160);
               comp "inv" INVERTER [] (Some 460) (Some 160)]
              (wire "inv" "grid") = Some (Returns g) /\
            e_x1 g = 460 + ICON_OFFSET /\ e_x2 g = 1000 - ICON_OFFSET /\
            e_cp1x g - e_x1 g == 235 /\
            e_midX g == (e_x1 g + e_x2 g) / 2.
Proof.
  destruct (connection_drawn_at_midpoint 3 ghostPlant [wire "inv" "grid"]
              {| layoutedComponents :=
                   [comp "grid" GRID [] (Some 1000) (Some 160);
                    comp "inv" INVERTER [] (Some 460) (Some 160)];
                 totalHeight := 1000 |} (wire "inv" "grid"))
    as (fromNode & toNode & fx & fy & tx & ty & g & H);
    [vm_compute; reflexivity | by eexists | by eexists |].
  destruct H as (Hfrom & Hto & Hfx & Hfy & Htx & Hty & Hg & Hx1 & _ & Hx2 & _ & _ & _ &
                 Hoffset & _ & _ & Hmid & _).
  vm_compute in Hfrom, Hto. injection Hfrom as <-. injection Hto as <-.
  injection Hfx as <-. injection Htx as <-.
  exists g. split; [exact Hg |]. split; [exact Hx1 |]. split; [exact Hx2 |].
  split; [| exact Hmid].
  rewrite Hoffset, Hx1, Hx2. vm_compute. reflexivity.
Defined.

(** ** Property panel *)

Lemma splitLines_nonempty (value : string) : splitLines value <> [].
Proof.
  destruct value as [|ch rest]; simpl; [done |].
  destruct (Ascii.eqb ch newline); [done |]. by destruct (splitLines rest).
Qed.

Lemma joinLines_cons (line : string) (rest : list string) :
  rest <> [] ->
  joinLines (line :: rest) = String.append line (String newline (joinLines rest)).
Proof. by destruct rest. Qed.

Lemma splitLines_append (line rest : string) :
  hasNewline line = false ->
  splitLines (String.append line (String newline rest)) = line :: splitLines rest.
Proof.
  induction line as [|ch line IH]; simpl.
  - done.
  - intros Hline. apply orb_false_iff in Hline as [Hch Hline].
    rewrite Hch, (IH Hline). reflexivity.
Qed.

Lemma splitLines_single (line : string) :
  hasNewline line = false -> splitLines line = [line].
Proof.
  induction line as [|ch line IH]; simpl; [done |].
  intros Hline. apply orb_false_iff in Hline as [Hch Hline].
  by rewrite Hch, (IH Hline).
Qed.

(** X12.  The specs text of the property panel round-trips: splitting any text
    at line breaks and joining the lines gives the text back, and joining a
    non-empty list of specs free of line breaks and splitting the text gives
    the specs back.  (The empty list is the exception: its text is empty and
    splits into one empty line.) *)
Theorem specs_text_round_trip (specs : list string) :
  specs <> [] -> Forall (fun line => hasNewline line = false) specs ->
  splitLines (joinLines specs) = specs /\
  (forall value : string, joinLines (splitLines value) = value) /\
  splitLines (joinLines []) = [EmptyString].
Proof.
  intros Hne Hlines. split; [| split; [| reflexivity]].
  - induction Hlines as [|line rest Hline Hrest IH]; [done |].
    destruct rest as [|line' rest'].
    + simpl. by apply splitLines_single.
    + rewrite joinLines_cons by done. rewrite splitLines_append by done.
      f_equal. by apply IH.
  - induction value as [|ch rest IH]; simpl; [done |].
    destruct (Ascii.eqb_spec ch newline) as [->|Hch].
    + rewrite joinLines_cons by apply splitLines_nonempty. simpl. by rewrite IH.
    + destruct (splitLines rest) as [|line lines] eqn:E;
        [by destruct (splitLines_nonempty rest) |].
      destruct lines as [|line' lines'].
      * simpl in *. by rewrite IH.
      * rewrite joinLines_cons by done. rewrite joinLines_cons in IH by done.
        by rewrite <- IH.
Qed.

Lemma specs_text_round_trip_witness :
  splitLines (joinLines ["550W Monocrystalline"; "20 Strings"]) =
  ["550W Monocrystalline"; "20 Strings"].
Proof.
  apply (specs_text_round_trip ["550W Monocrystalline"; "20 Strings"]);
    [discriminate | repeat constructor].
Defined.

(** X13.  An edit in the property panel changes the selected component's label
    or specs and nothing else: ids, types and coordinates of all components
    are kept, components with another id are untouched, an edited specs list
    is never empty (the node height is at least 115 afterwards), and on a
    fully placed diagram the next layout keeps every component where it is. *)
Theorem property_edit_keeps_positions (selectedId : option string)
    (field : PropertyField) (value : string)
    (components components' : list SolarComponent)
    (fuel : nat) (connections : list Connection) :
  handlePropertyChange selectedId true field value components = Some components' ->
  (exists selected, selectedId = Some selected /\ selected <> "" /\
     Forall2 (fun c c' =>
                c_id c' = c_id c /\ c_type c' = c_type c /\
                c_x c' = c_x c /\ c_y c' = c_y c /\
                (c_id c <> selected -> c' = c) /\
                (c_id c = selected -> field = FieldSpecs ->
                 c_specs c' = splitLines value /\ c_label c' = c_label c /\
                 115 <= getNodeHeight c') /\
                (c_id c = selected -> field = FieldLabel ->
                 c_label c' = value /\ c_specs c' = c_specs c))
             components components') /\
  (allHavePos components = true ->
   calculateSmartLayout fuel components' connections =
     Returns {| layoutedComponents := components';
                totalHeight := Qmax MIN_CANVAS_HEIGHT (maxYOf components' + 200) |}).
Proof.
  unfold handlePropertyChange. destruct selectedId as [selected|]; [| done].
  simpl. destruct (String.eqb_spec selected "") as [->|Hsel]; [done |].
  simpl. intros [= <-].
  assert (Hall : Forall2 (fun c c' =>
                c_id c' = c_id c /\ c_type c' = c_type c /\
                c_x c' = c_x c /\ c_y c' = c_y c /\
                (c_id c <> selected -> c' = c) /\
                (c_id c = selected -> field = FieldSpecs ->
                 c_specs c' = splitLines value /\ c_label c' = c_label c /\
                 115 <= getNodeHeight c') /\
                (c_id c = selected -> field = FieldLabel ->
                 c_label c' = value /\ c_specs c' = c_specs c))
             components
             (map (fun c =>
                 if String.eqb (c_id c) selected then
                   match field with
                   | FieldSpecs =>
                       {| c_id := c_id c; c_type := c_type c; c_label := c_label c;
                          c_specs := splitLines value; c_x := c_x c; c_y := c_y c |}
                   | FieldLabel =>
                       {| c_id := c_id c; c_type := c_type c; c_label := value;
                          c_specs := c_specs c; c_x := c_x c; c_y := c_y c |}
                   end
                 else c) components)).
  { induction components as [|c cs IH]; simpl; constructor; [| exact IH].
    destruct (String.eqb_spec (c_id c) selected) as [Heq|Hne].
    - destruct field; simpl; repeat split; try done.
      intros. unfold getNodeHeight. simpl.
      pose proof (splitLines_nonempty value) as Hne.
      destruct (splitLines value) as [|l ls]; [done |].
      unfold BASE_NODE_HEIGHT, Qle. simpl. lia.
    - repeat split; done. }
  split; [exists selected; split; [done |]; split; [done | exact Hall] |].
  intros Hpos. unfold calculateSmartLayout.
  match goal with |- (if allHavePos ?l then _ else _) = _ =>
    replace (allHavePos l) with true; [done |] end.
  symmetry. rewrite <- Hpos. unfold allHavePos.
  induction Hall as [|c c' cs cs' (_ & _ & Hx & Hy & _) _ IH]; simpl; [done |].
  rewrite Hx, Hy. f_equal. apply IH.
  simpl in Hpos. by apply andb_true_iff in Hpos as [_ ?].
Qed.

Lemma property_edit_keeps_positions_witness :
  exists components',
    handlePropertyChange (Some "pv") true FieldSpecs "" pinnedPlant = Some components' /\
    calculateSmartLayout 0 components' [] =
      Returns {| layoutedComponents := components';
                 totalHeight := Qmax MIN_CANVAS_HEIGHT (maxYOf components' + 200) |}.
Proof.
  eexists. split; [reflexivity |].
  eapply (property_edit_keeps_positions (Some "pv") FieldSpecs "" pinnedPlant _ 0 []);
    reflexivity.
Defined.

(** ** Subtree heights obey their recurrence *)

Lemma Forall2_lookup_weaken (m m' : gmap string Q) (l : list string) (hs : list Q) :
  m ⊆ m' -> Forall2 (fun c hc => m !! c = Some hc) l hs ->
  Forall2 (fun c hc => m' !! c = Some hc) l hs.
Proof.
  intros Hsub Hall. induction Hall; constructor; [| done].
  by eapply lookup_weaken.
Qed.

Lemma measured_insert components children_of (m : gmap string Q) n hs :
  measured components children_of m -> m !! n = None ->
  Forall2 (fun c hc => m !! c = Some hc) (default [] (children_of !! n)) hs ->
  measured components children_of
    (<[n := match default [] (children_of !! n) with
            | [] => ownHeight components n
            | _ :: _ => Qmax (ownHeight components n) (fold_left Qplus hs 0)
            end]> m).
Proof.
  intros Hm Hfresh Hhs k h. destruct (decide (n = k)) as [<-|Hne].
  - rewrite lookup_insert_eq. intros [= <-]. exists hs. split; [| done].
    eapply Forall2_lookup_weaken; [| exact Hhs]. by apply insert_subseteq.
  - rewrite lookup_insert_ne by done. intros Hk.
    destruct (Hm k h Hk) as (hs' & Hhs' & Hh). exists hs'. split; [| done].
    eapply Forall2_lookup_weaken; [| exact Hhs']. by apply insert_subseteq.
Qed.

Section Measurement.
Variable components : list SolarComponent.
Variable children_of : gmap string (list string).
Variable rank : string -> nat.
Hypothesis acyclic : ranked children_of rank.

Lemma sumHeights_measures calc children sum m total m' :
  (forall c, In c children -> measures components children_of rank calc c) ->
  sumHeights calc children sum m = Returns (total, m') ->
  measured components children_of m ->
  measured components children_of m' /\ m ⊆ m' /\
  (exists hs, Forall2 (fun c hc => m' !! c = Some hc) children hs /\
              total = fold_left Qplus hs sum) /\
  (forall k, m !! k = None -> is_Some (m' !! k) ->
     exists c, In c children /\ (rank k <= rank c)%nat).
Proof.
  revert sum m. induction children as [|c rest IH]; intros sum m Hcalc; simpl.
  - intros [= <- <-] Hm. repeat split; [done | done | by exists [] |].
    intros k Hk [v Hv]. congruence.
  - destruct (calc c m) as [[h m1]| |] eqn:E; simpl; try done.
    intros Hrest Hm.
    destruct (Hcalc c (or_introl eq_refl) m h m1 E Hm) as (Hm1 & Hsub1 & Hc & Hnew1).
    destruct (IH (sum + h) m1 (fun c0 Hc0 => Hcalc c0 (or_intror Hc0)) Hrest Hm1)
      as (Hm' & Hsub' & (hs & Hhs & Htotal) & Hnew').
    repeat split; [done | by etrans | |].
    + exists (h :: hs). split; [| done].
      constructor; [by eapply lookup_weaken | done].
    + intros k Hk Hk'. destruct (m1 !! k) as [v|] eqn:Ek.
      * exists c. split; [by left |]. apply Hnew1; eauto.
      * destruct (Hnew' k Ek Hk') as (c0 & Hc0 & Hle). exists c0. split; [by right | done].
Qed.

Lemma calcHeight_measures fuel nodeId :
  measures components children_of rank (calcHeight components children_of fuel) nodeId.
Proof.
  revert nodeId. induction fuel as [|fuel IH]; intros nodeId m h m'; [done |].
  rewrite calcHeight_unfold. fold (ownHeight components nodeId).
  destruct (m !! nodeId) as [h0|] eqn:Hmemo.
  { intros [= <- <-] Hm. repeat split; [done | done | done |].
    intros k Hk [v Hv]. congruence. }
  pose proof (measured_insert components children_of) as Hins.
  destruct (default [] (children_of !! nodeId)) as [|child rest] eqn:Hch.
  - intros [= <- <-] Hm. repeat split.
    + specialize (Hins m nodeId [] Hm Hmemo). rewrite Hch in Hins.
      apply Hins. constructor.
    + by apply insert_subseteq.
    + apply lookup_insert_eq.
    + intros k Hk [v Hv]. destruct (decide (nodeId = k)) as [<-|Hne]; [done |].
      rewrite lookup_insert_ne in Hv by done. congruence.
  - destruct (sumHeights (calcHeight components children_of fuel)
                         (child :: rest) 0 m) as [[total m1]| |] eqn:E;
      cbn [mbind outcome_bind]; try done.
    cbv zeta. intros [= <- <-] Hm.
    destruct (sumHeights_measures _ _ _ _ _ _ (fun c _ => IH c) E Hm)
      as (Hm1 & Hsub & (hs & Hhs & ->) & Hnew).
    assert (Hfresh : m1 !! nodeId = None).
    { destruct (m1 !! nodeId) as [v|] eqn:Ev; [| done]. exfalso.
      destruct (Hnew nodeId Hmemo (ex_intro _ v Ev)) as (c & Hc & Hle).
      assert (Hlt : (rank c < rank nodeId)%nat).
      { destruct (children_of !! nodeId) as [l|] eqn:El; [| done].
        simpl in Hch. subst l. eapply acyclic; eauto. }
      lia. }
    repeat split.
    + specialize (Hins m1 nodeId hs Hm1 Hfresh). rewrite Hch in Hins. by apply Hins.
    + etrans; [exact Hsub | by apply insert_subseteq].
    + apply lookup_insert_eq.
    + intros k Hk [v Hv]. destruct (decide (nodeId = k)) as [<-|Hne]; [done |].
      rewrite lookup_insert_ne in Hv by done.
      destruct (Hnew k Hk (ex_intro _ v Hv)) as (c & Hc & Hle).
      assert (Hlt : (rank c < rank nodeId)%nat).
      { destruct (children_of !! nodeId) as [l|] eqn:El; [| done].
        simpl in Hch. subst l. eapply acyclic; eauto. }
      lia.
Qed.

Lemma calcRootHeights_measured fuel roots m m' :
  forEachM (fun subtreeHeights r =>
              '(_, subtreeHeights') ←
                calcHeight components children_of fuel (c_id r) subtreeHeights;
              Returns subtreeHeights') roots m = Returns m' ->
  measured components children_of m -> measured components children_of m'.
Proof.
  revert m. induction roots as [|root rest IH]; intros m; simpl.
  - by intros [= <-].
  - destruct (calcHeight components children_of fuel (c_id root) m)
      as [[h m1]| |] eqn:E; simpl; try done.
    intros Hrest Hm. apply (IH m1 Hrest).
    by destruct (calcHeight_measures fuel (c_id root) m h m1 E Hm).
Qed.
End Measurement.

Lemma ownHeight_base components n : BASE_NODE_HEIGHT <= ownHeight components n.
Proof.
  unfold ownHeight. destruct (findComponent components n) as [node|];
    [| apply Qle_refl].
  unfold getNodeHeight, BASE_NODE_HEIGHT, Qle. simpl. lia.
Qed.

(** X14.  With children lists free of cycles the memoised subtree heights obey
    the recurrence they are meant to compute: the height recorded for a node
    is its own height (100 plus 15 per spec line, 100 for an unknown id) when
    it has no children, and else the larger of its own height and the sum of
    the heights recorded for its children.  So a band is never lower than the
    node's own height, nor than the stack of its children's bands. *)
Theorem heights_obey_recurrence (fuel : nat) (components : list SolarComponent)
    (connections : list Connection) (rank : string -> nat)
    (heights : gmap string Q) :
  let forest := buildForest components connections in
  ranked (childrenMap forest) rank ->
  calcRootHeights components (childrenMap forest) fuel (rootsOf components forest) =
    Returns heights ->
  forall n h, heights !! n = Some h ->
    exists hs,
      Forall2 (fun c hc => heights !! c = Some hc)
              (default [] (childrenMap forest !! n)) hs /\
      h = match default [] (childrenMap forest !! n) with
          | [] => ownHeight components n
          | _ :: _ => Qmax (ownHeight components n) (fold_left Qplus hs 0)
          end /\
      BASE_NODE_HEIGHT <= h /\ ownHeight components n <= h /\
      (default [] (childrenMap forest !! n) <> [] -> fold_left Qplus hs 0 <= h).
Proof.
  intros forest Hranked Hcalc n h Hn.
  assert (Hm : measured components (childrenMap forest) heights).
  { eapply (calcRootHeights_measured components (childrenMap forest) rank Hranked);
      [exact Hcalc |].
    intros k v Hk. by rewrite lookup_empty in Hk. }
  destruct (Hm n h Hn) as (hs & Hhs & Hh). exists hs.
  split; [exact Hhs |]. split; [exact Hh |].
  pose proof (ownHeight_base components n) as Hbase.
  destruct (default [] (childrenMap forest !! n)) as [|child rest]; subst h.
  - split; [exact Hbase |]. split; [apply Qle_refl | done].
  - split; [eapply Qle_trans; [exact Hbase | apply Q.le_max_l] |].
    split; [apply Q.le_max_l |]. intros _. apply Q.le_max_r.
Qed.

Lemma heights_obey_recurrence_witness :
  calcRootHeights chainPlant (childrenMap (buildForest chainPlant chainWires)) 5
    (rootsOf chainPlant (buildForest chainPlant chainWires)) =
    Returns (<["acb" := 100]> (<["dcb" := 100]> (<["grid" := 100]> (<["inv" := 100]>
               (<["pv" := 100]> ∅))))) /\
  ownHeight chainPlant "grid" <= 100.
Proof.
  assert (Hcalc :
    calcRootHeights chainPlant (childrenMap (buildForest chainPlant chainWires)) 5
      (rootsOf chainPlant (buildForest chainPlant chainWires)) =
      Returns (<["acb" := 100]> (<["dcb" := 100]> (<["grid" := 100]> (<["inv" := 100]>
                 (<["pv" := 100]> ∅))))))
    by (vm_compute; reflexivity).
  split; [exact Hcalc |].
  destruct (heights_obey_recurrence 5 chainPlant chainWires
              (liftRank chainPlant
                 (fun id => if String.eqb id "grid" then 4%nat
                            else if String.eqb id "acb" then 3%nat
                            else if String.eqb id "inv" then 2%nat
                            else if String.eqb id "dcb" then 1%nat else 0%nat))
              (<["acb" := 100]> (<["dcb" := 100]> (<["grid" := 100]> (<["inv" := 100]>
                 (<["pv" := 100]> ∅))))))
    with (n := "grid") (h := 100) as (hs & _ & _ & _ & Hown & _).
  - apply forest_ranked.
    intros conn [<-|[<-|[<-|[<-|[]]]]] _ _; vm_compute; lia.
  - exact Hcalc.
  - vm_compute. reflexivity.
  - exact Hown.
Defined.

(** ** Columns, roots and canvas *)

Lemma columns_increase (t1 t2 : ComponentType) :
  (LEVEL_MAP t1 < LEVEL_MAP t2 -> snap (getLevelX t1) < snap (getLevelX t2)) /\
  (LEVEL_MAP t1 == LEVEL_MAP t2 -> snap (getLevelX t1) = snap (getLevelX t2)).
Proof.
  split; destruct t1, t2; intros H; vm_compute in H |- *; congruence.
Qed.

Lemma unplaced_not_all components i c :
  components !! i = Some c -> c_x c = None -> allHavePos components = false.
Proof.
  intros Hi Hx. unfold allHavePos. apply not_true_is_false. intros Hall.
  rewrite forallb_forall in Hall.
  assert (Hin : In c components)
    by (apply list_elem_of_In, list_elem_of_lookup; eauto).
  specialize (Hall c Hin). by rewrite Hx in Hall.
Qed.

(** X15.  Components without an own x are placed in the column of their rank.
    A component lacking x (the first with its id) that sits at or below a
    root of the forest is output, whenever the layout function returns, at
    x = Math.round((100 + rank * 180) / 20) * 20; the layout function does
    return whenever no cycle can be reached from a root; and these columns
    increase strictly with the rank: of two types the one with the higher
    rank is placed strictly further right. *)
Theorem unpinned_in_rank_column (components : list SolarComponent)
    (connections : list Connection) (i : nat) (c : SolarComponent) :
  components !! i = Some c ->
  findComponent components (c_id c) = Some c ->
  c_x c = None ->
  reachable components connections (c_id c) ->
  (forall rank, rankedBelowRoots components connections rank ->
     exists fuel0 r, forall fuel, (fuel0 <= fuel)%nat ->
       calculateSmartLayout fuel components connections = Returns r) /\
  (forall fuel r, calculateSmartLayout fuel components connections = Returns r ->
     exists c', layoutedComponents r !! i = Some c' /\
                c_x c' = Some (snap (getLevelX (c_type c)))) /\
  (forall t1 t2, LEVEL_MAP t1 < LEVEL_MAP t2 ->
     snap (getLevelX t1) < snap (getLevelX t2)).
Proof.
  intros Hi Hfirst Hx Hreach.
  pose proof (unplaced_not_all _ _ _ Hi Hx) as Hall.
  split; [| split; [| intros t1 t2; apply columns_increase]].
  - intros rank Hranked. apply layout_returns. right. by exists rank.
  - intros fuel r. unfold calculateSmartLayout. rewrite Hall.
    destruct (computePositions fuel components connections)
      as [[pl cursor]| |] eqn:Hpos; simpl; try discriminate.
    intros [= <-]. simpl.
    destruct (reachable_placed _ _ _ _ _ _ Hpos Hreach) as [p Hp];
      [by rewrite Hfirst |].
    destruct (computePositions_sound _ _ _ _ _ Hpos _ _ Hp) as (node & Hnode & Hpx & _).
    rewrite Hfirst in Hnode. injection Hnode as <-. rewrite Hx in Hpx. simpl in Hpx.
    eexists. rewrite lookup_map, Hi. simpl. split; [reflexivity |].
    unfold snapComponent. rewrite Hp. simpl. by rewrite Hpx.
Qed.

Lemma unpinned_in_rank_column_witness :
  exists fuel0 r c',
    (forall fuel, (fuel0 <= fuel)%nat ->
       calculateSmartLayout fuel ghostPlant [wire "inv" "grid"] = Returns r) /\
    layoutedComponents r !! 1%nat = Some c' /\
    c_x c' = Some (snap (getLevelX INVERTER)).
Proof.
  assert (Hreach : reachable ghostPlant [wire "inv" "grid"] "inv").
  { exists (comp "grid" GRID [] None None). split; [by left |].
    apply rtc_once. exists ["inv"]. split; [reflexivity | by left]. }
  destruct (unpinned_in_rank_column ghostPlant [wire "inv" "grid"] 1%nat
              (comp "inv" INVERTER [] None None) eq_refl eq_refl eq_refl Hreach)
    as (Hreturns & Hout & _).
  destruct (Hreturns (liftRank ghostPlant
                        (fun id => if String.eqb id "grid" then 1%nat else 0%nat)))
    as (fuel0 & r & Hr).
  { apply ranked_below_roots, forest_ranked.
    intros conn [<-|[]] _ _. vm_compute. lia. }
  destruct (Hout fuel0 r (Hr fuel0 (le_n fuel0))) as (c' & Hc' & Hcol).
  exists fuel0, r, c'. split; [exact Hr |]. split; [exact Hc' | exact Hcol].
Defined.

(** X16.  No non-null assertion of the layout function fails: whatever the
    input, every height that [assignPosition] reads with
    [subtreeHeights.get(id)!] was recorded by [calcHeight] before, so the
    layout never computes with [undefined]. *)
Theorem layout_assertions_hold (fuel : nat) (components : list SolarComponent)
    (connections : list Connection) :
  computePositions fuel components connections <> Undefined /\
  calculateSmartLayout fuel components connections <> Undefined.
Proof.
  split.
  - apply (computePositions_progress fuel components connections (fun _ => 0%nat)).
  - apply (layout_progress fuel components connections (fun _ => 0%nat)).
Qed.

(** The two maps of the forest agree after every connection. *)
Lemma addConnection_consistent components f conn :
  ((forall c p, parentMap f !! c = Some p ->
      exists l, childrenMap f !! p = Some l /\ In c l) /\
   (forall p l c, childrenMap f !! p = Some l -> In c l -> is_Some (parentMap f !! c))) ->
  (forall c p, parentMap (addConnection components f conn) !! c = Some p ->
     exists l, childrenMap (addConnection components f conn) !! p = Some l /\ In c l) /\
  (forall p l c, childrenMap (addConnection components f conn) !! p = Some l ->
     In c l -> is_Some (parentMap (addConnection components f conn) !! c)).
Proof.
  intros [Hparent Hchild]. unfold addConnection.
  destruct (orient components conn) as [p0 c0].
  destruct (childrenMap f !! p0) as [sib|] eqn:Hsib; [| done]. simpl. split.
  - intros c p. destruct (decide (c0 = c)) as [<-|Hne].
    + rewrite lookup_insert_eq. intros [= <-]. exists (sib ++ [c0]).
      split; [apply lookup_insert_eq | apply in_or_app; right; by left].
    + rewrite lookup_insert_ne by done. intros Hc.
      destruct (Hparent c p Hc) as (l & Hl & Hin).
      destruct (decide (p0 = p)) as [<-|Hp].
      * rewrite Hsib in Hl. injection Hl as <-. exists (sib ++ [c0]).
        split; [apply lookup_insert_eq | apply in_or_app; by left].
      * exists l. by rewrite lookup_insert_ne.
  - intros p l c Hl Hin.
    assert (Hold : is_Some (parentMap f !! c) -> is_Some (<[c0 := p0]> (parentMap f) !! c)).
    { intros H. destruct (decide (c0 = c)) as [<-|Hne];
        [rewrite lookup_insert_eq; eauto | by rewrite lookup_insert_ne]. }
    destruct (decide (p0 = p)) as [<-|Hp].
    + rewrite lookup_insert_eq in Hl. injection Hl as <-.
      apply in_app_or in Hin as [Hin|[<-|[]]]; [by eapply Hold, Hchild |].
      rewrite lookup_insert_eq. eauto.
    + rewrite lookup_insert_ne in Hl by done. by eapply Hold, Hchild.
Qed.

Lemma buildForest_consistent components connections :
  (forall c p, parentMap (buildForest components connections) !! c = Some p ->
     exists l, childrenMap (buildForest components connections) !! p = Some l /\ In c l) /\
  (forall p l c, childrenMap (buildForest components connections) !! p = Some l ->
     In c l -> is_Some (parentMap (buildForest components connections) !! c)).
Proof.
  induction connections as [|conn rest IH] using rev_ind.
  - unfold buildForest, emptyForest. simpl. split.
    + intros c p Hc. by rewrite lookup_empty in Hc.
    + intros p l c Hl Hin. rewrite initial_children_lookup, lookup_empty in Hl.
      destruct (findComponent components p); [| done]. injection Hl as <-. destruct Hin.
  - rewrite buildForest_snoc. by apply addConnection_consistent.
Qed.

(** X17.  The parent map and the children lists of the normaliser agree: the
    recorded parent of an id is a component and has the id in its children
    list, and an id has no recorded parent exactly when it occurs in no
    children list; so the roots are the components that are nobody's child. *)
Theorem topology_maps_consistent (components : list SolarComponent)
    (connections : list Connection) :
  let forest := buildForest components connections in
  (forall c p, parentMap forest !! c = Some p ->
     is_Some (findComponent components p) /\
     exists l, childrenMap forest !! p = Some l /\ In c l) /\
  (forall c, parentMap forest !! c = None <->
     forall p l, childrenMap forest !! p = Some l -> ~ In c l).
Proof.
  intros forest.
  destruct (buildForest_consistent components connections) as [Hparent Hchild].
  fold forest in Hparent, Hchild. split.
  - intros c p Hc. destruct (Hparent c p Hc) as (l & Hl & Hin).
    split; [| eauto]. apply (buildForest_keys components connections). eauto.
  - intros c. split.
    + intros Hnone p l Hl Hin. destruct (Hchild p l c Hl Hin) as [q Hq]. congruence.
    + intros Hnowhere. destruct (parentMap forest !! c) as [p|] eqn:Hp; [| done].
      destruct (Hparent c p Hp) as (l & Hl & Hin). by destruct (Hnowhere p l Hl).
Qed.

Lemma maxYOf_bounds (l : list SolarComponent) (start : Q) :
  let maxY := fold_left (fun maxY c =>
                           match c_y c with
                           | Some cy => if Qltb maxY cy then cy else maxY
                           | None => maxY
                           end) l start in
  start <= maxY /\ forall c vy, In c l -> c_y c = Some vy -> vy <= maxY.
Proof.
  revert start. induction l as [|a rest IH]; intros start; simpl.
  - split; [apply Qle_refl | tauto].
  - set (next := match c_y a with
                 | Some cy => if Qltb start cy then cy else start
                 | None => start
                 end).
    destruct (IH next) as [Hnext Hrest].
    assert (Hstep : start <= next /\ forall vy, c_y a = Some vy -> vy <= next).
    { subst next. destruct (c_y a) as [cy|]; [| split; [apply Qle_refl | done]].
      destruct (Qltb start cy) eqn:E.
      - apply Qltb_lt in E. split; [by apply Qlt_le_weak |].
        intros vy [= <-]. apply Qle_refl.
      - apply Qltb_ge in E. split; [apply Qle_refl |]. by intros vy [= <-]. }
    destruct Hstep as [Hstart Hown].
    split; [eapply Qle_trans; [exact Hstart | exact Hnext] |].
    intros c vy Hc Hy. destruct Hc as [Hc|Hc]; [subst c | by eapply Hrest].
    eapply Qle_trans; [by apply Hown | exact Hnext].
Qed.

(** X18.  On a fully placed diagram the canvas is high enough for every
    component: the total height returned is at least 1000 and at least 200
    more than the y of each component. *)
Theorem pinned_canvas_holds_all (fuel : nat) (components : list SolarComponent)
    (connections : list Connection) (c : SolarComponent) (vy : Q) :
  allHavePos components = true -> In c components -> c_y c = Some vy ->
  exists r, calculateSmartLayout fuel components connections = Returns r /\
    MIN_CANVAS_HEIGHT <= totalHeight r /\ vy + 200 <= totalHeight r.
Proof.
  intros Hall Hin Hy. unfold calculateSmartLayout. rewrite Hall.
  eexists. split; [reflexivity |]. simpl. split; [apply Q.le_max_l |].
  eapply Qle_trans; [| apply Q.le_max_r]. apply Qplus_le_l.
  destruct (maxYOf_bounds components 0) as [_ Hmax]. by apply (Hmax c).
Qed.

Lemma pinned_canvas_holds_all_witness :
  exists r, calculateSmartLayout 0 pinnedPlant [] = Returns r /\
    MIN_CANVAS_HEIGHT <= totalHeight r /\ 900 + 200 <= totalHeight r.
Proof.
  apply (pinned_canvas_holds_all 0 pinnedPlant []
           (comp "grid" GRID [] (Some 1000) (Some 900)) 900);
    [reflexivity | right; by left | reflexivity].
Defined.

(** ** Root bands *)

(** The traversal below a node leaves alone an id that is in no children
    array and is not the node itself. *)
Section Frame.
Variable components : list SolarComponent.
Variable subtreeHeights : gmap string Q.
Variable r : string.

Lemma unlisted_sorted pl nodeId children :
  unlisted r (pl_children pl) -> pl_children pl !! nodeId = Some children ->
  unlisted r (<[nodeId := sortIds children]> (pl_children pl)).
Proof.
  intros Hun Hch p l. destruct (decide (nodeId = p)) as [<-|Hne].
  - rewrite lookup_insert_eq. intros [= <-]. rewrite sortIds_In. by eapply Hun.
  - rewrite lookup_insert_ne by done. apply Hun.
Qed.

Lemma placeChildren_frame assign children startY pl pl' :
  (forall id cy pl0 pl1, id <> r -> unlisted r (pl_children pl0) ->
     assign id cy pl0 = Returns pl1 ->
     unlisted r (pl_children pl1) /\ positions pl1 !! r = positions pl0 !! r) ->
  ~ In r children -> unlisted r (pl_children pl) ->
  placeChildren assign subtreeHeights children startY pl = Returns pl' ->
  unlisted r (pl_children pl') /\ positions pl' !! r = positions pl !! r.
Proof.
  intros Hassign. revert startY pl.
  induction children as [|childId rest IH]; intros startY pl Hnot Hun; simpl.
  - by intros [= <-].
  - unfold getAsserted. destruct (subtreeHeights !! childId) as [h|]; simpl; [| done].
    destruct (assign childId _ pl) as [pl1| |] eqn:E; simpl; try done.
    intros Hrest.
    destruct (Hassign _ _ _ _ (fun Heq => Hnot (or_introl Heq)) Hun E) as [Hun1 Hpos1].
    destruct (IH _ _ (fun Hin => Hnot (or_intror Hin)) Hun1 Hrest) as [Hun' Hpos'].
    split; [done | congruence].
Qed.

Lemma assignPosition_frame fuel nodeId centerY pl pl' :
  nodeId <> r -> unlisted r (pl_children pl) ->
  assignPosition components subtreeHeights fuel nodeId centerY pl = Returns pl' ->
  unlisted r (pl_children pl') /\ positions pl' !! r = positions pl !! r.
Proof.
  revert nodeId centerY pl pl'.
  induction fuel as [|fuel IH]; intros nodeId centerY pl pl' Hne Hun; [done |].
  rewrite assignPosition_unfold.
  destruct (findComponent components nodeId) as [node|] eqn:Hnode;
    [| by intros [= <-]].
  destruct (pl_children pl !! nodeId) as [[|child rest]|] eqn:Hch; cbv zeta.
  - intros [= <-]. simpl. by rewrite lookup_insert_ne.
  - unfold getAsserted. destruct (subtreeHeights !! nodeId) as [h|];
      cbn [mbind outcome_bind]; [| done].
    intros Hplace.
    eapply placeChildren_frame in Hplace as [Hun' Hpos']; [| exact IH | |].
    + split; [done |]. rewrite Hpos'. simpl. by rewrite lookup_insert_ne.
    + rewrite sortIds_In. by eapply Hun.
    + cbn [pl_children]. by apply unlisted_sorted.
  - intros [= <-]. simpl. by rewrite lookup_insert_ne.
Qed.

Lemma assignPosition_own fuel centerY pl pl' node :
  findComponent components r = Some node -> unlisted r (pl_children pl) ->
  assignPosition components subtreeHeights fuel r centerY pl = Returns pl' ->
  unlisted r (pl_children pl') /\
  positions pl' !! r =
    Some (mkPosition (default (getLevelX (c_type node)) (c_x node))
                     (default centerY (c_y node))).
Proof.
  destruct fuel as [|fuel]; [done |]. intros Hnode Hun.
  rewrite assignPosition_unfold, Hnode.
  destruct (pl_children pl !! r) as [[|child rest]|] eqn:Hch; cbv zeta.
  - intros [= <-]. simpl. by rewrite lookup_insert_eq.
  - unfold getAsserted. destruct (subtreeHeights !! r) as [h|];
      cbn [mbind outcome_bind]; [| done].
    intros Hplace.
    eapply placeChildren_frame in Hplace as [Hun' Hpos'];
      [| apply assignPosition_frame | |].
    + split; [done |]. rewrite Hpos'. simpl. by rewrite lookup_insert_eq.
    + rewrite sortIds_In. by eapply Hun.
    + cbn [pl_children]. by apply unlisted_sorted.
  - intros [= <-]. simpl. by rewrite lookup_insert_eq.
Qed.

Lemma placeRoots_frame fuel roots pl cursor pl' cursor' :
  ~ In r (map c_id roots) -> unlisted r (pl_children pl) ->
  forEachM (placeRoot components subtreeHeights fuel) roots (pl, cursor) =
    Returns (pl', cursor') ->
  positions pl' !! r = positions pl !! r.
Proof.
  revert pl cursor. induction roots as [|root rest IH]; intros pl cursor Hnot Hun; simpl.
  - by intros [= <- <-].
  - unfold getAsserted. destruct (subtreeHeights !! c_id root) as [h|]; simpl; [| done].
    destruct (assignPosition _ _ _ _ _ pl) as [pl1| |] eqn:E; simpl; try done.
    intros Hrest.
    apply assignPosition_frame in E as [Hun1 Hpos1];
      [| intros Heq; apply Hnot; by left | done].
    rewrite <- Hpos1. eapply IH; [| exact Hun1 | exact Hrest].
    intros Hin. apply Hnot. by right.
Qed.
End Frame.

Lemma cursorAfter_snoc subtreeHeights roots start k r h :
  roots !! k = Some r -> subtreeHeights !! c_id r = Some h ->
  cursorAfter subtreeHeights (take (S k) roots) start =
  cursorAfter subtreeHeights (take k roots) start + (h + 40).
Proof.
  intros Hk Hh. rewrite (take_S_r _ _ _ Hk). unfold cursorAfter.
  rewrite fold_left_app. simpl. by rewrite Hh.
Qed.

Lemma cursorAfter_grows subtreeHeights roots start :
  floored subtreeHeights -> start <= cursorAfter subtreeHeights roots start.
Proof.
  intros Hfloor. revert start. unfold cursorAfter.
  induction roots as [|r rest IH]; intros start; simpl; [apply Qle_refl |].
  eapply Qle_trans; [| apply IH].
  assert (0 <= default 0 (subtreeHeights !! c_id r)).
  { destruct (subtreeHeights !! c_id r) as [h|] eqn:E; simpl; [| apply Qle_refl].
    apply Hfloor in E. unfold BASE_NODE_HEIGHT in E. lra. }
  lra.
Qed.

Lemma cursorAfter_take_mono subtreeHeights roots start (j k : nat) :
  floored subtreeHeights -> (j <= k)%nat ->
  cursorAfter subtreeHeights (take j roots) start <=
  cursorAfter subtreeHeights (take k roots) start.
Proof.
  intros Hfloor. revert start j k.
  induction roots as [|r rest IH]; intros start j k Hjk.
  - rewrite !take_nil. apply Qle_refl.
  - destruct j as [|j]; [by apply cursorAfter_grows |].
    destruct k as [|k]; [lia |]. simpl. apply IH. lia.
Qed.

(** The roots, one band below the other. *)
Lemma placeRoots_bands components subtreeHeights fuel roots pl cursor pl' cursor' :
  NoDup (map c_id roots) ->
  (forall r, In r roots -> findComponent components (c_id r) = Some r /\
                           unlisted (c_id r) (pl_children pl)) ->
  forEachM (placeRoot components subtreeHeights fuel) roots (pl, cursor) =
    Returns (pl', cursor') ->
  cursor' = cursorAfter subtreeHeights roots cursor /\
  forall k r, roots !! k = Some r ->
    exists h, subtreeHeights !! c_id r = Some h /\
      positions pl' !! c_id r =
        Some (mkPosition
                (default (getLevelX (c_type r)) (c_x r))
                (default (cursorAfter subtreeHeights (take k roots) cursor + h / 2)
                         (c_y r))).
Proof.
  revert pl cursor.
  induction roots as [|root rest IH]; intros pl cursor Hnodup Hroots; simpl.
  - intros [= <- <-]. split; [done |]. intros k r Hk. by destruct k.
  - unfold getAsserted.
    destruct (subtreeHeights !! c_id root) as [h|] eqn:Hh; simpl; [| done].
    destruct (assignPosition _ _ _ _ _ pl) as [pl1| |] eqn:E; simpl; try done.
    intros Hrest. apply NoDup_cons in Hnodup as [Hfresh Hnodup].
    destruct (Hroots root (or_introl eq_refl)) as [Hfound Hun].
    destruct (assignPosition_own _ _ _ _ _ _ _ _ Hfound Hun E) as [Hun1 Hpos1].
    destruct (IH pl1 (cursor + (h + 40)) Hnodup) as [Hcursor Hbands]; [| exact Hrest |].
    { intros r Hr. destruct (Hroots r (or_intror Hr)) as [Hf Hu]. split; [done |].
      eapply (assignPosition_frame components subtreeHeights (c_id r)); [| exact Hu | exact E].
      intros Heq. apply Hfresh. rewrite Heq. apply list_elem_of_In. by apply in_map. }
    split; [exact Hcursor |].
    intros [|k] r Hk; simpl in Hk.
    + injection Hk as <-. exists h. split; [done |]. simpl.
      rewrite <- Hpos1.
      eapply placeRoots_frame; [| exact Hun1 | exact Hrest].
      intros Hin. apply Hfresh. by apply list_elem_of_In.
    + destruct (Hbands k r Hk) as (h' & Hh' & Hpos). exists h'. split; [done |].
      rewrite Hpos. unfold cursorAfter. simpl. by rewrite Hh.
Qed.

(** Measuring records heights of at least 100 only. *)
Lemma sumHeights_floored calc children sum m total m' :
  (forall c m0 h0 m1, calc c m0 = Returns (h0, m1) -> floored m0 -> floored m1) ->
  sumHeights calc children sum m = Returns (total, m') -> floored m -> floored m'.
Proof.
  intros Hcalc. revert sum m. induction children as [|c rest IH]; intros sum m; simpl.
  - by intros [= <- <-].
  - destruct (calc c m) as [[h m1]| |] eqn:E; simpl; try done.
    intros Hrest Hm. eapply IH; [exact Hrest |]. eapply Hcalc; eauto.
Qed.

Lemma floored_insert m k h :
  floored m -> BASE_NODE_HEIGHT <= h -> floored (<[k := h]> m).
Proof.
  intros Hm Hh k' h'. destruct (decide (k = k')) as [<-|Hne].
  - rewrite lookup_insert_eq. by intros [= <-].
  - rewrite lookup_insert_ne by done. apply Hm.
Qed.

Lemma calcHeight_floored components children_of fuel nodeId m h m' :
  calcHeight components children_of fuel nodeId m = Returns (h, m') ->
  floored m -> floored m'.
Proof.
  revert nodeId m h m'. induction fuel as [|fuel IH]; intros nodeId m h m'; [done |].
  rewrite calcHeight_unfold. fold (ownHeight components nodeId).
  pose proof (ownHeight_base components nodeId) as Hbase.
  destruct (m !! nodeId) as [h0|]; [by intros [= <- <-] |].
  destruct (default [] (children_of !! nodeId)) as [|child rest].
  - intros [= <- <-] Hm. by apply floored_insert.
  - destruct (sumHeights _ _ _ _) as [[total m1]| |] eqn:E;
      cbn [mbind outcome_bind]; try done.
    cbv zeta. intros [= <- <-] Hm. apply floored_insert.
    + eapply sumHeights_floored; [| exact E | exact Hm]. intros c m0 h0 m2. apply IH.
    + eapply Qle_trans; [exact Hbase | apply Q.le_max_l].
Qed.

Lemma calcRootHeights_floored components children_of fuel roots heights :
  calcRootHeights components children_of fuel roots = Returns heights ->
  floored heights.
Proof.
  unfold calcRootHeights.
  assert (Hgen : forall m, floored m ->
            forEachM (fun subtreeHeights r =>
                        '(_, subtreeHeights') ←
                          calcHeight components children_of fuel (c_id r) subtreeHeights;
                        Returns subtreeHeights') roots m = Returns heights ->
            floored heights).
  { induction roots as [|root rest IH]; intros m Hm; simpl.
    - by intros [= <-].
    - destruct (calcHeight components children_of fuel (c_id root) m)
        as [[h m1]| |] eqn:E; simpl; try done.
      apply IH. by eapply calcHeight_floored. }
  apply Hgen. intros k h Hk. by rewrite lookup_empty in Hk.
Qed.

(** The sorted roots are the roots. *)
Lemma insertRoot_perm a l : insertRoot a l ≡ₚ a :: l.
Proof.
  induction l as [|b rest IH]; simpl; [done |].
  destruct (Qltb _ _); [| done]. rewrite IH. apply Permutation_swap.
Qed.

Lemma sortRoots_perm l : sortRoots l ≡ₚ l.
Proof.
  induction l as [|a rest IH]; simpl; [done |]. by rewrite insertRoot_perm, IH.
Qed.

Lemma filter_ids_NoDup (f : SolarComponent -> bool) (l : list SolarComponent) :
  NoDup (map c_id l) -> NoDup (map c_id (List.filter f l)).
Proof.
  induction l as [|a rest IH]; simpl; [done |].
  intros Hnodup. apply NoDup_cons in Hnodup as [Hfresh Hrest].
  destruct (f a); simpl; [| by apply IH].
  apply NoDup_cons_2; [| by apply IH].
  intros Hin. apply Hfresh. apply list_elem_of_In in Hin. apply list_elem_of_In.
  apply in_map_iff in Hin as (c & Hc & Hin). apply in_map_iff. exists c.
  split; [done |]. by apply filter_In in Hin as [? _].
Qed.

Lemma rootsOf_NoDup components forest :
  NoDup (map c_id components) -> NoDup (map c_id (rootsOf components forest)).
Proof.
  intros Hnodup. unfold rootsOf.
  rewrite (Permutation_map c_id (sortRoots_perm _)). by apply filter_ids_NoDup.
Qed.

Lemma rootsOf_spec components forest r :
  In r (rootsOf components forest) <->
  In r components /\ parentMap forest !! c_id r = None.
Proof.
  unfold rootsOf. rewrite sortRoots_In, filter_In. unfold has.
  destruct (parentMap forest !! c_id r); simpl; intuition congruence.
Qed.

(** X19.  Roots are stacked one band below the other.  With unique component
    ids, whenever the positions are computed, the cursor [currentRootY] ends
    at 100 plus, for every root, the height recorded for it plus the gap of
    40 (so the canvas is max(1000, that + 100) high); the root at place k of
    the sorted roots is recorded at its own x or else its rank column, and at
    its own y or else the middle of its band, which starts where the cursor
    stood after the k roots before it; no later traversal overwrites it.
    Every band is at least 100 high, so two roots without an own y are at
    least 140 apart, the one sorted first above the other. *)
Theorem roots_stacked_in_bands (fuel : nat) (components : list SolarComponent)
    (connections : list Connection) (heights : gmap string Q)
    (pl : Placement) (cursor : Q) :
  let forest := buildForest components connections in
  let roots := rootsOf components forest in
  NoDup (map c_id components) ->
  calcRootHeights components (childrenMap forest) fuel roots = Returns heights ->
  computePositions fuel components connections = Returns (pl, cursor) ->
  cursor = cursorAfter heights roots 100 /\
  (allHavePos components = false ->
   exists r, calculateSmartLayout fuel components connections = Returns r /\
     totalHeight r = Qmax MIN_CANVAS_HEIGHT (cursorAfter heights roots 100 + 100)) /\
  (forall k r, roots !! k = Some r ->
     exists h, heights !! c_id r = Some h /\ BASE_NODE_HEIGHT <= h /\
       positions pl !! c_id r =
         Some (mkPosition
                 (default (getLevelX (c_type r)) (c_x r))
                 (default (cursorAfter heights (take k roots) 100 + h / 2) (c_y r)))) /\
  (forall j k rj rk pj pk, (j < k)%nat ->
     roots !! j = Some rj -> roots !! k = Some rk ->
     c_y rj = None -> c_y rk = None ->
     positions pl !! c_id rj = Some pj -> positions pl !! c_id rk = Some pk ->
     pos_y pj + 140 <= pos_y pk).
Proof.
  intros forest roots Hnodup Hheights Hpos.
  pose proof Hpos as Hplace. unfold computePositions in Hplace. cbv zeta in Hplace.
  fold forest in Hplace. fold roots in Hplace. rewrite Hheights in Hplace.
  cbn [mbind outcome_bind] in Hplace.
  pose proof (calcRootHeights_floored _ _ _ _ _ Hheights) as Hfloor.
  assert (Hroots : forall r, In r roots ->
            findComponent components (c_id r) = Some r /\
            unlisted (c_id r) (childrenMap forest)).
  { intros r Hr. apply rootsOf_spec in Hr as [Hin Hroot].
    split; [by apply findComponent_first |].
    intros p l Hl Hc.
    destruct (proj2 (buildForest_consistent components connections) p l (c_id r) Hl Hc)
      as [q Hq].
    fold forest in Hq. congruence. }
  destruct (placeRoots_bands components heights fuel roots
              {| pl_children := childrenMap forest; positions := ∅ |} 100 pl cursor
              (rootsOf_NoDup components forest Hnodup) Hroots Hplace)
    as [Hcursor Hbands].
  split; [exact Hcursor |]. split; [| split].
  - intros Hall. eexists. split; [by apply layout_recompute |]. simpl. by rewrite Hcursor.
  - intros k r Hk. destruct (Hbands k r Hk) as (h & Hh & Hp). exists h.
    split; [done |]. split; [by eapply Hfloor | done].
  - intros j k rj rk pj pk Hjk Hj Hk Hyj Hyk Hpj Hpk.
    destruct (Hbands j rj Hj) as (hj & Hhj & Hp1).
    destruct (Hbands k rk Hk) as (hk & Hhk & Hp2).
    rewrite Hpj in Hp1. injection Hp1 as ->.
    rewrite Hpk in Hp2. injection Hp2 as ->.
    rewrite Hyj, Hyk. simpl.
    pose proof (cursorAfter_take_mono heights roots 100 (S j) k Hfloor Hjk) as Hmono.
    rewrite (cursorAfter_snoc _ _ _ _ _ _ Hj Hhj) in Hmono.
    pose proof (Hfloor _ _ Hhj) as Hbj. pose proof (Hfloor _ _ Hhk) as Hbk.
    unfold BASE_NODE_HEIGHT in Hbj, Hbk. unfold Qdiv. change (/ 2) with (1 # 2). lra.
Qed.

Lemma roots_stacked_in_bands_witness :
  exists heights pl cursor,
    calcRootHeights sharedArrayPlant
      (childrenMap (buildForest sharedArrayPlant sharedArrayWires)) 3
      (rootsOf sharedArrayPlant (buildForest sharedArrayPlant sharedArrayWires)) =
      Returns heights /\
    computePositions 3 sharedArrayPlant sharedArrayWires = Returns (pl, cursor) /\
    cursor = cursorAfter heights
               (rootsOf sharedArrayPlant (buildForest sharedArrayPlant sharedArrayWires))
               100.
Proof.
  assert (exists heights,
            calcRootHeights sharedArrayPlant
              (childrenMap (buildForest sharedArrayPlant sharedArrayWires)) 3
              (rootsOf sharedArrayPlant (buildForest sharedArrayPlant sharedArrayWires)) =
              Returns heights) as [heights Hheights]
    by (vm_compute; eauto).
  assert (exists p, computePositions 3 sharedArrayPlant sharedArrayWires = Returns p)
    as [[pl cursor] Hpos] by (vm_compute; eauto).
  exists heights, pl, cursor. split; [exact Hheights |]. split; [exact Hpos |].
  apply (roots_stacked_in_bands 3 sharedArrayPlant sharedArrayWires heights pl cursor);
    [| exact Hheights | exact Hpos].
  repeat (apply NoDup_cons_2;
          [intros Hin; apply list_elem_of_In in Hin; simpl in Hin; intuition discriminate |]).
  apply NoDup_nil_2.
Defined.

Lemma insertRoot_sorted a l :
  StronglySorted byRankDescending l -> StronglySorted byRankDescending (insertRoot a l).
Proof.
  induction l as [|b rest IH]; simpl; intros Hsorted.
  - repeat constructor.
  - apply StronglySorted_inv in Hsorted as [Hrest Hb].
    destruct (Qltb _ _) eqn:E.
    + apply Qltb_lt in E. constructor; [by apply IH |].
      rewrite (insertRoot_perm a rest). constructor; [| done].
      unfold byRankDescending. by apply Qlt_le_weak.
    + apply Qltb_ge in E. constructor; [by constructor |].
      constructor; [done |]. eapply Forall_impl; [exact Hb |].
      intros c Hc. unfold byRankDescending in *. by eapply Qle_trans.
Qed.

Lemma insertRoot_stable q a l :
  List.filter (sameRank q) (insertRoot a l) = List.filter (sameRank q) (a :: l).
Proof.
  induction l as [|b rest IH]; [done |]. cbn [insertRoot].
  destruct (Qltb _ _) eqn:E; [| done]. apply Qltb_lt in E.
  cbn [List.filter] in *. rewrite IH.
  destruct (sameRank q a) eqn:Ea; [| done].
  destruct (sameRank q b) eqn:Eb; [| done]. exfalso.
  unfold sameRank in Ea, Eb. apply Qeq_bool_iff in Ea, Eb. lra.
Qed.

(** X20.  The roots handed to the placement are the components without a
    recorded parent, each as often as it is listed, ordered by descending rank;
    the sort is stable: roots of one rank keep the order of the component
    list. *)
Theorem roots_ordered_by_rank (components : list SolarComponent)
    (connections : list Connection) :
  let forest := buildForest components connections in
  let roots := rootsOf components forest in
  let parentless := List.filter (fun c => negb (has (parentMap forest) (c_id c)))
                                components in
  roots ≡ₚ parentless /\
  (forall r, In r roots <-> In r components /\ parentMap forest !! c_id r = None) /\
  StronglySorted byRankDescending roots /\
  (forall q, List.filter (sameRank q) roots = List.filter (sameRank q) parentless).
Proof.
  intros forest roots parentless. subst roots. unfold rootsOf. fold parentless.
  split; [apply sortRoots_perm |]. split; [intros r; apply rootsOf_spec |].
  generalize parentless. clear. intros l. split.
  - induction l as [|a rest IH]; simpl; [constructor | by apply insertRoot_sorted].
  - intros q. induction l as [|a rest IH]; [done |].
    cbn [sortRoots fold_right]. rewrite insertRoot_stable.
    cbn [List.filter]. fold (sortRoots rest). by rewrite IH.
Qed.
